(** * nano-orderbook: a shallow embedding of the matching engine

    The development follows [include/types.hpp], [include/order.hpp],
    [include/price_level.hpp], [include/memory_pool.hpp] and
    [include/order_book.hpp].

    Conventions of the embedding.
    - A pointer [Order*] is the index of the pool slot it addresses
      ([nat]); [nullptr] is [None].
    - The pool's storage is a finite map from slot indices to the orders
      constructed in them; the embedded free list is the list of free slot
      indices, head first.
    - [order_map_] is a finite map from table indices to pointers; an
      absent index is a null entry.
    - The circular sentinel list of a price level is the sequence of its
      nodes read from [sentinel.next] to [sentinel.prev].
    - 64-bit integers are [Z] with their wrap-around written out
      ([wrap_i64], [wrap_u64]).
    - Every loop takes fuel; a computation returns [None] when the fuel
      runs out or when the C++ code would dereference a null or dangling
      pointer or index an array out of bounds. *)

From stdpp Require Import base numbers option list gmap fin_maps.

Local Open Scope Z_scope.

(** ** types.hpp *)

Inductive Side := Buy | Sell.
Inductive OrdType := Limit | Market | IOC.

#[global] Instance Side_eq_dec : EqDecision Side.
Proof. solve_decision. Defined.
#[global] Instance OrdType_eq_dec : EqDecision OrdType.
Proof. solve_decision. Defined.

Definition flip (s : Side) : Side :=
  match s with Buy => Sell | Sell => Buy end.

Definition wrap_i64 (z : Z) : Z := (z + 2 ^ 63) mod 2 ^ 64 - 2 ^ 63.
Definition wrap_u64 (z : Z) : Z := z mod 2 ^ 64.

Definition is_i64 (z : Z) : Prop := - 2 ^ 63 ≤ z < 2 ^ 63.
Definition is_u64 (z : Z) : Prop := 0 ≤ z < 2 ^ 64.

Definition NO_BID : Z := -1.

(** ** order.hpp *)

Module Order.
Record t := mk {
  id : Z;
  price : Z;
  qty : Z;
  orig_qty : Z;
  ts : Z;
  side : Side;
  type : OrdType
}.

(** The six-argument constructor: [orig_qty] is initialised from the same
    argument as [qty]. *)
Definition create (id_ px_ q_ : Z) (s_ : Side) (t_ : OrdType) (ts_ : Z) : t :=
  mk id_ px_ q_ q_ ts_ s_ t_.

Definition fill (amount : Z) (o : t) : t :=
  mk (id o) (price o) (wrap_i64 (qty o - amount)) (orig_qty o) (ts o)
     (side o) (type o).

Definition filled (o : t) : bool := bool_decide (qty o ≤ 0).
Definition remaining (o : t) : Z := qty o.
End Order.

(** ** price_level.hpp *)

Module PriceLevel.
Record t := mk {
  orders : list nat;
  order_cnt : Z;
  total_qty : Z
}.

Definition init : t := mk [] 0 0.

Definition push_back (st : gmap nat Order.t) (o : nat) (lv : t) : option t :=
  ord ← st !! o;
  Some (mk (orders lv ++ [o])
           (wrap_u64 (order_cnt lv + 1))
           (wrap_i64 (total_qty lv + Order.qty ord))).

(** Unlinking a node that is not linked in this list is outside the
    model. *)
Definition remove (st : gmap nat Order.t) (o : nat) (lv : t) : option t :=
  ord ← st !! o;
  if decide (o ∈ orders lv) then
    Some (mk (filter (λ x, x ≠ o) (orders lv))
             (wrap_u64 (order_cnt lv - 1))
             (wrap_i64 (total_qty lv - Order.qty ord)))
  else None.

Definition reduce_qty (amount : Z) (lv : t) : t :=
  mk (orders lv) (order_cnt lv) (wrap_i64 (total_qty lv - amount)).

Definition front (lv : t) : option nat := head (orders lv).
Definition back (lv : t) : option nat := last (orders lv).
Definition empty (lv : t) : bool := bool_decide (order_cnt lv = 0).
Definition count (lv : t) : Z := order_cnt lv.
Definition qty (lv : t) : Z := total_qty lv.
End PriceLevel.

(** ** memory_pool.hpp *)

Module MemPool.
Record t := mk {
  storage_ : gmap nat Order.t;
  free_head_ : list nat;
  alloc_cnt_ : Z
}.

(** The constructor threads every slot on the free list so that slot 0
    is handed out first. *)
Definition init (Capacity : nat) : t := mk ∅ (seq 0 Capacity) 0.

Definition alloc (p : t) : option nat * t :=
  match free_head_ p with
  | [] => (None, p)
  | node :: rest => (Some node, mk (storage_ p) rest (wrap_u64 (alloc_cnt_ p + 1)))
  end.

Definition dealloc (o : nat) (p : t) : t :=
  mk (delete o (storage_ p)) (o :: free_head_ p) (wrap_u64 (alloc_cnt_ p - 1)).

(** Placement new of an order in an allocated slot. *)
Definition construct (o : nat) (ord : Order.t) (p : t) : t :=
  mk (<[o := ord]> (storage_ p)) (free_head_ p) (alloc_cnt_ p).

Definition used (p : t) : Z := alloc_cnt_ p.
Definition full (Capacity : nat) (p : t) : bool :=
  bool_decide (alloc_cnt_ p = Z.of_nat Capacity).

(** [create]: [alloc] followed by placement new when a slot was handed
    out. *)
Definition create (ord : Order.t) (p : t) : option nat * t :=
  match alloc p with
  | (Some o, p') => (Some o, construct o ord p')
  | (None, p') => (None, p')
  end.

Definition capacity (Capacity : nat) : Z := Z.of_nat Capacity.
Definition available (Capacity : nat) (p : t) : Z :=
  wrap_u64 (Z.of_nat Capacity - alloc_cnt_ p).
Definition empty (p : t) : bool := bool_decide (alloc_cnt_ p = 0).

(** [owns] for the address of a slot: it lies inside [storage_] when the
    slot index is below the capacity. *)
Definition owns (Capacity : nat) (o : nat) : bool := bool_decide (o < Capacity)%nat.
End MemPool.

(** ** order_book.hpp *)

Inductive AddResult := Ok | DuplicateId | InvalidPrice | PoolExhausted | InvalidQty.

#[global] Instance AddResult_eq_dec : EqDecision AddResult.
Proof. solve_decision. Defined.

Module OrderBook.
Record t := mk {
  levels_ : gmap Z PriceLevel.t;
  best_bid_ : Z;
  best_ask_ : Z;
  total_orders_ : Z;
  pool_ : MemPool.t;
  order_map_ : gmap nat nat
}.

Definition set_levels (f : gmap Z PriceLevel.t → gmap Z PriceLevel.t) (b : t) : t :=
  mk (f (levels_ b)) (best_bid_ b) (best_ask_ b) (total_orders_ b) (pool_ b) (order_map_ b).
Definition set_best_bid (v : Z) (b : t) : t :=
  mk (levels_ b) v (best_ask_ b) (total_orders_ b) (pool_ b) (order_map_ b).
Definition set_best_ask (v : Z) (b : t) : t :=
  mk (levels_ b) (best_bid_ b) v (total_orders_ b) (pool_ b) (order_map_ b).
Definition set_total_orders (v : Z) (b : t) : t :=
  mk (levels_ b) (best_bid_ b) (best_ask_ b) v (pool_ b) (order_map_ b).
Definition set_pool (p : MemPool.t) (b : t) : t :=
  mk (levels_ b) (best_bid_ b) (best_ask_ b) (total_orders_ b) p (order_map_ b).
Definition set_order_map (m : gmap nat nat) (b : t) : t :=
  mk (levels_ b) (best_bid_ b) (best_ask_ b) (total_orders_ b) (pool_ b) m.

Definition storage (b : t) : gmap nat Order.t := MemPool.storage_ (pool_ b).
End OrderBook.

Section Engine.
(** Template parameters of [OrderBook<MaxPrice, MaxOrders>] and the loop
    budget of the embedding. *)
Variable MaxPrice : Z.
Variable MaxOrders : nat.
Variable gas : nat.

Import OrderBook.

Definition NO_ASK : Z := MaxPrice + 1.

Definition empty_book : OrderBook.t :=
  OrderBook.mk ∅ NO_BID (MaxPrice + 1) 0 (MemPool.init MaxOrders) ∅.

(** *** The order index *)

Definition slot (id : Z) : nat := Z.to_nat (id mod Z.of_nat MaxOrders).

Definition step_idx (idx : nat) : nat := ((idx + 1) mod MaxOrders)%nat.

(** [o->id] for a pointer stored in the index. *)
Definition key (st : gmap nat Order.t) (o : nat) : option Z :=
  Order.id <$> st !! o.

Fixpoint lookup_loop (fuel : nat) (st : gmap nat Order.t) (om : gmap nat nat)
    (id : Z) (start idx : nat) : option (option nat) :=
  match fuel with
  | O => None
  | S fuel' =>
      if decide (idx ≠ start) then
        match om !! idx with
        | None => Some None
        | Some o =>
            oid ← key st o;
            if decide (oid = id) then Some (Some o)
            else lookup_loop fuel' st om id start (step_idx idx)
        end
      else Some None
  end.

Definition lookup_map (st : gmap nat Order.t) (om : gmap nat nat) (id : Z)
    : option (option nat) :=
  let idx := slot id in
  let probe := lookup_loop gas st om id idx (step_idx idx) in
  match om !! idx with
  | Some o =>
      oid ← key st o;
      if decide (oid = id) then Some (Some o) else probe
  | None => probe
  end.

Fixpoint insert_loop (fuel : nat) (st : gmap nat Order.t) (o : nat) (oid : Z)
    (start idx : nat) (om : gmap nat nat) : option (bool * gmap nat nat) :=
  match fuel with
  | O => None
  | S fuel' =>
      match om !! idx with
      | Some e =>
          eid ← key st e;
          if decide (eid = oid) then Some (false, om)
          else
            let idx' := step_idx idx in
            if decide (idx' = start) then Some (false, om)
            else insert_loop fuel' st o oid start idx' om
      | None => Some (true, <[idx := o]> om)
      end
  end.

Definition insert_map (st : gmap nat Order.t) (o : nat) (om : gmap nat nat)
    : option (bool * gmap nat nat) :=
  oid ← key st o;
  insert_loop gas st o oid (slot oid) (slot oid) om.

Fixpoint rehash_loop (fuel : nat) (st : gmap nat Order.t) (next : nat)
    (om : gmap nat nat) : option (gmap nat nat) :=
  match fuel with
  | O => None
  | S fuel' =>
      match om !! next with
      | Some to_rehash =>
          '(_, om') ← insert_map st to_rehash (delete next om);
          rehash_loop fuel' st (step_idx next) om'
      | None => Some om
      end
  end.

Fixpoint remove_loop (fuel : nat) (st : gmap nat Order.t) (id : Z) (idx : nat)
    (om : gmap nat nat) : option (gmap nat nat) :=
  match fuel with
  | O => None
  | S fuel' =>
      match om !! idx with
      | Some e =>
          eid ← key st e;
          if decide (eid = id) then
            rehash_loop gas st (step_idx idx) (delete idx om)
          else remove_loop fuel' st id (step_idx idx) om
      | None => Some om
      end
  end.

Definition remove_map (st : gmap nat Order.t) (id : Z) (om : gmap nat nat)
    : option (gmap nat nat) :=
  remove_loop gas st id (slot id) om.

(** *** Private members of the book *)

Definition lookup (id : Z) (b : OrderBook.t) : option (option nat) :=
  lookup_map (storage b) (order_map_ b) id.

(** [levels_[px]]: indexing outside [0, MaxPrice] is outside the model. *)
Definition level_ref (b : OrderBook.t) (px : Z) : option PriceLevel.t :=
  if decide (0 ≤ px ≤ MaxPrice)
  then Some (default PriceLevel.init (levels_ b !! px))
  else None.

Definition set_level (px : Z) (lv : PriceLevel.t) (b : OrderBook.t) : OrderBook.t :=
  set_levels (λ ls, <[px := lv]> ls) b.

Fixpoint update_best_bid (fuel : nat) (b : OrderBook.t) : option OrderBook.t :=
  match fuel with
  | O => None
  | S fuel' =>
      if decide (0 ≤ best_bid_ b) then
        lv ← level_ref b (best_bid_ b);
        if PriceLevel.empty lv
        then update_best_bid fuel' (set_best_bid (wrap_i64 (best_bid_ b - 1)) b)
        else Some b
      else Some b
  end.

Fixpoint update_best_ask (fuel : nat) (b : OrderBook.t) : option OrderBook.t :=
  match fuel with
  | O => None
  | S fuel' =>
      if decide (best_ask_ b ≤ MaxPrice) then
        lv ← level_ref b (best_ask_ b);
        if PriceLevel.empty lv
        then update_best_ask fuel' (set_best_ask (wrap_i64 (best_ask_ b + 1)) b)
        else Some b
      else Some b
  end.

Definition remove_from_book (o : nat) (b : OrderBook.t) : option OrderBook.t :=
  ord ← storage b !! o;
  lv ← level_ref b (Order.price ord);
  lv' ← PriceLevel.remove (storage b) o lv;
  let b1 := set_level (Order.price ord) lv' b in
  om' ← remove_map (storage b1) (Order.id ord) (order_map_ b1);
  let b2 := set_order_map om' b1 in
  let b3 := set_pool (MemPool.dealloc o (pool_ b2)) b2 in
  Some (set_total_orders (wrap_u64 (total_orders_ b3 - 1)) b3).

(** [level] is the reference [levels_[px]]. *)
Fixpoint match_level (fuel : nat) (px : Z) (qty : Z) (b : OrderBook.t)
    : option (Z * OrderBook.t) :=
  match fuel with
  | O => None
  | S fuel' =>
      level ← level_ref b px;
      if decide (0 < qty ∧ PriceLevel.empty level = false) then
        o ← PriceLevel.front level;
        ord ← storage b !! o;
        let fill := Z.min qty (Order.qty ord) in
        let ord' := Order.fill fill ord in
        let b1 := set_pool (MemPool.construct o ord' (pool_ b)) b in
        let qty' := wrap_i64 (qty - fill) in
        let b2 := set_level px (PriceLevel.reduce_qty fill level) b1 in
        if Order.filled ord' then
          b3 ← remove_from_book o b2;
          match_level fuel' px qty' b3
        else match_level fuel' px qty' b2
      else Some (qty, b)
  end.

Fixpoint match_buy_loop (fuel : nat) (qty limit : Z) (b : OrderBook.t)
    : option (Z * OrderBook.t) :=
  match fuel with
  | O => None
  | S fuel' =>
      if decide (0 < qty ∧ best_ask_ b ≤ limit ∧ best_ask_ b ≤ MaxPrice) then
        let px := best_ask_ b in
        '(qty', b1) ← match_level gas px qty b;
        level ← level_ref b1 px;
        b2 ← (if PriceLevel.empty level then update_best_ask gas b1 else Some b1);
        match_buy_loop fuel' qty' limit b2
      else Some (qty, b)
  end.

Fixpoint match_sell_loop (fuel : nat) (qty limit : Z) (b : OrderBook.t)
    : option (Z * OrderBook.t) :=
  match fuel with
  | O => None
  | S fuel' =>
      if decide (0 < qty ∧ limit ≤ best_bid_ b ∧ 0 ≤ best_bid_ b) then
        let px := best_bid_ b in
        '(qty', b1) ← match_level gas px qty b;
        level ← level_ref b1 px;
        b2 ← (if PriceLevel.empty level then update_best_bid gas b1 else Some b1);
        match_sell_loop fuel' qty' limit b2
      else Some (qty, b)
  end.

Definition match_internal (aggressor : Side) (qty limit : Z) (b : OrderBook.t)
    : option (Z * OrderBook.t) :=
  match aggressor with
  | Buy => match_buy_loop gas qty limit b
  | Sell => match_sell_loop gas qty limit b
  end.

(** *** Public members *)

Definition add (id : Z) (side : Side) (px qty : Z) (type : OrdType) (ts : Z)
    (b : OrderBook.t) : option (AddResult * OrderBook.t) :=
  found ← lookup id b;
  if decide (found ≠ None) then Some (DuplicateId, b) else
  if decide (qty ≤ 0) then Some (InvalidQty, b) else
  if decide (px < 0 ∨ MaxPrice < px) then Some (InvalidPrice, b) else
  '(remaining, b1) ←
    match side with
    | Buy =>
        if decide (best_ask_ b ≤ px) then match_internal side qty px b
        else Some (qty, b)
    | Sell =>
        if decide (px ≤ best_bid_ b) then match_internal side qty px b
        else Some (qty, b)
    end;
  if decide (type = IOC ∨ type = Market) then Some (Ok, b1) else
  if decide (remaining ≤ 0) then Some (Ok, b1) else
  match MemPool.alloc (pool_ b1) with
  | (None, _) => Some (PoolExhausted, b1)
  | (Some o, pool1) =>
      let pool2 := MemPool.construct o (Order.create id px remaining side type ts) pool1 in
      let b2 := set_pool pool2 b1 in
      '(inserted, om') ← insert_map (storage b2) o (order_map_ b2);
      if negb inserted then
        Some (DuplicateId, set_pool (MemPool.dealloc o (pool_ b2)) b2)
      else
        let b3 := set_order_map om' b2 in
        level ← level_ref b3 px;
        level' ← PriceLevel.push_back (storage b3) o level;
        let b4 := set_level px level' b3 in
        let b5 := set_total_orders (wrap_u64 (total_orders_ b4 + 1)) b4 in
        Some (Ok,
              match side with
              | Buy => if decide (best_bid_ b5 < px) then set_best_bid px b5 else b5
              | Sell => if decide (px < best_ask_ b5) then set_best_ask px b5 else b5
              end)
  end.

Definition cancel (id : Z) (b : OrderBook.t) : option (bool * OrderBook.t) :=
  found ← lookup id b;
  match found with
  | None => Some (false, b)
  | Some o =>
      ord ← storage b !! o;
      let px := Order.price ord in
      let side := Order.side ord in
      b1 ← remove_from_book o b;
      b2 ← match side with
           | Buy => if decide (px = best_bid_ b1) then update_best_bid gas b1 else Some b1
           | Sell => if decide (px = best_ask_ b1) then update_best_ask gas b1 else Some b1
           end;
      Some (true, b2)
  end.

Definition match_ (aggressor : Side) (qty : Z) (b : OrderBook.t)
    : option (Z * OrderBook.t) :=
  match_internal aggressor qty
    (match aggressor with Buy => MaxPrice | Sell => 0 end) b.

(** *** Accessors *)

Definition bid (b : OrderBook.t) : Z := best_bid_ b.
Definition ask (b : OrderBook.t) : Z := best_ask_ b.
Definition has_bid (b : OrderBook.t) : bool := bool_decide (0 ≤ best_bid_ b).
Definition has_ask (b : OrderBook.t) : bool := bool_decide (best_ask_ b ≤ MaxPrice).
Definition crossed (b : OrderBook.t) : bool :=
  has_bid b && has_ask b && bool_decide (best_ask_ b ≤ best_bid_ b).
Definition bid_qty (b : OrderBook.t) : option Z :=
  if decide (best_bid_ b < 0) then Some 0
  else PriceLevel.qty <$> level_ref b (best_bid_ b).
Definition ask_qty (b : OrderBook.t) : option Z :=
  if decide (MaxPrice < best_ask_ b) then Some 0
  else PriceLevel.qty <$> level_ref b (best_ask_ b).
Definition spread (b : OrderBook.t) : Z := wrap_i64 (best_ask_ b - best_bid_ b).
Definition order_count (b : OrderBook.t) : Z := total_orders_ b.
Definition pool_used (b : OrderBook.t) : Z := MemPool.used (pool_ b).
Definition pool_capacity : Z := Z.of_nat MaxOrders.
Definition get_order (id : Z) (b : OrderBook.t) : option (option nat) := lookup id b.
Definition level_at (px : Z) (b : OrderBook.t) : option PriceLevel.t := level_ref b px.

(** What a caller reads through the pointer [get_order] returns. *)
Definition get_order_value (id : Z) (b : OrderBook.t) : option (option Order.t) :=
  found ← get_order id b;
  match found with
  | None => Some None
  | Some o => ord ← storage b !! o; Some (Some ord)
  end.

End Engine.

(** ** benchmarks/workload.hpp *)

Module Workload.
Inductive OpType := Add | Cancel | Match.

Record Op := mk {
  type : OpType;
  id : Z;
  side : Side;
  price : Z;
  qty : Z;
  ord_type : OrdType
}.
End Workload.

(** ** benchmarks/stress_small.cpp *)

Module Stress.
(** The counters of [main]: [add_cnt], [cancel_cnt], [match_cnt], [add_ok]
    and [cancel_ok], all [size_t]. *)
Record counters := mk {
  add_cnt : Z;
  cancel_cnt : Z;
  match_cnt : Z;
  add_ok : Z;
  cancel_ok : Z
}.

Definition zero : counters := mk 0 0 0 0 0.

Section Run.
Variable MaxPrice : Z.
Variable MaxOrders : nat.
Variable gas : nat.

(** The body of the loop: the switch on the operation that the generator
    returned. [add] is called without a timestamp, so with [Timestamp{0}]. *)
Definition apply_op (op : Workload.Op) (c : counters) (b : OrderBook.t)
    : option (counters * OrderBook.t) :=
  match Workload.type op with
  | Workload.Add =>
      '(res, b') ← add MaxPrice MaxOrders gas (Workload.id op) (Workload.side op)
                     (Workload.price op) (Workload.qty op) (Workload.ord_type op) 0 b;
      Some (mk (wrap_u64 (add_cnt c + 1)) (cancel_cnt c) (match_cnt c)
               (if decide (res = Ok) then wrap_u64 (add_ok c + 1) else add_ok c)
               (cancel_ok c), b')
  | Workload.Cancel =>
      '(res, b') ← cancel MaxPrice MaxOrders gas (Workload.id op) b;
      Some (mk (add_cnt c) (wrap_u64 (cancel_cnt c + 1)) (match_cnt c) (add_ok c)
               (match res with true => wrap_u64 (cancel_ok c + 1) | false => cancel_ok c end),
            b')
  | Workload.Match =>
      '(_, b') ← match_ MaxPrice MaxOrders gas (Workload.side op) (Workload.qty op) b;
      Some (mk (add_cnt c) (cancel_cnt c) (wrap_u64 (match_cnt c + 1)) (add_ok c)
               (cancel_ok c), b')
  end.

(** The loop of [main], over the operations that [gen.next()] returns in
    turn. *)
Fixpoint run (ops : list Workload.Op) (c : counters) (b : OrderBook.t)
    : option (counters * OrderBook.t) :=
  match ops with
  | [] => Some (c, b)
  | op :: ops' => '(c', b') ← apply_op op c b; run ops' c' b'
  end.

(** The memory check at the end of [main]. *)
Definition mem_ok (b : OrderBook.t) : bool :=
  bool_decide (pool_used b = order_count b).

(** The exit status of [main]; the clock and the printing of the report
    are left out. *)
Definition main (ops : list Workload.Op) : option Z :=
  '(_, b) ← run ops zero (empty_book MaxPrice MaxOrders);
  Some (if mem_ok b then 0 else 1).
End Run.
End Stress.

(** ** price_level.hpp, with the links of the intrusive list

    The list model of [PriceLevel] above reads the queue off the links.
    Here the links themselves are modelled: the [prev] and [next] fields of
    the sentinels and of the orders in the pool, and the pointer
    assignments that [push_back] and [remove] make, in the order in which
    the code makes them. *)

Module Links.
(** An address that a link can hold: the sentinel embedded in the level
    at index [px] of [levels_], or an order of the pool. *)
Inductive node := Sentinel (px : Z) | Slot (o : nat).

#[global] Instance node_eq_dec : EqDecision node.
Proof. solve_decision. Defined.

#[global] Instance node_countable : Countable node.
Proof.
  apply (inj_countable'
           (λ n, match n with Sentinel px => inl px | Slot o => inr o end)
           (λ s, match s with inl px => Sentinel px | inr o => Slot o end)).
  by intros [].
Defined.

(** The [prev] and [next] fields of a node; [None] is [nullptr]. *)
Record cell := mkcell { prev : option node; next : option node }.

(** The link fields in memory, and the two counters of the level that
    the member functions are called on. *)
Record t := mk {
  mem : gmap node cell;
  order_cnt : Z;
  total_qty : Z
}.

(** [n->prev = v] and [n->next = v]; writing through an address that
    holds no node is outside the model. *)
Definition set_prev (n : node) (v : option node) (m : gmap node cell)
    : option (gmap node cell) :=
  c ← m !! n; Some (<[n := mkcell v (next c)]> m).

Definition set_next (n : node) (v : option node) (m : gmap node cell)
    : option (gmap node cell) :=
  c ← m !! n; Some (<[n := mkcell (prev c) v]> m).

(** The constructor of the level at [this]: the sentinel points to
    itself. *)
Definition init (this : Z) (m : gmap node cell) : t :=
  mk (<[Sentinel this := mkcell (Some (Sentinel this)) (Some (Sentinel this))]> m) 0 0.

Definition push_back (this : Z) (st : gmap nat Order.t) (o : nat) (lv : t) : option t :=
  s ← mem lv !! Sentinel this;
  let tail := prev s in
  m1 ← set_prev (Slot o) tail (mem lv);
  m2 ← set_next (Slot o) (Some (Sentinel this)) m1;
  t ← tail;
  m3 ← set_next t (Some (Slot o)) m2;
  m4 ← set_prev (Sentinel this) (Some (Slot o)) m3;
  ord ← st !! o;
  Some (mk m4 (wrap_u64 (order_cnt lv + 1)) (wrap_i64 (total_qty lv + Order.qty ord))).

Definition remove (st : gmap nat Order.t) (o : nat) (lv : t) : option t :=
  co ← mem lv !! Slot o;
  p ← prev co;
  m1 ← set_next p (next co) (mem lv);
  co1 ← m1 !! Slot o;
  n ← next co1;
  m2 ← set_prev n (prev co1) m1;
  ord ← st !! o;
  m3 ← set_prev (Slot o) None m2;
  m4 ← set_next (Slot o) None m3;
  Some (mk m4 (wrap_u64 (order_cnt lv - 1)) (wrap_i64 (total_qty lv - Order.qty ord))).

Definition reduce_qty (amount : Z) (lv : t) : t :=
  mk (mem lv) (order_cnt lv) (wrap_i64 (total_qty lv - amount)).

Definition front (this : Z) (lv : t) : option node :=
  s ← mem lv !! Sentinel this; next s.
Definition back (this : Z) (lv : t) : option node :=
  s ← mem lv !! Sentinel this; prev s.
Definition empty (lv : t) : bool := bool_decide (order_cnt lv = 0).
Definition end_ (this : Z) : node := Sentinel this.
Definition count (lv : t) : Z := order_cnt lv.
Definition qty (lv : t) : Z := total_qty lv.
End Links.

(** * Machine arithmetic *)

Section Arith.
Lemma wrap_i64_id z : is_i64 z → wrap_i64 z = z.
Proof.
  unfold is_i64, wrap_i64. intros Hz.
  rewrite Z.mod_small; lia.
Qed.

Lemma wrap_u64_id z : is_u64 z → wrap_u64 z = z.
Proof. unfold is_u64, wrap_u64. intros Hz. apply Z.mod_small. lia. Qed.

Lemma wrap_i64_add_l a b : wrap_i64 (wrap_i64 a + b) = wrap_i64 (a + b).
Proof.
  unfold wrap_i64. f_equal.
  replace ((a + 2 ^ 63) `mod` 2 ^ 64 - 2 ^ 63 + b + 2 ^ 63)
    with ((a + 2 ^ 63) `mod` 2 ^ 64 + b) by lia.
  rewrite Zplus_mod_idemp_l. f_equal; lia.
Qed.

Lemma wrap_i64_sub_l a b : wrap_i64 (wrap_i64 a - b) = wrap_i64 (a - b).
Proof.
  replace (wrap_i64 a - b) with (wrap_i64 a + - b) by lia.
  rewrite wrap_i64_add_l. f_equal; lia.
Qed.

Lemma wrap_i64_range z : is_i64 (wrap_i64 z).
Proof.
  unfold is_i64, wrap_i64.
  pose proof (Z.mod_pos_bound (z + 2 ^ 63) (2 ^ 64)). lia.
Qed.
End Arith.

(** * The order index: linear probing with re-insertion on removal *)

Section IndexTheory.
Variable MaxOrders : nat.
Variable gas : nat.
Hypothesis HM : (0 < MaxOrders)%nat.

Local Abbreviation M := MaxOrders.
Local Abbreviation slot := (slot MaxOrders).
Local Abbreviation step_idx := (step_idx MaxOrders).
Local Abbreviation lookup_loop := (lookup_loop MaxOrders).
Local Abbreviation lookup_map := (lookup_map MaxOrders gas).
Local Abbreviation insert_loop := (insert_loop MaxOrders).
Local Abbreviation insert_map := (insert_map MaxOrders gas).
Local Abbreviation rehash_loop := (rehash_loop MaxOrders gas).
Local Abbreviation remove_loop := (remove_loop MaxOrders gas).
Local Abbreviation remove_map := (remove_map MaxOrders gas).

Local Open Scope nat_scope.

(** The [k]-th cell of the probe sequence that starts at [s], and the
    number of steps from [s] to [i] along it. *)
Definition probe (s k : nat) : nat := (s + k) mod M.
Definition disp (i s : nat) : nat := (i + M - s) mod M.

Lemma mod_cases a :
  a < 2 * M → (a < M ∧ a mod M = a) ∨ (M ≤ a ∧ a mod M = a - M).
Proof.
  intros Ha. destruct (decide (a < M)) as [Hlt|Hge].
  - left. split; [done|]. by apply Nat.mod_small.
  - right. split; [lia|].
    replace a with ((a - M) + 1 * M) at 1 by lia.
    rewrite Nat.Div0.mod_add. apply Nat.mod_small. lia.
Qed.

Lemma slot_lt id : slot id < M.
Proof.
  unfold slot.
  pose proof (Z.mod_pos_bound id (Z.of_nat M)). lia.
Qed.

Lemma probe_lt s k : probe s k < M.
Proof. unfold probe. apply Nat.mod_upper_bound. lia. Qed.

Lemma probe_0 s : s < M → probe s 0 = s.
Proof. intros Hs. unfold probe. rewrite Nat.add_0_r. by apply Nat.mod_small. Qed.

Lemma probe_M s : s < M → probe s M = s.
Proof.
  intros Hs. unfold probe.
  destruct (mod_cases (s + M)) as [[? ?]|[? ->]]; lia.
Qed.

Lemma probe_probe s n j : probe (probe s n) j = probe s (n + j).
Proof.
  unfold probe. rewrite Nat.Div0.add_mod_idemp_l. f_equal. lia.
Qed.

Lemma step_probe s k : step_idx (probe s k) = probe s (S k).
Proof.
  unfold step_idx. change (((probe s k) + 1) mod M) with (probe (probe s k) 1).
  rewrite probe_probe. f_equal. lia.
Qed.

Lemma step_idx_probe i : step_idx i = probe i 1.
Proof. done. Qed.

Lemma probe_inj s a b : s < M → a < M → b < M → probe s a = probe s b → a = b.
Proof.
  unfold probe. intros Hs Ha Hb.
  destruct (mod_cases (s + a)) as [[? ->]|[? ->]]; [lia| |];
    destruct (mod_cases (s + b)) as [[? ->]|[? ->]]; lia.
Qed.

Lemma disp_lt i s : disp i s < M.
Proof. unfold disp. apply Nat.mod_upper_bound. lia. Qed.

Lemma probe_disp i s : i < M → s < M → probe s (disp i s) = i.
Proof.
  intros Hi Hs. unfold probe, disp.
  rewrite Nat.Div0.add_mod_idemp_r.
  replace (s + (i + M - s)) with (i + 1 * M) by lia.
  rewrite Nat.Div0.mod_add. by apply Nat.mod_small.
Qed.

Lemma disp_probe s k : s < M → k < M → disp (probe s k) s = k.
Proof.
  intros Hs Hk. apply (probe_inj s); [done|apply disp_lt|done|].
  apply probe_disp; [apply probe_lt|done].
Qed.

Lemma probe_ne_start s k : s < M → 0 < k → k < M → probe s k ≠ s.
Proof.
  intros Hs Hk HkM Heq. rewrite <- (probe_0 s) in Heq at 2 by done.
  apply probe_inj in Heq; lia.
Qed.

(** ** Well-formed tables *)

Definition in_tbl (om : gmap nat nat) (o : nat) : Prop := ∃ i, om !! i = Some o.

Definition tbl_dom (st : gmap nat Order.t) (om : gmap nat nat) : Prop :=
  ∀ i o, om !! i = Some o → i < M ∧ is_Some (key st o).

Definition tbl_inj (st : gmap nat Order.t) (om : gmap nat nat) : Prop :=
  ∀ i j o o' k, om !! i = Some o → om !! j = Some o' →
    key st o = Some k → key st o' = Some k → i = j.

(** No vacancy between the natural slot of an entry and the entry. *)
Definition tbl_path (st : gmap nat Order.t) (om : gmap nat nat) : Prop :=
  ∀ i o k n, om !! i = Some o → key st o = Some k →
    n < disp i (slot k) → is_Some (om !! probe (slot k) n).

Record tbl_ok (st : gmap nat Order.t) (om : gmap nat nat) : Prop := {
  tbl_ok_dom : tbl_dom st om;
  tbl_ok_inj : tbl_inj st om;
  tbl_ok_path : tbl_path st om
}.

Lemma tbl_ok_empty st : tbl_ok st ∅.
Proof. split; intros ?; intros; simplify_map_eq. Qed.

(** The table only reads the ids of the orders it points to. *)
Lemma tbl_ok_ext st st' om :
  (∀ i o, om !! i = Some o → key st' o = key st o) →
  tbl_ok st om → tbl_ok st' om.
Proof.
  intros Hk [Hd Hi Hp]. split.
  - intros i o Ho. destruct (Hd i o Ho) as [? ?]. split; [done|].
    by rewrite (Hk i o Ho).
  - intros i j o o' k Ho Ho' Hko Hko'.
    rewrite (Hk i o Ho) in Hko. rewrite (Hk j o' Ho') in Hko'. eauto.
  - intros i o k n Ho Hko Hn. rewrite (Hk i o Ho) in Hko. eauto.
Qed.

Lemma tbl_ptr_inj st om i j o :
  tbl_ok st om → om !! i = Some o → om !! j = Some o → i = j.
Proof.
  intros [Hd Hi _] Ho Ho'. destruct (Hd i o Ho) as [_ [k Hk]]. eauto.
Qed.

(** ** lookup *)

Lemma lookup_loop_sound fuel st om id start idx o :
  lookup_loop fuel st om id start idx = Some (Some o) →
  in_tbl om o ∧ key st o = Some id.
Proof.
  revert idx. induction fuel as [|fuel IH]; intros idx; simpl; [done|].
  case_decide; [|done].
  destruct (om !! idx) as [e|] eqn:He; [|done].
  destruct (key st e) as [eid|] eqn:Hk; simpl; [|done].
  case_decide.
  - intros [= <-]. subst. split; [by exists idx|done].
  - apply IH.
Qed.

Lemma lookup_map_sound st om id o :
  lookup_map st om id = Some (Some o) → in_tbl om o ∧ key st o = Some id.
Proof.
  unfold lookup_map.
  destruct (om !! slot id) as [e|] eqn:He.
  - destruct (key st e) as [eid|] eqn:Hk; simpl; [|done].
    case_decide.
    + intros [= <-]. subst. split; [by eexists|done].
    + apply lookup_loop_sound.
  - apply lookup_loop_sound.
Qed.

Lemma lookup_loop_miss st om id s :
  s < M → tbl_dom st om →
  (∀ i o, om !! i = Some o → key st o ≠ Some id) →
  ∀ fuel k, 1 ≤ k → k ≤ M → M < fuel + k →
    lookup_loop fuel st om id s (probe s k) = Some None.
Proof.
  intros Hs Hd Hne. induction fuel as [|fuel IH]; intros k Hk1 HkM Hf; [lia|].
  simpl. case_decide as Hstart; [|done].
  destruct (om !! probe s k) as [e|] eqn:He; [|done].
  destruct (Hd _ _ He) as [_ [eid Hk]]. rewrite Hk. simpl.
  case_decide as Heq; [subst; by destruct (Hne _ _ He)|].
  rewrite step_probe. apply IH; [lia| |lia].
  destruct (decide (k = M)) as [->|]; [|lia].
  by rewrite probe_M in Hstart.
Qed.

Lemma lookup_map_miss st om id :
  M ≤ gas → tbl_dom st om →
  (∀ i o, om !! i = Some o → key st o ≠ Some id) →
  lookup_map st om id = Some None.
Proof.
  intros Hgas Hd Hne. unfold lookup_map.
  assert (lookup_loop gas st om id (slot id) (step_idx (slot id)) = Some None) as Hloop.
  { rewrite <- (probe_0 (slot id)) at 2 by apply slot_lt.
    rewrite step_probe. apply lookup_loop_miss; auto using slot_lt; lia. }
  destruct (om !! slot id) as [e|] eqn:He; [|done].
  destruct (Hd _ _ He) as [_ [eid Hk]]. rewrite Hk. simpl.
  case_decide; [subst; by destruct (Hne _ _ He)|done].
Qed.

(** On a well-formed table the cells before an entry on its probe
    sequence hold entries with other ids. *)
Lemma tbl_path_other st om i o k n :
  tbl_ok st om → om !! i = Some o → key st o = Some k →
  n < disp i (slot k) →
  ∃ e eid, om !! probe (slot k) n = Some e ∧ key st e = Some eid ∧ eid ≠ k.
Proof.
  intros [Hd Hi Hp] Ho Hk Hn.
  destruct (Hp i o k n Ho Hk Hn) as [e He].
  destruct (Hd _ _ He) as [_ [eid Heid]].
  exists e, eid. split_and!; [done..|]. intros ->.
  assert (probe (slot k) n = i) as Heq by eauto.
  destruct (Hd _ _ Ho) as [HiM _].
  rewrite <- (probe_disp i (slot k)) in Heq by auto using slot_lt.
  apply probe_inj in Heq; auto using slot_lt, disp_lt. lia.
  pose proof (disp_lt i (slot k)). lia.
Qed.

Lemma lookup_loop_hit st om i o k :
  tbl_ok st om → om !! i = Some o → key st o = Some k →
  ∀ fuel n, 1 ≤ n → n ≤ disp i (slot k) → disp i (slot k) < fuel + n →
    lookup_loop fuel st om k (slot k) (probe (slot k) n) = Some (Some o).
Proof.
  intros Hok Ho Hk. pose proof (tbl_ok_dom _ _ Hok _ _ Ho) as [HiM _].
  pose proof (disp_lt i (slot k)) as Hd.
  induction fuel as [|fuel IH]; intros n Hn1 Hnd Hf; [lia|].
  simpl. case_decide as Hstart.
  2:{ exfalso. revert Hstart. apply probe_ne_start; auto using slot_lt; lia. }
  destruct (decide (n = disp i (slot k))) as [->|Hne].
  - rewrite probe_disp by auto using slot_lt. rewrite Ho, Hk. simpl.
    by rewrite decide_True.
  - destruct (tbl_path_other st om i o k n) as (e & eid & -> & -> & Hneq);
      [done..|lia|].
    simpl. rewrite decide_False by done.
    rewrite step_probe. apply IH; lia.
Qed.

Lemma lookup_map_hit st om i o k :
  M ≤ gas → tbl_ok st om → om !! i = Some o → key st o = Some k →
  lookup_map st om k = Some (Some o).
Proof.
  intros Hgas Hok Ho Hk. unfold lookup_map.
  pose proof (tbl_ok_dom _ _ Hok _ _ Ho) as [HiM _].
  pose proof (disp_lt i (slot k)) as Hd.
  destruct (decide (disp i (slot k) = 0)) as [Hz|Hnz].
  - assert (i = slot k) as ->.
    { rewrite <- (probe_disp i (slot k)) at 1 by auto using slot_lt.
      rewrite Hz. apply probe_0, slot_lt. }
    rewrite Ho, Hk. simpl. by rewrite decide_True.
  - assert (lookup_loop gas st om k (slot k) (step_idx (slot k)) = Some (Some o)) as Hloop.
    { rewrite <- (probe_0 (slot k)) at 2 by apply slot_lt.
      rewrite step_probe. eapply lookup_loop_hit; eauto; lia. }
    destruct (tbl_path_other st om i o k 0) as (e & eid & He & Heid & Hneq);
      [done..|lia|].
    rewrite probe_0 in He by apply slot_lt. rewrite He, Heid. simpl.
    by rewrite decide_False.
Qed.

(** ** insert_map *)

Lemma insert_loop_spec st o oid om s :
  s < M → tbl_dom st om →
  (∀ i e, om !! i = Some e → key st e ≠ Some oid) →
  ∀ n0, n0 < M → om !! probe s n0 = None →
  ∀ fuel k, k ≤ n0 → n0 < fuel + k →
    (∀ n', n' < k → is_Some (om !! probe s n')) →
    ∃ n, n ≤ n0 ∧ om !! probe s n = None ∧
         (∀ n', n' < n → is_Some (om !! probe s n')) ∧
         insert_loop fuel st o oid s (probe s k) om
           = Some (true, <[probe s n := o]> om).
Proof.
  intros Hs Hd Hne n0 Hn0 Hnull.
  induction fuel as [|fuel IH]; intros k Hk Hf Hpre; [lia|].
  simpl. destruct (om !! probe s k) as [e|] eqn:He.
  - destruct (Hd _ _ He) as [_ [eid Heid]]. rewrite Heid. simpl.
    rewrite decide_False by (intros ->; by destruct (Hne _ _ He)).
    assert (k ≠ n0) by (intros ->; congruence).
    rewrite step_probe.
    rewrite decide_False by (apply probe_ne_start; lia).
    apply IH; [lia..|].
    intros n' Hn'. destruct (decide (n' = k)) as [->|]; [by rewrite He|].
    apply Hpre. lia.
  - exists k. by split_and!.
Qed.

Lemma insert_map_spec st o oid om :
  M ≤ gas → tbl_dom st om → key st o = Some oid →
  (∀ i e, om !! i = Some e → key st e ≠ Some oid) →
  ∀ n0, n0 < M → om !! probe (slot oid) n0 = None →
  ∃ n, n ≤ n0 ∧ om !! probe (slot oid) n = None ∧
       (∀ n', n' < n → is_Some (om !! probe (slot oid) n')) ∧
       insert_map st o om = Some (true, <[probe (slot oid) n := o]> om).
Proof.
  intros Hgas Hd Hk Hne n0 Hn0 Hnull. unfold insert_map. rewrite Hk. simpl.
  destruct (insert_loop_spec st o oid om (slot oid) (slot_lt oid) Hd Hne
              n0 Hn0 Hnull gas 0) as (n & ? & ? & ? & Hins); [lia|lia|lia|].
  rewrite probe_0 in Hins by apply slot_lt. by exists n.
Qed.

Lemma size_delete_S {A} (m : gmap nat A) i x :
  m !! i = Some x → size m = S (size (delete i m)).
Proof.
  intros Hi. rewrite <- (insert_delete_id m i x) at 1 by done.
  apply map_size_insert_None, lookup_delete_eq.
Qed.

(** Inserting a fresh order into a well-formed table that has a vacancy. *)
Lemma insert_map_ok st om o oid :
  M ≤ gas → tbl_ok st om → key st o = Some oid →
  (∀ i e, om !! i = Some e → key st e ≠ Some oid) →
  (∃ z, z < M ∧ om !! z = None) →
  ∃ v, om !! v = None ∧ insert_map st o om = Some (true, <[v := o]> om) ∧
       tbl_ok st (<[v := o]> om).
Proof.
  intros Hgas Hok Hk Hne (z & Hz & Hnull).
  destruct (insert_map_spec st o oid om Hgas (tbl_ok_dom _ _ Hok) Hk Hne
              (disp z (slot oid))) as (n & Hn & Hv & Hpre & Hins).
  { apply disp_lt. }
  { by rewrite probe_disp by auto using slot_lt. }
  pose proof (disp_lt z (slot oid)) as Hdz.
  exists (probe (slot oid) n). split_and!; [done..|].
  destruct Hok as [Hd Hi Hp]. split.
  - intros i e. rewrite lookup_insert. case_decide.
    + intros [= <-]. subst i. split; [apply probe_lt|by rewrite Hk].
    + apply Hd.
  - intros i j e e' k. rewrite !lookup_insert.
    repeat case_decide; intros He He' Hke Hke'; simplify_eq; eauto.
    + by destruct (Hne _ _ He').
    + by destruct (Hne _ _ He).
  - intros i e k m. rewrite lookup_insert. case_decide.
    + intros [= <-] Hke Hm. subst i. assert (k = oid) as -> by congruence.
      rewrite disp_probe in Hm by (auto using slot_lt; lia).
      apply lookup_insert_is_Some'. right. by apply Hpre.
    + intros He Hke Hm. apply lookup_insert_is_Some'. right. eauto.
Qed.

(** ** remove_map *)

Definition run_from (om : gmap nat nat) (next p : nat) : Prop :=
  ∃ j, j < M ∧ p = probe next j ∧ ∀ i, i ≤ j → is_Some (om !! probe next i).

(** While the chain after a removal is being re-inserted, an entry that
    has a vacancy before it on its probe sequence lies in the run of
    occupied cells that starts at [next]. *)
Definition path_inv (st : gmap nat Order.t) (om : gmap nat nat) (next : nat) : Prop :=
  ∀ i o k n, om !! i = Some o → key st o = Some k →
    n < disp i (slot k) → om !! probe (slot k) n = None → run_from om next i.

Record rehash_inv (st : gmap nat Order.t) (om : gmap nat nat) (next : nat) : Prop := {
  ri_dom : tbl_dom st om;
  ri_inj : tbl_inj st om;
  ri_path : path_inv st om next
}.

Lemma rehash_inv_done st om next :
  next < M → rehash_inv st om next → om !! next = None → tbl_ok st om.
Proof.
  intros Hnext [Hd Hi Hp] Hnull. split; [done..|].
  intros i o k n Ho Hk Hn.
  destruct (om !! probe (slot k) n) eqn:Hq; [done|].
  destruct (Hp i o k n Ho Hk Hn Hq) as (j & _ & _ & Hrun).
  specialize (Hrun 0). rewrite probe_0, Hnull in Hrun by done.
  destruct Hrun as [? ?]; [lia|done].
Qed.

(** The total displacement of the entries from their natural slots; it
    bounds the work of the re-insertion loop. *)
Definition disp_at (st : gmap nat Order.t) (om : gmap nat nat) (i : nat) : nat :=
  match om !! i with
  | Some o => match key st o with Some k => disp i (slot k) | None => 0 end
  | None => 0
  end.

Fixpoint sumf (f : nat → nat) (n : nat) : nat :=
  match n with
  | O => 0
  | S n' => sumf f n' + f n'
  end.

Definition total_disp (st : gmap nat Order.t) (om : gmap nat nat) : nat :=
  sumf (disp_at st om) M.

Lemma sumf_ext f g n : (∀ i, i < n → f i = g i) → sumf f n = sumf g n.
Proof.
  induction n as [|n IH]; intros Hfg; simpl; [done|].
  rewrite IH by (intros; apply Hfg; lia). by rewrite (Hfg n) by lia.
Qed.

Lemma sumf_change f g a n :
  a < n → (∀ i, i < n → i ≠ a → f i = g i) →
  sumf f n + g a = sumf g n + f a.
Proof.
  induction n as [|n IH]; intros Ha Hfg; simpl; [lia|].
  destruct (decide (a = n)) as [->|Hne].
  - rewrite (sumf_ext f g n) by (intros; apply Hfg; lia). lia.
  - rewrite (Hfg n) by lia.
    assert (sumf f n + g a = sumf g n + f a) by (apply IH; [lia|intros; apply Hfg; lia]).
    lia.
Qed.

Lemma sumf_bound f c n : (∀ i, i < n → f i ≤ c) → sumf f n ≤ n * c.
Proof.
  induction n as [|n IH]; intros Hf; simpl; [lia|].
  assert (sumf f n ≤ n * c) by (apply IH; intros; apply Hf; lia).
  assert (f n ≤ c) by (apply Hf; lia). lia.
Qed.

Lemma total_disp_bound st om : total_disp st om ≤ M * M.
Proof.
  apply sumf_bound. intros i _. unfold disp_at.
  destruct (om !! i); [|lia]. destruct (key st _); [|lia].
  pose proof (disp_lt i (slot z)). lia.
Qed.

Section Step.
Variables (st : gmap nat Order.t) (om : gmap nat nat) (next e : nat) (k : Z).
Variables (n : nat).
Hypothesis Hnext : next < M.
Hypothesis Hinv : rehash_inv st om next.
Hypothesis He : om !! next = Some e.
Hypothesis Hk : key st e = Some k.
Hypothesis Hn : n ≤ disp next (slot k).
Hypothesis Hv0 : delete next om !! probe (slot k) n = None.
Hypothesis Hpre : ∀ n', n' < n → is_Some (delete next om !! probe (slot k) n').

Local Abbreviation v := (probe (slot k) n).
Local Abbreviation om' := (<[probe (slot k) n := e]> (delete next om)).

Lemma step_keep p x : om !! p = Some x → p ≠ next → om' !! p = Some x.
Proof.
  intros Hp Hne. rewrite lookup_insert. case_decide as Heq.
  - subst p. rewrite lookup_delete_ne in Hv0 by done. congruence.
  - by rewrite lookup_delete_ne.
Qed.

Lemma step_keep_is_Some p : is_Some (om !! p) → p ≠ next → is_Some (om' !! p).
Proof. intros [x Hx] Hne. exists x. by apply step_keep. Qed.

Lemma step_inv p x :
  om' !! p = Some x → (p = v ∧ x = e) ∨ (p ≠ v ∧ p ≠ next ∧ om !! p = Some x).
Proof.
  rewrite lookup_insert. case_decide as Heq.
  - intros [= <-]. by left.
  - rewrite lookup_delete_Some. intros [? ?]. right. by split_and!.
Qed.

Lemma step_null q : om' !! q = None → q ≠ v ∧ (q = next ∨ om !! q = None).
Proof.
  rewrite lookup_insert_None, lookup_delete_None. intros [[?|?] ?]; split; auto.
Qed.

Lemma step_in_tbl x : in_tbl om' x ↔ in_tbl om x.
Proof.
  split.
  - intros [p Hp]. destruct (step_inv p x Hp) as [[_ ->]|(_ & _ & ?)]; by eexists.
  - intros [p Hp]. destruct (decide (p = next)) as [->|Hne].
    + assert (x = e) as -> by congruence. exists v. apply lookup_insert_eq.
    + exists p. by apply step_keep.
Qed.

Lemma step_size : size om' = size om.
Proof.
  rewrite map_size_insert_None by done. symmetry. by eapply size_delete_S.
Qed.

Lemma step_dom : tbl_dom st om'.
Proof.
  intros p x Hp. destruct (step_inv p x Hp) as [[-> ->]|(_ & _ & Hx)].
  - split; [apply probe_lt|by rewrite Hk].
  - by apply (ri_dom _ _ _ Hinv).
Qed.

Lemma step_inj : tbl_inj st om'.
Proof.
  intros p q x y k' Hp Hq Hx Hy.
  destruct (step_inv p x Hp) as [[-> ->]|(_ & Hpn & Hx')];
    destruct (step_inv q y Hq) as [[-> ->]|(_ & Hqn & Hy')]; [done|..].
  - assert (k' = k) as -> by congruence.
    destruct Hqn. eapply (ri_inj _ _ _ Hinv); eauto.
  - assert (k' = k) as -> by congruence.
    destruct Hpn. eapply (ri_inj _ _ _ Hinv); eauto.
  - eapply (ri_inj _ _ _ Hinv); eauto.
Qed.

Lemma step_path : path_inv st om' (step_idx next).
Proof.
  intros i o k' n1 Hi Hk' Hn1 Hnull.
  pose proof (disp_lt next (slot k)) as Hdn.
  destruct (step_inv i o Hi) as [[-> ->]|(Hiv & Hin & Hio)].
  { assert (k' = k) as -> by congruence.
    rewrite disp_probe in Hn1 by (auto using slot_lt; lia).
    destruct (Hpre n1 Hn1) as [y Hy].
    rewrite lookup_insert in Hnull. case_decide; congruence. }
  destruct (ri_dom _ _ _ Hinv _ _ Hio) as [HiM _].
  pose proof (disp_lt i (slot k')) as Hdi.
  assert (∃ j, 1 ≤ j ∧ j < M ∧ i = probe next j ∧
               ∀ t, 1 ≤ t → t ≤ j → is_Some (om !! probe next t)) as
    (j & Hj1 & HjM & Hij & Hrun).
  { destruct (step_null _ Hnull) as [Hqv [Hq|Hq]].
    - exists (disp i (slot k') - n1).
      assert (i = probe next (disp i (slot k') - n1)) as Hieq.
      { rewrite <- Hq, probe_probe.
        replace (n1 + (disp i (slot k') - n1)) with (disp i (slot k')) by lia.
        symmetry. apply probe_disp; auto using slot_lt. }
      split_and!; [lia|lia|done|].
      intros t Ht1 Ht.
      destruct (decide (t = disp i (slot k') - n1)) as [->|Htne].
      { rewrite <- Hieq. by rewrite Hio. }
      rewrite <- Hq, probe_probe.
      destruct (om !! probe (slot k') (n1 + t)) eqn:Hm; [done|].
      destruct (ri_path _ _ _ Hinv i o k' (n1 + t) Hio Hk') as (j2 & Hj2 & Hij2 & Hrun2);
        [lia|done|].
      assert (j2 = disp i (slot k') - n1) as ->.
      { apply (probe_inj next); [done|done|lia|congruence]. }
      specialize (Hrun2 t). rewrite <- Hq, probe_probe, Hm in Hrun2.
      destruct Hrun2 as [? ?]; [lia|done].
    - destruct (ri_path _ _ _ Hinv i o k' n1 Hio Hk' Hn1 Hq) as (j & HjM & Hij & Hrun).
      exists j. split_and!; [|done|done|].
      + destruct j; [|lia]. rewrite probe_0 in Hij by done. done.
      + intros t _ Ht. by apply Hrun. }
  exists (j - 1). split_and!; [lia| |].
  - rewrite step_idx_probe, probe_probe. by replace (1 + (j - 1)) with j by lia.
  - intros t Ht. rewrite step_idx_probe, probe_probe.
    apply step_keep_is_Some; [apply Hrun; lia|].
    apply probe_ne_start; [done|lia|lia].
Qed.

Lemma step_rehash_inv : rehash_inv st om' (step_idx next).
Proof. split; [apply step_dom|apply step_inj|apply step_path]. Qed.
Lemma step_same : n = disp next (slot k) → om' = om.
Proof.
  intros ->. rewrite probe_disp by auto using slot_lt.
  by apply insert_delete_id.
Qed.

Lemma step_moved :
  n < disp next (slot k) →
  v ≠ next ∧ total_disp st om' + disp next (slot k) = total_disp st om + n.
Proof.
  intros Hlt. pose proof (disp_lt next (slot k)) as Hdn.
  assert (v ≠ next) as Hvn.
  { intros Heq. rewrite <- (probe_disp next (slot k)) in Heq at 1 by auto using slot_lt.
    apply probe_inj in Heq; auto using slot_lt; lia. }
  split; [done|]. unfold total_disp.
  assert (sumf (disp_at st om) M + disp_at st (delete next om) next
          = sumf (disp_at st (delete next om)) M + disp_at st om next) as H1.
  { apply sumf_change; [done|]. intros i _ Hi. unfold disp_at.
    by rewrite lookup_delete_ne. }
  assert (sumf (disp_at st (delete next om)) M + disp_at st om' v
          = sumf (disp_at st om') M + disp_at st (delete next om) v) as H2.
  { apply sumf_change; [apply probe_lt|]. intros i _ Hi. unfold disp_at.
    by rewrite lookup_insert_ne. }
  unfold disp_at in H1 at 2 4. rewrite lookup_delete_eq, He, Hk in H1.
  unfold disp_at in H2 at 2 4. rewrite lookup_insert_eq, Hk, Hv0 in H2.
  rewrite disp_probe in H2 by (auto using slot_lt; lia). lia.
Qed.
End Step.

Lemma rehash_loop_ok st :
  M ≤ gas →
  ∀ fuel om next z, next < M → z < M → om !! probe next z = None →
    rehash_inv st om next → total_disp st om * M + z < fuel →
    ∃ om', rehash_loop fuel st next om = Some om' ∧ tbl_ok st om' ∧
           (∀ x, in_tbl om' x ↔ in_tbl om x) ∧ size om' = size om.
Proof.
  intros Hgas.
  induction fuel as [|fuel IH]; intros om next z Hnext Hz Hnull Hinv Hf; [lia|].
  simpl. destruct (om !! next) as [e|] eqn:He.
  2:{ exists om. split_and!; eauto using rehash_inv_done. }
  destruct (ri_dom _ _ _ Hinv _ _ He) as [_ [k Hk]].
  pose proof (disp_lt next (slot k)) as Hdn.
  destruct (insert_map_spec st e k (delete next om) Hgas) with (n0 := disp next (slot k))
    as (n & Hn & Hv0 & Hpre & Hins).
  { intros i x [_ Hx]%lookup_delete_Some. by apply (ri_dom _ _ _ Hinv). }
  { done. }
  { intros i x [Hi Hx]%lookup_delete_Some Hkx.
    apply Hi. symmetry. eapply (ri_inj _ _ _ Hinv); eauto. }
  { done. }
  { rewrite probe_disp by auto using slot_lt. apply lookup_delete_eq. }
  rewrite Hins. simpl.
  assert (z ≠ 0) as Hz0.
  { intros ->. rewrite probe_0 in Hnull by done. congruence. }
  pose proof (step_rehash_inv st om next e k n Hnext Hinv He Hk Hn Hv0 Hpre) as Hinv'.
  pose proof (step_in_tbl om next e k n He Hv0) as Htbl.
  pose proof (step_size om next e k n He Hv0) as Hsz.
  assert (step_idx next < M) as Hnext' by (rewrite step_idx_probe; apply probe_lt).
  destruct (decide (n = disp next (slot k))) as [Heq|Hne].
  - pose proof (step_same om next e k n Hnext He Hn Hv0 Hpre Heq) as Hsame.
    rewrite Hsame in *.
    destruct (IH om (step_idx next) (z - 1)) as (om2 & Hrun & Hok & Hin & Hs);
      [done|lia| |done|lia|].
    { rewrite step_idx_probe, probe_probe. by replace (1 + (z - 1)) with z by lia. }
    exists om2. by split_and!.
  - destruct (step_moved st om next e k n Hnext He Hk Hn Hv0) as [Hvn Hpot]; [lia|].
    destruct (IH (<[probe (slot k) n := e]> (delete next om)) (step_idx next) (M - 1))
      as (om2 & Hrun & Hok & Hin & Hs); [done|lia| |done| |].
    { rewrite step_idx_probe, probe_probe.
      replace (1 + (M - 1)) with M by lia. rewrite probe_M by done.
      rewrite lookup_insert_ne by done. apply lookup_delete_eq. }
    { nia. }
    exists om2. split_and!; [done|done| |lia].
    intros x. by rewrite Hin.
Qed.

Lemma remove_loop_find st om i o k :
  tbl_ok st om → om !! i = Some o → key st o = Some k →
  ∀ fuel n, n ≤ disp i (slot k) → disp i (slot k) < fuel + n →
    remove_loop fuel st k (probe (slot k) n) om
      = rehash_loop gas st (step_idx i) (delete i om).
Proof.
  intros Hok Ho Hk. pose proof (tbl_ok_dom _ _ Hok _ _ Ho) as [HiM _].
  induction fuel as [|fuel IH]; intros n Hn Hf; [lia|].
  simpl. destruct (decide (n = disp i (slot k))) as [->|Hne].
  - rewrite probe_disp by auto using slot_lt. rewrite Ho, Hk. simpl.
    by rewrite decide_True.
  - destruct (tbl_path_other st om i o k n) as (e & eid & -> & -> & Hneq);
      [done..|lia|].
    simpl. rewrite decide_False by done.
    rewrite step_probe. apply IH; lia.
Qed.

Lemma remove_inv_init st om i o k :
  tbl_ok st om → om !! i = Some o → key st o = Some k →
  rehash_inv st (delete i om) (step_idx i).
Proof.
  intros [Hd Hi Hp] Ho Hk. destruct (Hd _ _ Ho) as [HiM _]. split.
  - intros j x [_ Hx]%lookup_delete_Some. by apply Hd.
  - intros j j' x x' k' [_ Hx]%lookup_delete_Some [_ Hx']%lookup_delete_Some. eauto.
  - intros j x k' n [Hji Hx]%lookup_delete_Some Hk' Hn Hnull.
    destruct (Hd _ _ Hx) as [HjM _].
    pose proof (disp_lt j (slot k')) as Hdj.
    apply lookup_delete_None in Hnull as [Hq|Hq].
    2:{ destruct (Hp j x k' n Hx Hk' Hn) as [? ?]. congruence. }
    symmetry in Hq.
    assert (j = probe i (disp j (slot k') - n)) as Hjeq.
    { rewrite <- Hq, probe_probe.
      replace (n + (disp j (slot k') - n)) with (disp j (slot k')) by lia.
      symmetry. apply probe_disp; auto using slot_lt. }
    exists (disp j (slot k') - n - 1). split_and!; [lia| |].
    + rewrite step_idx_probe, probe_probe.
      by replace (1 + (disp j (slot k') - n - 1)) with (disp j (slot k') - n) by lia.
    + intros t Ht. rewrite step_idx_probe, probe_probe.
      rewrite lookup_delete_ne by (symmetry; apply probe_ne_start; lia).
      destruct (decide (1 + t = disp j (slot k') - n)) as [Heq|Hne].
      * rewrite Heq, <- Hjeq. by rewrite Hx.
      * rewrite <- Hq, probe_probe. eapply Hp; eauto. lia.
Qed.

Lemma remove_map_ok st om i o k :
  M * M * M + M ≤ gas →
  tbl_ok st om → om !! i = Some o → key st o = Some k →
  ∃ om', remove_map st k om = Some om' ∧ tbl_ok st om' ∧
         (∀ x, in_tbl om' x ↔ in_tbl om x ∧ x ≠ o) ∧
         size om = S (size om').
Proof.
  intros Hgas Hok Ho Hk. unfold remove_map.
  pose proof (tbl_ok_dom _ _ Hok _ _ Ho) as [HiM _].
  pose proof (disp_lt i (slot k)) as Hdi.
  pose proof (remove_loop_find st om i o k Hok Ho Hk gas 0) as Hfind.
  rewrite probe_0 in Hfind by apply slot_lt.
  rewrite Hfind by lia. clear Hfind.
  pose proof (total_disp_bound st (delete i om)) as Hb.
  destruct (rehash_loop_ok st) with (fuel := gas) (om := delete i om)
    (next := step_idx i) (z := M - 1) as (om' & Hrun & Hok' & Hin & Hsz).
  { lia. }
  { rewrite step_idx_probe. apply probe_lt. }
  { lia. }
  { rewrite step_idx_probe, probe_probe. replace (1 + (M - 1)) with M by lia.
    rewrite probe_M by done. apply lookup_delete_eq. }
  { by eapply remove_inv_init. }
  { nia. }
  exists om'. split_and!; [done|done| |].
  - intros x. rewrite Hin. split.
    + intros [j [Hj Hx]%lookup_delete_Some]. split; [by exists j|].
      intros ->. apply Hj. by apply (tbl_ptr_inj st om i j o).
    + intros [[j Hx] Hne]. exists j. apply lookup_delete_Some. split; [|done].
      intros ->. congruence.
  - rewrite Hsz. by eapply size_delete_S.
Qed.

(** A table with fewer than [MaxOrders] entries has a vacancy. *)
Lemma tbl_vacancy (om : gmap nat nat) :
  size om < M → ∃ z, z < M ∧ om !! z = None.
Proof.
  intros Hsz.
  destruct (decide (Exists (λ z, om !! z = None) (seq 0 M))) as [Hex|Hno].
  { apply Exists_exists in Hex as (z & Hz & Hn).
    exists z. split; [|done]. apply elem_of_seq in Hz. lia. }
  exfalso.
  assert (set_seq 0 M ⊆ dom om) as Hsub.
  { intros z Hz%elem_of_set_seq. apply elem_of_dom.
    destruct (om !! z) eqn:Hq; [done|]. destruct Hno.
    apply Exists_exists. exists z. split; [apply elem_of_seq; lia|done]. }
  apply subseteq_size in Hsub. rewrite size_set_seq, size_dom in Hsub. lia.
Qed.

(** ** Edge behaviour of insertion and removal *)

(** Every cell of the table is occupied. *)
Definition tbl_full (om : gmap nat nat) : Prop := ∀ z, z < M → is_Some (om !! z).

Lemma insert_loop_dup st o om i e oid :
  tbl_ok st om → om !! i = Some e → key st e = Some oid →
  ∀ fuel n, n ≤ disp i (slot oid) → disp i (slot oid) < fuel + n →
    insert_loop fuel st o oid (slot oid) (probe (slot oid) n) om = Some (false, om).
Proof.
  intros Hok He Hk. pose proof (tbl_ok_dom _ _ Hok _ _ He) as [HiM _].
  pose proof (disp_lt i (slot oid)) as Hd.
  induction fuel as [|fuel IH]; intros n Hn Hf; [lia|].
  simpl. destruct (decide (n = disp i (slot oid))) as [->|Hne].
  - rewrite probe_disp by auto using slot_lt. rewrite He, Hk. simpl.
    by rewrite decide_True.
  - destruct (tbl_path_other st om i e oid n) as (e' & eid & -> & -> & Hneq);
      [done..|lia|].
    simpl. rewrite decide_False by done. rewrite step_probe.
    rewrite decide_False by (apply probe_ne_start; [apply slot_lt|lia|lia]).
    apply IH; lia.
Qed.

Lemma insert_loop_full st o om oid s :
  s < M → tbl_dom st om → tbl_full om →
  (∀ i e, om !! i = Some e → key st e ≠ Some oid) →
  ∀ fuel k, k < M → M ≤ fuel + k →
    insert_loop fuel st o oid s (probe s k) om = Some (false, om).
Proof.
  intros Hs Hd Hfull Hne. induction fuel as [|fuel IH]; intros k Hk Hf; [lia|].
  simpl. destruct (Hfull (probe s k) (probe_lt s k)) as [e He]. rewrite He.
  destruct (Hd _ _ He) as [_ [eid Heid]]. rewrite Heid. simpl.
  rewrite decide_False by (intros ->; by destruct (Hne _ _ He)).
  rewrite step_probe. destruct (decide (S k = M)) as [HM'|HM'].
  - rewrite HM', probe_M by done. by rewrite decide_True.
  - rewrite decide_False by (apply probe_ne_start; lia). apply IH; lia.
Qed.

Lemma remove_loop_absent st om id s :
  tbl_dom st om → (∀ i e, om !! i = Some e → key st e ≠ Some id) →
  ∀ n0, om !! probe s n0 = None →
  ∀ fuel k, k ≤ n0 → n0 < fuel + k →
    remove_loop fuel st id (probe s k) om = Some om.
Proof.
  intros Hd Hne n0 Hnull. induction fuel as [|fuel IH]; intros k Hk Hf; [lia|].
  simpl. destruct (om !! probe s k) as [e|] eqn:He; [|done].
  destruct (Hd _ _ He) as [_ [eid Heid]]. rewrite Heid. simpl.
  rewrite decide_False by (intros ->; by destruct (Hne _ _ He)).
  rewrite step_probe. apply IH; [|lia].
  destruct (decide (k = n0)) as [->|]; [congruence|lia].
Qed.

Lemma remove_loop_spins st om id :
  tbl_dom st om → tbl_full om → (∀ i e, om !! i = Some e → key st e ≠ Some id) →
  ∀ fuel idx, idx < M → remove_loop fuel st id idx om = None.
Proof.
  intros Hd Hfull Hne. induction fuel as [|fuel IH]; intros idx Hidx; [done|].
  simpl. destruct (Hfull idx Hidx) as [e He]. rewrite He.
  destruct (Hd _ _ He) as [_ [eid Heid]]. rewrite Heid. simpl.
  rewrite decide_False by (intros ->; by destruct (Hne _ _ He)).
  apply IH. rewrite step_idx_probe. apply probe_lt.
Qed.

(** [insert_map] on a well-formed table. It returns [true] exactly when
    no entry has the id of the new order and some cell is vacant; it then
    fills one vacant cell, keeps the table well formed, and the new order
    and every earlier entry are found by [lookup]. It returns [false], and
    leaves the table as it was, when the id is already present or when the
    table is full. *)
Theorem insert_map_behaviour st om o oid :
  M ≤ gas → tbl_ok st om → key st o = Some oid →
  ∃ r om', insert_map st o om = Some (r, om') ∧
    (r = true ↔
       (∀ i e, om !! i = Some e → key st e ≠ Some oid) ∧
       (∃ z, z < M ∧ om !! z = None)) ∧
    (r = false → om' = om) ∧
    (r = true →
       ∃ v, v < M ∧ om !! v = None ∧ om' = <[v := o]> om ∧ tbl_ok st om' ∧
         lookup_map st om' oid = Some (Some o) ∧
         ∀ i e k, om !! i = Some e → key st e = Some k →
                  lookup_map st om' k = Some (Some e)).
Proof.
  intros Hgas Hok Hk.
  destruct (decide (map_Exists (λ _ e, key st e = Some oid) om)) as [Hdup|Hfresh].
  { destruct Hdup as (i & e & He & Hke).
    exists false, om. split_and!; [|split; [done|]|done|done].
    - unfold insert_map. rewrite Hk. simpl.
      rewrite <- (probe_0 (slot oid)) at 2 by apply slot_lt.
      apply (insert_loop_dup st o om i e oid); [done..|lia|].
      pose proof (disp_lt i (slot oid)). lia.
    - intros [Hne _]. by destruct (Hne i e He). }
  assert (∀ i e, om !! i = Some e → key st e ≠ Some oid) as Hne.
  { intros i e He Hke. apply Hfresh. by exists i, e. }
  destruct (decide (Exists (λ z, om !! z = None) (seq 0 M))) as [Hvac|Hnovac].
  - apply Exists_exists in Hvac as (z & Hz%elem_of_seq & Hnull).
    destruct (insert_map_ok st om o oid Hgas Hok Hk Hne) as (v & Hv & Hins & Hok');
      [exists z; split; [lia|done]|].
    exists true, (<[v := o]> om). split_and!; [done| |done|].
    + split; [|done]. intros _. split; [done|]. exists z. split; [lia|done].
    + intros _.
      assert (v < M) as HvM.
      { apply (tbl_ok_dom _ _ Hok' v o). apply lookup_insert_eq. }
      exists v. split_and!; try done.
      * apply (lookup_map_hit st _ v o oid); [done|done|apply lookup_insert_eq|done].
      * intros i e k He Hke.
        apply (lookup_map_hit st _ i e k); [done|done| |done].
        rewrite lookup_insert_ne; [done|]. intros ->. congruence.
  - assert (tbl_full om) as Hfull.
    { intros z Hz. destruct (om !! z) eqn:Hq; [done|]. destruct Hnovac.
      apply Exists_exists. exists z. split; [apply elem_of_seq; lia|done]. }
    exists false, om. split_and!; [|split; [done|]|done|done].
    + unfold insert_map. rewrite Hk. simpl.
      rewrite <- (probe_0 (slot oid)) at 2 by apply slot_lt.
      apply insert_loop_full; [apply slot_lt|apply Hok|done|done|lia|lia].
    + intros [_ (z & Hz & Hnull)]. destruct (Hfull z Hz) as [? ?]. congruence.
Qed.

(** [remove_map] for an id that is not in the table. With a vacant cell
    the search stops there and the table is returned as it was. On a full
    table the search never meets a vacancy and never finds the id: the
    loop does not terminate, whatever the fuel. (The book calls
    [remove_map] for resting ids only.) *)
Theorem remove_map_absent st om id :
  tbl_ok st om → (∀ i e, om !! i = Some e → key st e ≠ Some id) →
  ((∃ z, z < M ∧ om !! z = None) → M ≤ gas → remove_map st id om = Some om) ∧
  (tbl_full om →
     remove_map st id om = None ∧
     ∀ fuel, remove_loop fuel st id (slot id) om = None).
Proof.
  intros Hok Hne. split.
  - intros (z & Hz & Hnull) Hgas. unfold remove_map.
    rewrite <- (probe_0 (slot id)) at 1 by apply slot_lt.
    apply (remove_loop_absent st om id (slot id) (tbl_ok_dom _ _ Hok) Hne
             (disp z (slot id))).
    + by rewrite probe_disp by auto using slot_lt.
    + lia.
    + pose proof (disp_lt z (slot id)). lia.
  - intros Hfull. split.
    + unfold remove_map. apply remove_loop_spins; [apply Hok|done|done|apply slot_lt].
    + intros fuel. apply remove_loop_spins; [apply Hok|done|done|apply slot_lt].
Qed.
End IndexTheory.

(** * The memory pool *)

Section PoolTheory.
Variable Capacity : nat.
Hypothesis Hcap : Z.of_nat Capacity < 2 ^ 64.

Import MemPool.

(** A slot is allocated when it belongs to the pool and is not on the
    free list. *)
Definition allocated (p : MemPool.t) (o : nat) : Prop :=
  (o < Capacity)%nat ∧ o ∉ free_head_ p.

(** The free list holds distinct slots of the pool, none of which holds
    an object; objects live in slots of the pool only; and [alloc_cnt_]
    counts the slots that are not free. *)
Record pool_ok (p : MemPool.t) : Prop := {
  pool_nodup : NoDup (free_head_ p);
  pool_bound : ∀ o, o ∈ free_head_ p → (o < Capacity)%nat;
  pool_fresh : ∀ o, o ∈ free_head_ p → storage_ p !! o = None;
  pool_dom : ∀ o, is_Some (storage_ p !! o) → (o < Capacity)%nat;
  pool_cnt : alloc_cnt_ p = Z.of_nat Capacity - Z.of_nat (length (free_head_ p))
}.

(** The pools a client can build: from the constructor by [alloc],
    placement new into an allocated slot, and [dealloc] of an allocated
    slot. *)
Inductive pool_reachable : MemPool.t → Prop :=
| pool_init : pool_reachable (init Capacity)
| pool_alloc p :
    pool_reachable p → pool_reachable (snd (alloc p))
| pool_construct p o ord :
    pool_reachable p → allocated p o → pool_reachable (construct o ord p)
| pool_dealloc p o :
    pool_reachable p → allocated p o → pool_reachable (dealloc o p).

Lemma pool_ok_init : pool_ok (init Capacity).
Proof.
  split; simpl.
  - apply NoDup_seq.
  - intros o Ho%elem_of_seq. lia.
  - intros o _. apply lookup_empty.
  - intros o [x Hx]. by rewrite lookup_empty in Hx.
  - rewrite length_seq. lia.
Qed.

Lemma length_free_le p : pool_ok p → (length (free_head_ p) ≤ Capacity)%nat.
Proof.
  intros [Hnd Hb _ _ _].
  rewrite <- (size_list_to_set (C := gset nat)) by done.
  rewrite <- (size_set_seq (C := gset nat) 0 Capacity).
  apply subseteq_size. intros o Ho%elem_of_list_to_set.
  apply elem_of_set_seq. specialize (Hb o Ho). lia.
Qed.

Lemma pool_ok_alloc p : pool_ok p → pool_ok (snd (alloc p)).
Proof.
  intros Hok. pose proof (length_free_le p Hok) as Hlen.
  destruct Hok as [Hnd Hb Hf Hd Hc]. unfold alloc.
  destruct (free_head_ p) as [|o rest] eqn:Hfree; simpl; [by split; rewrite ?Hfree|].
  apply NoDup_cons in Hnd as [Hnotin Hnd]. simpl in Hlen. split; simpl.
  - done.
  - intros x Hx. apply Hb. by apply list_elem_of_further.
  - intros x Hx. apply Hf. by apply list_elem_of_further.
  - done.
  - rewrite Hc. simpl. rewrite wrap_u64_id by (unfold is_u64; lia). lia.
Qed.

Lemma pool_ok_construct p o ord : pool_ok p → allocated p o → pool_ok (construct o ord p).
Proof.
  intros [Hnd Hb Hf Hd Hc] [Ho Hnf]. split; simpl; try done.
  - intros x Hx. rewrite lookup_insert_ne; [by apply Hf|]. intros ->. done.
  - intros x. rewrite lookup_insert_is_Some. intros [->|[_ ?]]; [done|by apply Hd].
Qed.

Lemma pool_ok_dealloc p o : pool_ok p → allocated p o → pool_ok (dealloc o p).
Proof.
  intros Hok [Ho Hnf]. pose proof (length_free_le p Hok) as Hlen.
  assert (length (free_head_ p) < Capacity)%nat as Hlt.
  { destruct Hok as [Hnd Hb _ _ _].
    assert (length (o :: free_head_ p) ≤ Capacity)%nat; [|simpl in *; lia].
    rewrite <- (size_list_to_set (C := gset nat)) by (by apply NoDup_cons).
    rewrite <- (size_set_seq (C := gset nat) 0 Capacity).
    apply subseteq_size. intros x Hx%elem_of_list_to_set.
    apply elem_of_set_seq. apply elem_of_cons in Hx as [->|Hx]; [lia|].
    specialize (Hb x Hx). lia. }
  destruct Hok as [Hnd Hb Hf Hd Hc]. split; simpl.
  - by apply NoDup_cons.
  - intros x [->|Hx]%elem_of_cons; [done|by apply Hb].
  - intros x [->|Hx]%elem_of_cons; [apply lookup_delete_eq|].
    rewrite lookup_delete_ne; [by apply Hf|]. intros ->. done.
  - intros x [y Hy]. apply lookup_delete_Some in Hy as [_ Hy]. apply Hd. by eexists.
  - rewrite Hc. rewrite wrap_u64_id by (unfold is_u64; lia). lia.
Qed.

Lemma pool_reachable_ok p : pool_reachable p → pool_ok p.
Proof.
  induction 1; auto using pool_ok_init, pool_ok_alloc, pool_ok_construct, pool_ok_dealloc.
Qed.

(** [alloc] and [create] on a reachable pool. A null result means the pool
    is full ([used = capacity], nothing available) and the pool is left as
    it was. Otherwise the pool was not full, the slot handed out belongs to
    the pool, was free and holds no stale object, it is allocated
    afterwards while every other slot keeps its status, and [used] has
    grown by one; [create] does the same and constructs the object in the
    slot. *)
Theorem pool_alloc_spec p ord :
  pool_reachable p →
  used p + available Capacity p = capacity Capacity ∧
  0 ≤ used p ≤ capacity Capacity ∧
  match alloc p with
  | (None, p') =>
      p' = p ∧ full Capacity p = true ∧ available Capacity p = 0 ∧
      create ord p = (None, p)
  | (Some o, p') =>
      full Capacity p = false ∧ owns Capacity o = true ∧
      ¬ allocated p o ∧ allocated p' o ∧ storage_ p' !! o = None ∧
      (∀ x, x ≠ o → (allocated p' x ↔ allocated p x)) ∧
      storage_ p' = storage_ p ∧
      used p' = used p + 1 ∧
      create ord p = (Some o, construct o ord p') ∧
      storage_ (construct o ord p') !! o = Some ord
  end.
Proof.
  intros Hr. pose proof (pool_reachable_ok p Hr) as Hok.
  pose proof (length_free_le p Hok) as Hlen.
  destruct Hok as [Hnd Hb Hf Hd Hc].
  unfold used, available, capacity, full, owns, create, alloc, allocated.
  rewrite Hc. rewrite wrap_u64_id by (unfold is_u64; lia).
  split; [lia|]. split; [lia|].
  destruct (free_head_ p) as [|o rest] eqn:Hfree; simpl.
  - split_and!; try done; [|lia]. apply bool_decide_eq_true. lia.
  - apply NoDup_cons in Hnd as [Hnotin Hnd].
    assert (o < Capacity)%nat as Ho by (apply Hb; apply list_elem_of_here).
    split_and!; try done.
    + apply bool_decide_eq_false. lia.
    + by apply bool_decide_eq_true.
    + intros [_ Hn]. apply Hn. apply list_elem_of_here.
    + apply Hf. apply list_elem_of_here.
    + intros x Hne. rewrite not_elem_of_cons. split; [intros [? ?]|intros [? [_ ?]]]; done.
    + rewrite wrap_u64_id by (unfold is_u64; simpl in Hlen; lia). lia.
    + apply lookup_insert_eq.
Qed.

(** Slots are reused last-in first-out. [dealloc] of an allocated slot
    destroys its object and lowers [used] by one, and the next [alloc]
    hands out that very slot again; conversely [dealloc] right after
    [alloc] gives back the pool as it was. *)
Theorem pool_dealloc_alloc_round_trip p o :
  pool_reachable p → allocated p o →
  used (dealloc o p) = used p - 1 ∧
  storage_ (dealloc o p) !! o = None ∧
  ¬ allocated (dealloc o p) o ∧
  alloc (dealloc o p)
    = (Some o, mk (delete o (storage_ p)) (free_head_ p) (alloc_cnt_ p)) ∧
  (∀ o' p', alloc p = (Some o', p') → dealloc o' p' = p).
Proof.
  intros Hr [Ho Hnf]. pose proof (pool_reachable_ok p Hr) as Hok.
  pose proof (length_free_le p Hok) as Hlen.
  assert (length (free_head_ p) < Capacity)%nat as Hlt.
  { pose proof (length_free_le _ (pool_ok_dealloc p o Hok (conj Ho Hnf))) as H.
    simpl in H. lia. }
  destruct Hok as [Hnd Hb Hf Hd Hc].
  unfold used, alloc, dealloc, allocated. simpl.
  assert (wrap_u64 (alloc_cnt_ p - 1) = alloc_cnt_ p - 1) as Hw1.
  { apply wrap_u64_id. unfold is_u64. lia. }
  split_and!.
  - done.
  - apply lookup_delete_eq.
  - intros [_ Hn]. apply Hn. apply list_elem_of_here.
  - rewrite Hw1. do 2 f_equal. rewrite wrap_u64_id by (unfold is_u64; lia). lia.
  - intros o' p'. destruct (free_head_ p) as [|x rest] eqn:Hfree; [done|].
    intros [= <- <-]. simpl.
    rewrite delete_id by (apply Hf; apply list_elem_of_here).
    rewrite (wrap_u64_id (alloc_cnt_ p + 1)) by (unfold is_u64; simpl in *; lia).
    rewrite wrap_u64_id by (unfold is_u64; simpl in *; lia).
    destruct p as [st fr cnt]. simpl in *. subst fr. f_equal. lia.
Qed.

(** [n] calls of [alloc] in a row, with their results. *)
Fixpoint allocs (n : nat) (p : MemPool.t) : list (option nat) * MemPool.t :=
  match n with
  | O => ([], p)
  | S n' => let '(o, p1) := alloc p in
            let '(l, p2) := allocs n' p1 in (o :: l, p2)
  end.

Lemma allocs_seq :
  ∀ n st k cnt,
    (k + n ≤ Capacity)%nat → cnt = Z.of_nat k →
    allocs n (mk st (seq k (Capacity - k)) cnt)
      = (Some <$> seq k n, mk st (seq (k + n) (Capacity - (k + n))) (Z.of_nat (k + n))).
Proof.
  induction n as [|n IH]; intros st k cnt Hle ->; simpl.
  - by rewrite Nat.add_0_r.
  - unfold alloc. simpl.
    destruct (Capacity - k)%nat as [|m] eqn:Hm; [lia|]. simpl.
    replace m with (Capacity - S k)%nat by lia.
    rewrite (IH st (S k) (wrap_u64 (Z.of_nat k + 1))); [| lia |].
    + by replace (S k + n)%nat with (k + S n)%nat by lia.
    + rewrite wrap_u64_id by (unfold is_u64; lia). lia.
Qed.

(** A new pool hands out its slots in address order, slot 0 first, and
    then nothing: the first [Capacity] calls of [alloc] return slots
    [0, 1, ..., Capacity - 1], after which the pool is full and every
    further call returns null. *)
Theorem pool_init_allocates_in_order n :
  (n ≤ Capacity)%nat →
  empty (init Capacity) = true ∧
  fst (allocs n (init Capacity)) = Some <$> seq 0 n ∧
  used (snd (allocs n (init Capacity))) = Z.of_nat n ∧
  (n = Capacity →
     full Capacity (snd (allocs n (init Capacity))) = true ∧
     ∀ m, fst (allocs m (snd (allocs n (init Capacity)))) = replicate m None).
Proof.
  intros Hn. unfold init.
  replace (seq 0 Capacity) with (seq 0 (Capacity - 0)) by (f_equal; lia).
  rewrite (allocs_seq n ∅ 0 0) by (done || lia). simpl.
  split_and!; try done.
  intros ->. rewrite Nat.sub_diag. simpl. split; [by apply bool_decide_eq_true|].
  induction m as [|m IH]; simpl; [done|].
  destruct (allocs m _) as [l p2] eqn:Hm. simpl in *. by rewrite IH.
Qed.
End PoolTheory.

(** * Invariants of the book *)

Section ListFacts.
Context (st : gmap nat Order.t).

Definition qty_at (st : gmap nat Order.t) (o : nat) : Z :=
  match st !! o with Some ord => Order.qty ord | None => 0 end.

Fixpoint sum_qty (st : gmap nat Order.t) (l : list nat) : Z :=
  match l with
  | [] => 0
  | o :: l' => qty_at st o + sum_qty st l'
  end.

Lemma sum_qty_app l1 l2 : sum_qty st (l1 ++ l2) = sum_qty st l1 + sum_qty st l2.
Proof. induction l1 as [|o l1 IH]; simpl; lia. Qed.

Lemma sum_qty_ext st' l :
  (∀ o, o ∈ l → qty_at st' o = qty_at st o) → sum_qty st' l = sum_qty st l.
Proof.
  induction l as [|o l IH]; intros Hq; simpl; [done|].
  rewrite Hq by apply list_elem_of_here.
  rewrite IH; [done|]. intros o' Ho'. apply Hq. by apply list_elem_of_further.
Qed.

Lemma filter_ne_notin (o : nat) (l : list nat) :
  o ∉ l → filter (λ x, x ≠ o) l = l.
Proof.
  induction l as [|x l IH]; intros Hnotin; [done|].
  apply not_elem_of_cons in Hnotin as [Hne Hl].
  rewrite filter_cons_True by congruence. by rewrite IH.
Qed.

Lemma filter_ne_head (o : nat) (l : list nat) :
  NoDup (o :: l) → filter (λ x, x ≠ o) (o :: l) = l.
Proof.
  intros [Hnotin _]%NoDup_cons.
  rewrite filter_cons_False by (intros H; by apply H).
  by apply filter_ne_notin.
Qed.

Lemma length_filter_ne (o : nat) (l : list nat) :
  NoDup l → o ∈ l → S (length (filter (λ x, x ≠ o) l)) = length l.
Proof.
  induction l as [|x l IH]; intros Hnd Hin; [by apply elem_of_nil in Hin|].
  apply NoDup_cons in Hnd as [Hx Hnd].
  destruct (decide (x = o)) as [->|Hne].
  - rewrite filter_cons_False by (intros H; by apply H).
    by rewrite filter_ne_notin.
  - rewrite filter_cons_True by done. simpl. f_equal. apply IH; [done|].
    apply elem_of_cons in Hin as [->|Hin]; done.
Qed.

Lemma sum_qty_filter (o : nat) (l : list nat) :
  NoDup l → o ∈ l →
  sum_qty st l = qty_at st o + sum_qty st (filter (λ x, x ≠ o) l).
Proof.
  induction l as [|x l IH]; intros Hnd Hin; [by apply elem_of_nil in Hin|].
  apply NoDup_cons in Hnd as [Hx Hnd].
  destruct (decide (x = o)) as [->|Hne].
  - rewrite filter_cons_False by (intros H; by apply H).
    by rewrite filter_ne_notin.
  - rewrite filter_cons_True by done. simpl. rewrite IH; [lia|done|].
    apply elem_of_cons in Hin as [->|Hin]; done.
Qed.

Lemma qty_at_insert o ord o' :
  qty_at (<[o := ord]> st) o' = if decide (o = o') then Order.qty ord else qty_at st o'.
Proof. unfold qty_at. rewrite lookup_insert. by case_decide. Qed.

Lemma qty_at_delete_ne o o' : o ≠ o' → qty_at (delete o st) o' = qty_at st o'.
Proof. intros Hne. unfold qty_at. by rewrite lookup_delete_ne. Qed.
End ListFacts.

Section BookTheory.
Variable MaxPrice : Z.
Variable MaxOrders : nat.
Variable gas : nat.
Hypothesis HP : 0 ≤ MaxPrice < 2 ^ 63 - 1.
Hypothesis HM : (0 < MaxOrders)%nat.
Hypothesis HM64 : Z.of_nat MaxOrders < 2 ^ 64.
Hypothesis Hgas :
  (MaxOrders * MaxOrders * MaxOrders + MaxOrders + Z.to_nat MaxPrice + 3 ≤ gas)%nat.

Import OrderBook.

Local Abbreviation M := MaxOrders.
Local Abbreviation slot := (slot MaxOrders).
Local Abbreviation lookup_map := (lookup_map MaxOrders gas).
Local Abbreviation insert_map := (insert_map MaxOrders gas).
Local Abbreviation remove_map := (remove_map MaxOrders gas).
Local Abbreviation tbl_ok := (tbl_ok MaxOrders).
Local Abbreviation lookup := (lookup MaxOrders gas).
Local Abbreviation level_ref := (level_ref MaxPrice).
Local Abbreviation update_best_bid := (update_best_bid MaxPrice).
Local Abbreviation update_best_ask := (update_best_ask MaxPrice).
Local Abbreviation remove_from_book := (remove_from_book MaxPrice MaxOrders gas).
Local Abbreviation match_level := (match_level MaxPrice MaxOrders gas).
Local Abbreviation match_buy_loop := (match_buy_loop MaxPrice MaxOrders gas).
Local Abbreviation match_sell_loop := (match_sell_loop MaxPrice MaxOrders gas).
Local Abbreviation match_internal := (match_internal MaxPrice MaxOrders gas).
Local Abbreviation add := (add MaxPrice MaxOrders gas).
Local Abbreviation cancel := (cancel MaxPrice MaxOrders gas).
Local Abbreviation match_ := (match_ MaxPrice MaxOrders gas).
Local Abbreviation empty_book := (empty_book MaxPrice MaxOrders).
Local Abbreviation get_order := (get_order MaxOrders gas).

(** The level stored at a price; a level that was never written is the
    default-constructed one. *)
Definition lvl (b : OrderBook.t) (p : Z) : PriceLevel.t :=
  default PriceLevel.init (levels_ b !! p).

Definition free_list (b : OrderBook.t) : list nat := MemPool.free_head_ (pool_ b).

Arguments lvl : simpl never.

Record level_ok (st : gmap nat Order.t) (p : Z) (lv : PriceLevel.t) : Prop := {
  lv_nodup : NoDup (PriceLevel.orders lv);
  lv_cnt : PriceLevel.order_cnt lv = Z.of_nat (length (PriceLevel.orders lv));
  lv_qty : PriceLevel.total_qty lv = wrap_i64 (sum_qty st (PriceLevel.orders lv));
  lv_mem : ∀ o, o ∈ PriceLevel.orders lv →
             ∃ ord, st !! o = Some ord ∧ Order.price ord = p
}.

(** [ex] names an order that has just been filled completely and is about
    to be removed: its quantity may be zero. *)
Record order_ok (ex : option nat) (b : OrderBook.t) (o : nat) (ord : Order.t) : Prop := {
  ok_price : 0 ≤ Order.price ord ≤ MaxPrice;
  ok_qty0 : 0 ≤ Order.qty ord;
  ok_qty : ex ≠ Some o → 0 < Order.qty ord;
  ok_orig : Order.qty ord ≤ Order.orig_qty ord;
  ok_orig64 : Order.orig_qty ord < 2 ^ 63;
  ok_linked : o ∈ PriceLevel.orders (lvl b (Order.price ord));
  ok_buy : Order.side ord = Buy → Order.price ord ≤ best_bid_ b;
  ok_sell : Order.side ord = Sell → best_ask_ b ≤ Order.price ord
}.

Record inv (ex : option nat) (b : OrderBook.t) : Prop := {
  inv_free_nodup : NoDup (free_list b);
  inv_free_fresh : ∀ o, o ∈ free_list b → storage b !! o = None;
  inv_size : (size (storage b) + length (free_list b) = M)%nat;
  inv_alloc : MemPool.alloc_cnt_ (pool_ b) = Z.of_nat (size (storage b));
  inv_total : total_orders_ b = Z.of_nat (size (storage b));
  inv_tbl : tbl_ok (storage b) (order_map_ b);
  inv_live : ∀ o, in_tbl (order_map_ b) o ↔ is_Some (storage b !! o);
  inv_tbl_size : size (order_map_ b) = size (storage b);
  inv_levels : ∀ p, level_ok (storage b) p (lvl b p);
  inv_orders : ∀ o ord, storage b !! o = Some ord → order_ok ex b o ord;
  inv_bid_lo : -1 ≤ best_bid_ b;
  inv_ask_hi : best_ask_ b ≤ MaxPrice + 1;
  inv_uncrossed : best_bid_ b < best_ask_ b
}.

(** The best prices point at populated levels (or are the sentinels). *)
Definition bid_tight (b : OrderBook.t) : Prop :=
  0 ≤ best_bid_ b → PriceLevel.orders (lvl b (best_bid_ b)) ≠ [].
Definition ask_tight (b : OrderBook.t) : Prop :=
  best_ask_ b ≤ MaxPrice → PriceLevel.orders (lvl b (best_ask_ b)) ≠ [].

Record wf (b : OrderBook.t) : Prop := {
  wf_inv : inv None b;
  wf_bid : bid_tight b;
  wf_ask : ask_tight b
}.

Lemma level_ok_init st p : level_ok st p PriceLevel.init.
Proof.
  split; simpl; [constructor|done|done|].
  intros o Ho. by apply elem_of_nil in Ho.
Qed.

Lemma wf_empty_book : wf empty_book.
Proof.
  split; [split|..]; unfold lvl, free_list, storage; simpl.
  - apply NoDup_seq.
  - intros. apply lookup_empty.
  - rewrite map_size_empty, length_seq. done.
  - by rewrite map_size_empty.
  - by rewrite map_size_empty.
  - apply tbl_ok_empty.
  - intros o. split; [intros [i Hi]|intros [x Hx]]; by rewrite lookup_empty in *.
  - done.
  - intros p. rewrite lookup_empty. apply level_ok_init.
  - intros o ord Ho. by rewrite lookup_empty in Ho.
  - unfold NO_BID. lia.
  - lia.
  - unfold NO_BID. lia.
  - unfold bid_tight. simpl. unfold NO_BID. lia.
  - unfold ask_tight. simpl. lia.
Qed.

Lemma inv_weaken ex b : inv None b → inv ex b.
Proof.
  intros [? ? ? ? ? ? ? ? ? Ho ? ? ?]. split; try done.
  intros o ord Hl. pose proof (Ho o ord Hl) as Hok.
  split; try apply Hok. intros _. by apply (ok_qty _ _ _ _ Hok).
Qed.

Lemma inv_strengthen o b :
  inv (Some o) b → (∀ ord, storage b !! o = Some ord → 0 < Order.qty ord) →
  inv None b.
Proof.
  intros [? ? ? ? ? ? ? ? ? Ho ? ? ?] Hpos. split; try done.
  intros o' ord Hl. pose proof (Ho o' ord Hl) as Hok.
  split; try apply Hok.
  intros _. destruct (decide (o' = o)) as [->|Hne]; [by apply Hpos|].
  apply (ok_qty _ _ _ _ Hok). congruence.
Qed.

Lemma level_ref_in b p : 0 ≤ p ≤ MaxPrice → level_ref b p = Some (lvl b p).
Proof. intros Hp. unfold level_ref. by rewrite decide_True. Qed.

Lemma lvl_set_level p lv b q :
  lvl (set_level p lv b) q = if decide (p = q) then lv else lvl b q.
Proof. unfold lvl, set_level. simpl. rewrite lookup_insert. by case_decide. Qed.

Lemma lvl_set_pool pl b q : lvl (set_pool pl b) q = lvl b q.
Proof. done. Qed.
Lemma lvl_set_order_map om b q : lvl (set_order_map om b) q = lvl b q.
Proof. done. Qed.
Lemma lvl_set_total_orders n b q : lvl (set_total_orders n b) q = lvl b q.
Proof. done. Qed.
Lemma lvl_set_best_bid v b q : lvl (set_best_bid v b) q = lvl b q.
Proof. done. Qed.
Lemma lvl_set_best_ask v b q : lvl (set_best_ask v b) q = lvl b q.
Proof. done. Qed.

Ltac lvl_simpl :=
  repeat first
    [ rewrite lvl_set_level | rewrite lvl_set_pool | rewrite lvl_set_order_map
    | rewrite lvl_set_total_orders | rewrite lvl_set_best_bid
    | rewrite lvl_set_best_ask ].

Lemma level_empty_iff st p lv :
  level_ok st p lv → PriceLevel.empty lv = true ↔ PriceLevel.orders lv = [].
Proof.
  intros [_ Hc _ _]. unfold PriceLevel.empty. rewrite bool_decide_eq_true, Hc.
  destruct (PriceLevel.orders lv); simpl; split; (done || lia).
Qed.

Lemma level_length_le ex b p :
  inv ex b → (length (PriceLevel.orders (lvl b p)) ≤ size (storage b))%nat.
Proof.
  intros Hinv. destruct (inv_levels _ _ Hinv p) as [Hnd _ _ Hmem].
  rewrite <- size_dom, <- (size_list_to_set (C := gset nat)) by done.
  apply subseteq_size. intros o Ho%elem_of_list_to_set.
  destruct (Hmem o Ho) as (ord & Hord & _). apply elem_of_dom. by rewrite Hord.
Qed.

Lemma size_storage_le ex b : inv ex b → (size (storage b) ≤ M)%nat.
Proof. intros Hinv. pose proof (inv_size _ _ Hinv). lia. Qed.

Lemma sum_qty_insert_in st o ord ord' (l : list nat) :
  NoDup l → o ∈ l → st !! o = Some ord →
  sum_qty (<[o := ord']> st) l = sum_qty st l - Order.qty ord + Order.qty ord'.
Proof.
  intros Hnd Hin Ho.
  rewrite (sum_qty_filter (<[o := ord']> st) o l), (sum_qty_filter st o l) by done.
  rewrite (sum_qty_ext st (<[o := ord']> st)).
  - rewrite qty_at_insert, decide_True by done. unfold qty_at. rewrite Ho. lia.
  - intros x [Hx _]%list_elem_of_filter. rewrite qty_at_insert.
    by rewrite decide_False by congruence.
Qed.

Lemma sum_qty_insert_notin st o ord' (l : list nat) :
  o ∉ l → sum_qty (<[o := ord']> st) l = sum_qty st l.
Proof.
  intros Hnotin. apply sum_qty_ext. intros x Hx. rewrite qty_at_insert.
  rewrite decide_False; [done|]. intros ->. done.
Qed.

Lemma sum_qty_delete_notin st o (l : list nat) :
  o ∉ l → sum_qty (delete o st) l = sum_qty st l.
Proof.
  intros Hnotin. apply sum_qty_ext. intros x Hx. apply qty_at_delete_ne.
  intros ->. done.
Qed.

(** An order is linked in the level of its own price only. *)
Lemma linked_price ex b o ord q :
  inv ex b → storage b !! o = Some ord → o ∈ PriceLevel.orders (lvl b q) →
  q = Order.price ord.
Proof.
  intros Hinv Ho Hin.
  destruct (lv_mem _ _ _ (inv_levels _ _ Hinv q) o Hin) as (ord' & Ho' & Hp).
  congruence.
Qed.

Lemma live_in_tbl ex b o ord :
  inv ex b → storage b !! o = Some ord →
  ∃ i, order_map_ b !! i = Some o ∧ key (storage b) o = Some (Order.id ord).
Proof.
  intros Hinv Ho. destruct (proj2 (inv_live _ _ Hinv o)) as [i Hi]; [by eexists|].
  exists i. split; [done|]. unfold key. by rewrite Ho.
Qed.

(** Matching and cancelling only remove orders or reduce their quantity. *)
Definition shrinks (b b' : OrderBook.t) : Prop :=
  ∀ o ord', storage b' !! o = Some ord' →
    ∃ ord, storage b !! o = Some ord ∧
           Order.id ord' = Order.id ord ∧ Order.price ord' = Order.price ord ∧
           Order.side ord' = Order.side ord ∧ Order.type ord' = Order.type ord ∧
           Order.orig_qty ord' = Order.orig_qty ord ∧
           Order.qty ord' ≤ Order.qty ord.

Lemma shrinks_refl b : shrinks b b.
Proof. intros o ord Ho. exists ord. by split_and!. Qed.

Lemma shrinks_trans b1 b2 b3 : shrinks b1 b2 → shrinks b2 b3 → shrinks b1 b3.
Proof.
  intros H12 H23 o ord3 Ho3.
  destruct (H23 o ord3 Ho3) as (ord2 & Ho2 & ? & ? & ? & ? & ? & ?).
  destruct (H12 o ord2 Ho2) as (ord1 & Ho1 & ? & ? & ? & ? & ? & ?).
  exists ord1. split_and!; (done || congruence || lia).
Qed.

Lemma shrinks_best b b' :
  storage b' = storage b → shrinks b b'.
Proof. intros Hst o ord Ho. rewrite Hst in Ho. exists ord. by split_and!. Qed.

Lemma shrinks_delete b b' o :
  storage b' = delete o (storage b) → shrinks b b'.
Proof.
  intros Hst x ord Hx. rewrite Hst in Hx. apply lookup_delete_Some in Hx as [_ Hx].
  exists ord. by split_and!.
Qed.

(** *** Filling the head of a level *)

Definition fill_order (o : nat) (ord : Order.t) (f : Z) (b : OrderBook.t) : OrderBook.t :=
  set_level (Order.price ord)
    (PriceLevel.reduce_qty f (lvl b (Order.price ord)))
    (set_pool (MemPool.construct o (Order.fill f ord) (pool_ b)) b).

Lemma fill_order_inv o ord f b :
  inv None b → storage b !! o = Some ord → 0 < f ≤ Order.qty ord →
  inv (Some o) (fill_order o ord f b) ∧
  (f < Order.qty ord → inv None (fill_order o ord f b)).
Proof.
  intros Hinv Ho Hf.
  pose proof (inv_orders _ _ Hinv o ord Ho) as Hord.
  assert (Order.qty (Order.fill f ord) = Order.qty ord - f) as Hq.
  { simpl. apply wrap_i64_id. unfold is_i64.
    pose proof (ok_orig _ _ _ _ Hord). pose proof (ok_orig64 _ _ _ _ Hord). lia. }
  assert (∀ q, PriceLevel.orders (lvl (fill_order o ord f b) q)
               = PriceLevel.orders (lvl b q)) as Horders.
  { intros q. unfold fill_order. lvl_simpl. by case_decide; subst. }
  assert (storage (fill_order o ord f b) = <[o := Order.fill f ord]> (storage b)) as Hst
    by done.
  assert (∀ ex, (ex ≠ Some o → f < Order.qty ord) → inv ex (fill_order o ord f b)) as Hgen.
  2:{ split; [apply Hgen; congruence|]. intros Hlt. by apply Hgen. }
  intros ex Hex. split.
  - apply (inv_free_nodup _ _ Hinv).
  - intros o' Ho'. rewrite Hst. rewrite lookup_insert_ne; [by apply (inv_free_fresh _ _ Hinv)|].
    intros ->. apply (inv_free_fresh _ _ Hinv) in Ho'. congruence.
  - rewrite Hst, map_size_insert_Some by done. apply (inv_size _ _ Hinv).
  - rewrite Hst, map_size_insert_Some by done. apply (inv_alloc _ _ Hinv).
  - rewrite Hst, map_size_insert_Some by done. apply (inv_total _ _ Hinv).
  - rewrite Hst. eapply tbl_ok_ext; [|apply (inv_tbl _ _ Hinv)].
    intros i x _. unfold key. rewrite lookup_insert. case_decide; [|done].
    subst. by rewrite Ho.
  - intros x. rewrite Hst, lookup_insert_is_Some. rewrite (inv_live _ _ Hinv x).
    split; [|intros [->|[_ ?]]; [by eexists|done]].
    intros Hs. destruct (decide (o = x)); [by left|by right].
  - rewrite Hst, map_size_insert_Some by done. apply (inv_tbl_size _ _ Hinv).
  - intros q. pose proof (inv_levels _ _ Hinv q) as [Hnd Hcnt Hqty Hmem].
    rewrite Hst. unfold fill_order. lvl_simpl.
    case_decide as Hq'; [subst q|]; split; simpl; try done.
    + rewrite Hqty, wrap_i64_sub_l. f_equal.
      rewrite (sum_qty_insert_in _ o ord) by (done || apply Hord). lia.
    + intros x Hx. destruct (Hmem x Hx) as (xo & Hxo & Hxp).
      rewrite lookup_insert. case_decide; [|by eauto].
      subst. eexists. split; [done|]. simpl. congruence.
    + rewrite Hqty. f_equal. symmetry. apply sum_qty_insert_notin.
      intros Hin. apply Hq'. symmetry. by eapply linked_price.
    + intros x Hx. destruct (Hmem x Hx) as (xo & Hxo & Hxp).
      rewrite lookup_insert. case_decide; [|by eauto].
      subst. eexists. split; [done|]. simpl. congruence.
  - intros x xo. rewrite Hst, lookup_insert. case_decide as Hxo.
    + intros [= <-]. subst x. split; try apply Hord.
      * lia.
      * rewrite Hq. intros Hne. specialize (Hex Hne). lia.
      * rewrite Hq. pose proof (ok_orig _ _ _ _ Hord). simpl. lia.
      * rewrite Horders. apply Hord.
    + intros Hx. pose proof (inv_orders _ _ Hinv x xo Hx) as Hxok.
      split; try apply Hxok.
      * intros _. by apply (ok_qty _ _ _ _ Hxok).
      * rewrite Horders. apply Hxok.
  - apply (inv_bid_lo _ _ Hinv).
  - apply (inv_ask_hi _ _ Hinv).
  - apply (inv_uncrossed _ _ Hinv).
Qed.

(** *** remove_from_book *)

Lemma remove_from_book_ok o ord b :
  inv (Some o) b → storage b !! o = Some ord →
  ∃ b', remove_from_book o b = Some b' ∧ inv None b' ∧
    best_bid_ b' = best_bid_ b ∧ best_ask_ b' = best_ask_ b ∧
    storage b' = delete o (storage b) ∧
    free_list b' = o :: free_list b ∧
    (∀ q, q ≠ Order.price ord → lvl b' q = lvl b q) ∧
    PriceLevel.orders (lvl b' (Order.price ord))
      = filter (λ x, x ≠ o) (PriceLevel.orders (lvl b (Order.price ord))).
Proof.
  intros Hinv Ho.
  pose proof (inv_orders _ _ Hinv o ord Ho) as Hord.
  pose proof (ok_linked _ _ _ _ Hord) as Hlinked.
  destruct (live_in_tbl _ _ _ _ Hinv Ho) as (i & Hi & Hkey).
  destruct (remove_map_ok MaxOrders gas HM (storage b) (order_map_ b) i o (Order.id ord))
    as (om' & Hrm & Hok' & Hin' & Hsz'); [lia|apply Hinv|done|done|].
  pose proof (level_length_le _ _ (Order.price ord) Hinv) as Hlen.
  pose proof (size_storage_le _ _ Hinv) as HszM.
  pose proof (size_delete_S (storage b) o ord Ho) as HszS.
  set (lv := lvl b (Order.price ord)) in *.
  set (lv' := PriceLevel.mk (filter (λ x, x ≠ o) (PriceLevel.orders lv))
                (wrap_u64 (PriceLevel.order_cnt lv - 1))
                (wrap_i64 (PriceLevel.total_qty lv - Order.qty ord))).
  exists (set_total_orders (wrap_u64 (total_orders_ b - 1))
            (set_pool (MemPool.dealloc o (pool_ b))
               (set_order_map om' (set_level (Order.price ord) lv' b)))).
  split.
  { unfold remove_from_book. rewrite Ho. simpl.
    rewrite level_ref_in by apply Hord. simpl.
    unfold PriceLevel.remove. rewrite Ho. simpl.
    case_decide; [|done]. simpl.
    change (storage (set_level _ _ b)) with (storage b).
    change (order_map_ (set_level _ _ b)) with (order_map_ b).
    rewrite Hrm. done. }
  assert (∀ x, x ∈ PriceLevel.orders lv' ↔ x ∈ PriceLevel.orders lv ∧ x ≠ o) as Hin_lv'.
  { intros x. simpl. rewrite list_elem_of_filter. tauto. }
  split_and!; try done.
  2:{ intros q Hq. lvl_simpl. by rewrite decide_False by done. }
  2:{ lvl_simpl. by rewrite decide_True by done. }
  split; unfold free_list, storage; simpl.
  - apply NoDup_cons. split; [|apply Hinv].
    intros Hfree. apply (inv_free_fresh _ _ Hinv) in Hfree. unfold storage in *. congruence.
  - intros x [->|Hx]%elem_of_cons; [apply lookup_delete_eq|].
    rewrite lookup_delete_ne; [by apply (inv_free_fresh _ _ Hinv)|].
    intros ->. apply (inv_free_fresh _ _ Hinv) in Hx. unfold storage in *. congruence.
  - pose proof (inv_size _ _ Hinv). unfold free_list, storage in *. lia.
  - rewrite (inv_alloc _ _ Hinv). unfold storage in *.
    rewrite wrap_u64_id; unfold is_u64; lia.
  - rewrite (inv_total _ _ Hinv). unfold storage in *.
    rewrite wrap_u64_id; unfold is_u64; lia.
  - eapply tbl_ok_ext; [|exact Hok'].
    intros j x Hx. unfold key. rewrite lookup_delete_ne; [done|].
    intros Heq. subst x. destruct (proj1 (Hin' o)) as [_ Hne]; [by exists j|done].
  - intros x. rewrite Hin', (inv_live _ _ Hinv x). unfold storage.
    rewrite lookup_delete_is_Some. split; intros [? ?]; split; (done || congruence).
  - pose proof (inv_tbl_size _ _ Hinv). unfold storage in *. lia.
  - intros q. lvl_simpl. pose proof (inv_levels _ _ Hinv q) as [Hnd Hcnt Hqty Hmem].
    case_decide as Hq; [subst q|]; split; simpl.
    + by apply NoDup_filter.
    + fold lv in Hcnt, Hnd. rewrite Hcnt.
      pose proof (length_filter_ne o _ Hnd Hlinked) as Hl.
      rewrite wrap_u64_id; unfold is_u64; lia.
    + fold lv in Hqty, Hnd. rewrite Hqty, wrap_i64_sub_l. f_equal.
      rewrite sum_qty_delete_notin.
      2:{ intros [Hne _]%list_elem_of_filter. by apply Hne. }
      rewrite (sum_qty_filter (storage b) o (PriceLevel.orders lv)) by done.
      unfold qty_at. unfold storage in *. rewrite Ho. lia.
    + intros x [Hne Hx]%list_elem_of_filter.
      destruct (Hmem x Hx) as (xo & Hxo & Hxp). exists xo.
      by rewrite lookup_delete_ne.
    + apply Hnd.
    + apply Hcnt.
    + rewrite Hqty. f_equal. symmetry. apply sum_qty_delete_notin.
      intros Hx. apply Hq. symmetry. by eapply linked_price.
    + intros x Hx. destruct (Hmem x Hx) as (xo & Hxo & Hxp). exists xo.
      rewrite lookup_delete_ne; [done|].
      intros ->. apply Hq. symmetry. by eapply linked_price.
  - intros x xo [Hne Hx]%lookup_delete_Some.
    pose proof (inv_orders _ _ Hinv x xo Hx) as Hxok.
    split; try apply Hxok.
    + intros _. apply (ok_qty _ _ _ _ Hxok). congruence.
    + lvl_simpl. case_decide as Hq; [|apply Hxok].
      apply Hin_lv'. split; [|done]. unfold lv. rewrite Hq. apply Hxok.
  - apply Hinv.
  - apply Hinv.
  - apply Hinv.
Qed.

(** *** Best-price advancement *)

Lemma set_best_ask_id b : set_best_ask (best_ask_ b) b = b.
Proof. by destruct b. Qed.
Lemma set_best_bid_id b : set_best_bid (best_bid_ b) b = b.
Proof. by destruct b. Qed.

Lemma inv_set_best_ask ex b a :
  inv ex b → best_bid_ b < a → a ≤ MaxPrice + 1 →
  (∀ o ord, storage b !! o = Some ord → Order.side ord = Sell → a ≤ Order.price ord) →
  inv ex (set_best_ask a b).
Proof.
  intros Hinv Hlo Hhi Hsell. split; try apply Hinv; try done.
  intros o ord Ho. pose proof (inv_orders _ _ Hinv o ord Ho) as Hok.
  split; try apply Hok. simpl. intros Hs. by apply (Hsell o ord).
Qed.

Lemma inv_set_best_bid ex b v :
  inv ex b → -1 ≤ v → v < best_ask_ b →
  (∀ o ord, storage b !! o = Some ord → Order.side ord = Buy → Order.price ord ≤ v) →
  inv ex (set_best_bid v b).
Proof.
  intros Hinv Hlo Hhi Hbuy. split; try apply Hinv; try done.
  intros o ord Ho. pose proof (inv_orders _ _ Hinv o ord Ho) as Hok.
  split; try apply Hok. simpl. intros Hs. by apply (Hbuy o ord).
Qed.

Lemma update_best_ask_scan ex b0 :
  inv ex b0 →
  ∀ fuel a0, 0 ≤ a0 ≤ MaxPrice + 1 →
    (Z.to_nat (MaxPrice + 1 - a0) < fuel)%nat →
    ∃ a, update_best_ask fuel (set_best_ask a0 b0) = Some (set_best_ask a b0) ∧
         a0 ≤ a ≤ MaxPrice + 1 ∧
         (∀ q, a0 ≤ q < a → PriceLevel.orders (lvl b0 q) = []) ∧
         (a ≤ MaxPrice → PriceLevel.orders (lvl b0 a) ≠ []).
Proof.
  intros Hinv. induction fuel as [|fuel IH]; intros a0 Ha0 Hf; [lia|].
  simpl. case_decide as Hle.
  2:{ exists a0. split_and!; [done|lia|lia|intros; lia|intros; lia]. }
  rewrite level_ref_in by (simpl; lia). simpl. lvl_simpl.
  pose proof (level_empty_iff _ _ _ (inv_levels _ _ Hinv a0)) as Hemp.
  destruct (PriceLevel.empty (lvl b0 a0)) eqn:He.
  - rewrite wrap_i64_id by (unfold is_i64; lia).
    destruct (IH (a0 + 1)) as (a & Hrun & Ha & Hbelow & Htight); [lia|lia|].
    exists a. split_and!; [done|lia|lia| |done].
    intros q Hq. destruct (decide (q = a0)) as [->|]; [by apply Hemp|].
    apply Hbelow. lia.
  - exists a0. split_and!; [done|lia|lia|intros; lia|].
    intros _ Hnil. apply Hemp in Hnil. congruence.
Qed.

Lemma update_best_bid_scan ex b0 :
  inv ex b0 →
  ∀ fuel v0, -1 ≤ v0 ≤ MaxPrice →
    (Z.to_nat (v0 + 1) < fuel)%nat →
    ∃ v, update_best_bid fuel (set_best_bid v0 b0) = Some (set_best_bid v b0) ∧
         -1 ≤ v ≤ v0 ∧
         (∀ q, v < q ≤ v0 → PriceLevel.orders (lvl b0 q) = []) ∧
         (0 ≤ v → PriceLevel.orders (lvl b0 v) ≠ []).
Proof.
  intros Hinv. induction fuel as [|fuel IH]; intros v0 Hv0 Hf; [lia|].
  simpl. case_decide as Hle.
  2:{ exists v0. split_and!; [done|lia|lia|intros; lia|intros; lia]. }
  rewrite level_ref_in by (simpl; lia). simpl. lvl_simpl.
  pose proof (level_empty_iff _ _ _ (inv_levels _ _ Hinv v0)) as Hemp.
  destruct (PriceLevel.empty (lvl b0 v0)) eqn:He.
  - rewrite wrap_i64_id by (unfold is_i64; lia).
    destruct (IH (v0 - 1)) as (v & Hrun & Hv & Hbelow & Htight); [lia|lia|].
    exists v. split_and!; [done|lia|lia| |done].
    intros q Hq. destruct (decide (q = v0)) as [->|]; [by apply Hemp|].
    apply Hbelow. lia.
  - exists v0. split_and!; [done|lia|lia|intros; lia|].
    intros _ Hnil. apply Hemp in Hnil. congruence.
Qed.

Lemma order_level_nonempty ex b o ord :
  inv ex b → storage b !! o = Some ord →
  PriceLevel.orders (lvl b (Order.price ord)) ≠ [].
Proof.
  intros Hinv Ho Hnil.
  pose proof (ok_linked _ _ _ _ (inv_orders _ _ Hinv o ord Ho)) as Hin.
  rewrite Hnil in Hin. by apply elem_of_nil in Hin.
Qed.

Lemma update_best_ask_ok ex b :
  inv ex b →
  ∃ a, update_best_ask gas b = Some (set_best_ask a b) ∧
       inv ex (set_best_ask a b) ∧ ask_tight (set_best_ask a b) ∧
       best_ask_ b ≤ a ∧
       (PriceLevel.orders (lvl b (best_ask_ b)) = [] → best_ask_ b ≤ MaxPrice →
        best_ask_ b < a) ∧
       (∀ q, best_ask_ b ≤ q < a → PriceLevel.orders (lvl b q) = []).
Proof.
  intros Hinv.
  pose proof (inv_bid_lo _ _ Hinv). pose proof (inv_ask_hi _ _ Hinv).
  pose proof (inv_uncrossed _ _ Hinv).
  destruct (update_best_ask_scan ex b Hinv gas (best_ask_ b))
    as (a & Hrun & Ha & Hbelow & Htight); [lia|lia|].
  rewrite set_best_ask_id in Hrun. exists a. split_and!; [done| |done|lia| |done].
  - apply inv_set_best_ask; [done|lia|lia|].
    intros o ord Ho Hside.
    pose proof (ok_sell _ _ _ _ (inv_orders _ _ Hinv o ord Ho) Hside) as Hge.
    destruct (decide (a ≤ Order.price ord)) as [|Hlt]; [done|].
    destruct (order_level_nonempty _ _ _ _ Hinv Ho). apply Hbelow. lia.
  - intros Hnil Hle. destruct (decide (a = best_ask_ b)) as [->|]; [|lia].
    by destruct Htight.
Qed.

Lemma update_best_bid_ok ex b :
  inv ex b →
  ∃ v, update_best_bid gas b = Some (set_best_bid v b) ∧
       inv ex (set_best_bid v b) ∧ bid_tight (set_best_bid v b) ∧
       v ≤ best_bid_ b ∧
       (PriceLevel.orders (lvl b (best_bid_ b)) = [] → 0 ≤ best_bid_ b →
        v < best_bid_ b) ∧
       (∀ q, v < q ≤ best_bid_ b → PriceLevel.orders (lvl b q) = []).
Proof.
  intros Hinv.
  pose proof (inv_bid_lo _ _ Hinv). pose proof (inv_ask_hi _ _ Hinv).
  pose proof (inv_uncrossed _ _ Hinv).
  destruct (update_best_bid_scan ex b Hinv gas (best_bid_ b))
    as (v & Hrun & Hv & Hbelow & Htight); [lia|lia|].
  rewrite set_best_bid_id in Hrun. exists v. split_and!; [done| |done|lia| |done].
  - apply inv_set_best_bid; [done|lia|lia|].
    intros o ord Ho Hside.
    pose proof (ok_buy _ _ _ _ (inv_orders _ _ Hinv o ord Ho) Hside) as Hge.
    destruct (decide (Order.price ord ≤ v)) as [|Hlt]; [done|].
    destruct (order_level_nonempty _ _ _ _ Hinv Ho). apply Hbelow. lia.
  - intros Hnil Hle. destruct (decide (v = best_bid_ b)) as [->|]; [|lia].
    by destruct Htight.
Qed.

(** *** match_level *)

Lemma shrinks_fill o ord f b :
  storage b !! o = Some ord → 0 ≤ f →
  Order.qty ord < 2 ^ 63 → f ≤ Order.qty ord →
  shrinks b (fill_order o ord f b).
Proof.
  intros Ho Hf H64 Hle x ord'. unfold fill_order, storage. simpl.
  rewrite lookup_insert. case_decide as Hx.
  - intros [= <-]. subst x. exists ord. split_and!; try done. simpl.
    rewrite wrap_i64_id by (unfold is_i64; lia). lia.
  - intros Hx'. exists ord'. by split_and!.
Qed.

Lemma match_level_nop fuel px qty b :
  0 ≤ px ≤ MaxPrice → qty ≤ 0 → match_level (S fuel) px qty b = Some (qty, b).
Proof.
  intros Hpx Hq. simpl. rewrite level_ref_in by done. simpl.
  rewrite decide_False by lia. done.
Qed.

Lemma match_level_empty ex fuel px qty b :
  inv ex b → 0 ≤ px ≤ MaxPrice → PriceLevel.orders (lvl b px) = [] →
  match_level (S fuel) px qty b = Some (qty, b).
Proof.
  intros Hinv Hpx Hnil. simpl. rewrite level_ref_in by done. simpl.
  apply (level_empty_iff _ _ _ (inv_levels _ _ Hinv px)) in Hnil.
  rewrite decide_False; [done|]. rewrite Hnil. intros [_ ?]. done.
Qed.

Lemma level_head_nonempty ex b px o rest :
  inv ex b → PriceLevel.orders (lvl b px) = o :: rest →
  PriceLevel.empty (lvl b px) = false.
Proof.
  intros Hinv Hl. destruct (PriceLevel.empty (lvl b px)) eqn:He; [|done].
  apply (level_empty_iff _ _ _ (inv_levels _ _ Hinv px)) in He. congruence.
Qed.

Lemma match_level_partial fuel px qty b o ord rest :
  inv None b → 0 ≤ px ≤ MaxPrice → 0 < qty →
  PriceLevel.orders (lvl b px) = o :: rest → storage b !! o = Some ord →
  qty < Order.qty ord →
  match_level (S fuel) px qty b = match_level fuel px 0 (fill_order o ord qty b).
Proof.
  intros Hinv Hpx Hq Hl Ho Hlt.
  assert (px = Order.price ord) as ->.
  { eapply linked_price; [done..|]. rewrite Hl. apply list_elem_of_here. }
  pose proof (inv_orders _ _ Hinv o ord Ho) as Hord.
  pose proof (ok_orig _ _ _ _ Hord). pose proof (ok_orig64 _ _ _ _ Hord).
  simpl. rewrite level_ref_in by done. simpl.
  rewrite decide_True by (split; [done|by eapply level_head_nonempty]).
  unfold PriceLevel.front. rewrite Hl. simpl. rewrite Ho. simpl.
  rewrite Z.min_l by lia. unfold Order.filled.
  rewrite bool_decide_eq_false_2.
  2:{ simpl. rewrite wrap_i64_id by (unfold is_i64; lia). lia. }
  replace (qty - qty) with 0 by lia.
  rewrite (wrap_i64_id 0) by (unfold is_i64; lia). done.
Qed.

Lemma match_level_full fuel px qty b o ord rest :
  inv None b → 0 ≤ px ≤ MaxPrice → qty < 2 ^ 63 →
  PriceLevel.orders (lvl b px) = o :: rest → storage b !! o = Some ord →
  Order.qty ord ≤ qty →
  ∃ b3, remove_from_book o (fill_order o ord (Order.qty ord) b) = Some b3 ∧
        match_level (S fuel) px qty b
          = match_level fuel px (qty - Order.qty ord) b3 ∧
        inv None b3 ∧
        best_bid_ b3 = best_bid_ b ∧ best_ask_ b3 = best_ask_ b ∧
        storage b3 = delete o (storage b) ∧
        free_list b3 = o :: free_list b ∧
        (∀ q, q ≠ px → lvl b3 q = lvl b q) ∧
        PriceLevel.orders (lvl b3 px) = rest ∧
        shrinks b b3.
Proof.
  intros Hinv Hpx Hq Hl Ho Hge.
  assert (px = Order.price ord) as ->.
  { eapply linked_price; [done..|]. rewrite Hl. apply list_elem_of_here. }
  pose proof (inv_orders _ _ Hinv o ord Ho) as Hord.
  pose proof (ok_orig _ _ _ _ Hord). pose proof (ok_orig64 _ _ _ _ Hord).
  pose proof (ok_qty _ _ _ _ Hord) as Hpos. specialize (Hpos ltac:(done)).
  destruct (fill_order_inv o ord (Order.qty ord) b Hinv Ho) as [Hinv2 _]; [lia|].
  set (b2 := fill_order o ord (Order.qty ord) b) in *.
  assert (storage b2 !! o = Some (Order.fill (Order.qty ord) ord)) as Ho2
    by apply lookup_insert_eq.
  destruct (remove_from_book_ok o _ b2 Hinv2 Ho2)
    as (b3 & Hrm & Hinv3 & Hbid & Hask & Hst & Hfree & Hother & Horders).
  exists b3. split_and!; try done.
  - simpl. rewrite level_ref_in by done. simpl.
    rewrite decide_True by (split; [lia|by eapply level_head_nonempty]).
    unfold PriceLevel.front. rewrite Hl. simpl. rewrite Ho. simpl.
    rewrite Z.min_r by lia. unfold Order.filled.
    rewrite bool_decide_eq_true_2.
    2:{ simpl. rewrite wrap_i64_id by (unfold is_i64; lia). lia. }
    fold (fill_order o ord (Order.qty ord) b). fold b2. rewrite Hrm. simpl.
    by rewrite wrap_i64_id by (unfold is_i64; lia).
  - rewrite Hst. unfold b2, fill_order. apply delete_insert_eq.
  - intros q Hq'. rewrite Hother by done. unfold b2, fill_order. lvl_simpl.
    by rewrite decide_False by done.
  - simpl in Horders. rewrite Horders. unfold b2, fill_order. lvl_simpl.
    rewrite decide_True by done. simpl. rewrite Hl.
    apply filter_ne_head. rewrite <- Hl. apply (inv_levels _ _ Hinv).
  - apply (shrinks_delete _ _ o). rewrite Hst. unfold b2, fill_order.
    apply delete_insert_eq.
Qed.

Lemma match_level_ok :
  ∀ fuel px qty b,
    inv None b → 0 ≤ px ≤ MaxPrice → qty < 2 ^ 63 →
    (size (storage b) < fuel)%nat →
    ∃ q' b', match_level fuel px qty b = Some (q', b') ∧ inv None b' ∧
      best_bid_ b' = best_bid_ b ∧ best_ask_ b' = best_ask_ b ∧
      (∀ q, q ≠ px → lvl b' q = lvl b q) ∧
      (q' ≤ 0 ∨ PriceLevel.orders (lvl b' px) = []) ∧
      (0 < qty → 0 ≤ q' ≤ qty) ∧
      (qty ≤ 0 → q' = qty ∧ b' = b) ∧
      (free_list b ≠ [] → free_list b' ≠ []) ∧
      (0 < qty → PriceLevel.orders (lvl b px) ≠ [] → q' = 0 ∨ free_list b' ≠ []) ∧
      shrinks b b'.
Proof.
  induction fuel as [|fuel IH]; intros px qty b Hinv Hpx Hq Hf; [lia|].
  destruct (decide (qty ≤ 0)) as [Hle|Hpos].
  { exists qty, b. rewrite match_level_nop by done.
    split_and!; try done; try lia. apply shrinks_refl. }
  destruct (PriceLevel.orders (lvl b px)) as [|o rest] eqn:Hl.
  { exists qty, b. rewrite (match_level_empty None) by done.
    split_and!; try done; try lia; try (by right). apply shrinks_refl. }
  destruct (lv_mem _ _ _ (inv_levels _ _ Hinv px) o) as (ord & Ho & Hprice).
  { rewrite Hl. apply list_elem_of_here. }
  pose proof (size_delete_S (storage b) o ord Ho) as HszS.
  destruct (decide (qty < Order.qty ord)) as [Hlt|Hge].
  - rewrite (match_level_partial fuel px qty b o ord rest) by (done || lia).
    destruct (fill_order_inv o ord qty b Hinv Ho) as [_ Hinv2]; [lia|].
    specialize (Hinv2 Hlt).
    destruct fuel as [|fuel]; [lia|].
    rewrite match_level_nop by (done || lia).
    pose proof (inv_orders _ _ Hinv o ord Ho) as Hord.
    pose proof (ok_orig _ _ _ _ Hord). pose proof (ok_orig64 _ _ _ _ Hord).
    exists 0, (fill_order o ord qty b). split_and!; try done; try lia.
    + intros q Hq'. unfold fill_order. lvl_simpl. rewrite decide_False; [done|].
      congruence.
    + apply shrinks_fill; (done || lia).
  - destruct (match_level_full fuel px qty b o ord rest)
      as (b3 & _ & Hrun & Hinv3 & Hbid & Hask & Hst & Hfree & Hother & Horders & Hsh);
      [done..|lia|].
    pose proof (ok_qty _ _ _ _ (inv_orders _ _ Hinv o ord Ho)) as Hopos.
    specialize (Hopos ltac:(done)).
    destruct (IH px (qty - Order.qty ord) b3)
      as (q' & b' & Hrun' & Hinv' & Hbid' & Hask' & Hother' & Hdone' & Hrange' & Hnop'
            & Hfree' & _ & Hsh'); [done|done|lia|rewrite Hst; lia|].
    exists q', b'. rewrite Hrun. split_and!; try done; try congruence.
    + intros q Hq'. rewrite Hother' by done. by apply Hother.
    + intros _. destruct (decide (0 < qty - Order.qty ord)) as [Hp|Hz].
      * specialize (Hrange' Hp). lia.
      * destruct Hnop' as [-> _]; lia.
    + intros _. apply Hfree'. by rewrite Hfree.
    + intros _ _. right. apply Hfree'. by rewrite Hfree.
    + by eapply shrinks_trans.
Qed.

(** *** The sweep over levels *)

Lemma gas_storage ex b : inv ex b → (size (storage b) < gas)%nat.
Proof. intros Hinv. pose proof (size_storage_le _ _ Hinv). lia. Qed.

Lemma match_buy_loop_nop fuel qty limit b :
  ¬ (0 < qty ∧ best_ask_ b ≤ limit ∧ best_ask_ b ≤ MaxPrice) →
  match_buy_loop (S fuel) qty limit b = Some (qty, b).
Proof. clear HP HM HM64 Hgas. intros Hc. simpl. by rewrite decide_False. Qed.

Lemma match_sell_loop_nop fuel qty limit b :
  ¬ (0 < qty ∧ limit ≤ best_bid_ b ∧ 0 ≤ best_bid_ b) →
  match_sell_loop (S fuel) qty limit b = Some (qty, b).
Proof. clear HP HM HM64 Hgas. intros Hc. simpl. by rewrite decide_False. Qed.

Lemma match_buy_loop_stop fuel qty limit b :
  (0 < fuel)%nat →
  ¬ (0 < qty ∧ best_ask_ b ≤ limit ∧ best_ask_ b ≤ MaxPrice) →
  match_buy_loop fuel qty limit b = Some (qty, b).
Proof. clear HP HM HM64 Hgas. intros Hf Hc. destruct fuel; [lia|]. by apply match_buy_loop_nop. Qed.

Lemma match_sell_loop_stop fuel qty limit b :
  (0 < fuel)%nat →
  ¬ (0 < qty ∧ limit ≤ best_bid_ b ∧ 0 ≤ best_bid_ b) →
  match_sell_loop fuel qty limit b = Some (qty, b).
Proof. clear HP HM HM64 Hgas. intros Hf Hc. destruct fuel; [lia|]. by apply match_sell_loop_nop. Qed.

Lemma match_buy_iter fuel qty limit b :
  inv None b → bid_tight b → 0 < qty < 2 ^ 63 →
  best_ask_ b ≤ limit → best_ask_ b ≤ MaxPrice →
  ∃ q1 b2, match_buy_loop (S fuel) qty limit b = match_buy_loop fuel q1 limit b2 ∧
    inv None b2 ∧ bid_tight b2 ∧ ask_tight b2 ∧
    best_bid_ b2 = best_bid_ b ∧ best_ask_ b ≤ best_ask_ b2 ∧
    0 ≤ q1 ≤ qty ∧ (0 < q1 → best_ask_ b < best_ask_ b2) ∧
    (free_list b ≠ [] → free_list b2 ≠ []) ∧
    (PriceLevel.orders (lvl b (best_ask_ b)) ≠ [] → q1 = 0 ∨ free_list b2 ≠ []) ∧
    shrinks b b2.
Proof.
  intros Hinv Hbid Hq Hlim Hask.
  pose proof (inv_bid_lo _ _ Hinv). pose proof (inv_uncrossed _ _ Hinv).
  destruct (match_level_ok gas (best_ask_ b) qty b)
    as (q1 & b1 & Hrun & Hinv1 & Hbid1 & Hask1 & Hother1 & Hdone1 & Hrange1 & _
          & Hfree1 & Hprog1 & Hsh1); [done|lia|lia|by eapply gas_storage|].
  specialize (Hrange1 ltac:(lia)).
  pose proof (level_empty_iff _ _ _ (inv_levels _ _ Hinv1 (best_ask_ b))) as Hemp.
  assert (bid_tight b1) as Hbt1.
  { unfold bid_tight. rewrite Hbid1, Hother1 by lia. apply Hbid. }
  simpl. rewrite decide_True by lia. rewrite Hrun. simpl.
  rewrite level_ref_in by lia. simpl.
  destruct (PriceLevel.empty (lvl b1 (best_ask_ b))) eqn:He.
  - destruct (update_best_ask_ok None b1 Hinv1) as (a & Hup & Hinv2 & Htight2 & Hge & Hadv & _).
    rewrite Hup. simpl. exists q1, (set_best_ask a b1).
    split_and!; try done; try lia.
    + simpl. lia.
    + intros _. rewrite Hask1 in Hadv. simpl. apply Hadv; [by apply Hemp|lia].
    + intros Hne. apply Hprog1; [lia|done].
  - exists q1, b1. split_and!; try done; try lia.
    + unfold ask_tight. rewrite Hask1. intros _ Hnil. apply Hemp in Hnil. congruence.
    + intros Hpos. destruct Hdone1 as [?|Hnil]; [lia|].
      apply Hemp in Hnil. congruence.
    + intros Hne. apply Hprog1; [lia|done].
Qed.

Lemma match_sell_iter fuel qty limit b :
  inv None b → ask_tight b → 0 < qty < 2 ^ 63 →
  limit ≤ best_bid_ b → 0 ≤ best_bid_ b →
  ∃ q1 b2, match_sell_loop (S fuel) qty limit b = match_sell_loop fuel q1 limit b2 ∧
    inv None b2 ∧ bid_tight b2 ∧ ask_tight b2 ∧
    best_ask_ b2 = best_ask_ b ∧ best_bid_ b2 ≤ best_bid_ b ∧
    0 ≤ q1 ≤ qty ∧ (0 < q1 → best_bid_ b2 < best_bid_ b) ∧
    (free_list b ≠ [] → free_list b2 ≠ []) ∧
    (PriceLevel.orders (lvl b (best_bid_ b)) ≠ [] → q1 = 0 ∨ free_list b2 ≠ []) ∧
    shrinks b b2.
Proof.
  intros Hinv Hask Hq Hlim Hbid.
  pose proof (inv_ask_hi _ _ Hinv). pose proof (inv_uncrossed _ _ Hinv).
  destruct (match_level_ok gas (best_bid_ b) qty b)
    as (q1 & b1 & Hrun & Hinv1 & Hbid1 & Hask1 & Hother1 & Hdone1 & Hrange1 & _
          & Hfree1 & Hprog1 & Hsh1); [done|lia|lia|by eapply gas_storage|].
  specialize (Hrange1 ltac:(lia)).
  pose proof (level_empty_iff _ _ _ (inv_levels _ _ Hinv1 (best_bid_ b))) as Hemp.
  assert (ask_tight b1) as Hat1.
  { unfold ask_tight. rewrite Hask1, Hother1 by lia. apply Hask. }
  simpl. rewrite decide_True by lia. rewrite Hrun. simpl.
  rewrite level_ref_in by lia. simpl.
  destruct (PriceLevel.empty (lvl b1 (best_bid_ b))) eqn:He.
  - destruct (update_best_bid_ok None b1 Hinv1) as (v & Hup & Hinv2 & Htight2 & Hge & Hadv & _).
    rewrite Hup. simpl. exists q1, (set_best_bid v b1).
    split_and!; try done; try lia.
    + simpl. lia.
    + intros _. rewrite Hbid1 in Hadv. simpl. apply Hadv; [by apply Hemp|lia].
    + intros Hne. apply Hprog1; [lia|done].
  - exists q1, b1. split_and!; try done; try lia.
    + unfold bid_tight. rewrite Hbid1. intros _ Hnil. apply Hemp in Hnil. congruence.
    + intros Hpos. destruct Hdone1 as [?|Hnil]; [lia|].
      apply Hemp in Hnil. congruence.
    + intros Hne. apply Hprog1; [lia|done].
Qed.

Lemma match_buy_loop_ok :
  ∀ fuel qty limit b,
    inv None b → bid_tight b → qty < 2 ^ 63 →
    (Z.to_nat (MaxPrice + 2 - best_ask_ b) < fuel)%nat →
    ∃ q' b', match_buy_loop fuel qty limit b = Some (q', b') ∧
      inv None b' ∧ bid_tight b' ∧ (ask_tight b → ask_tight b') ∧
      best_bid_ b' = best_bid_ b ∧ best_ask_ b ≤ best_ask_ b' ∧
      (q' ≤ 0 ∨ limit < best_ask_ b' ∨ MaxPrice < best_ask_ b') ∧
      (0 < qty → 0 ≤ q' ≤ qty) ∧
      (¬ (0 < qty ∧ best_ask_ b ≤ limit ∧ best_ask_ b ≤ MaxPrice) →
       q' = qty ∧ b' = b) ∧
      (free_list b ≠ [] → free_list b' ≠ []) ∧
      (ask_tight b → 0 < qty → best_ask_ b ≤ limit → best_ask_ b ≤ MaxPrice →
       q' = 0 ∨ free_list b' ≠ []) ∧
      shrinks b b'.
Proof.
  induction fuel as [|fuel IH]; intros qty limit b Hinv Hbid Hq Hf; [lia|].
  destruct (decide (0 < qty ∧ best_ask_ b ≤ limit ∧ best_ask_ b ≤ MaxPrice))
    as [(Hpos & Hlim & Hask)|Hstop].
  2:{ exists qty, b. rewrite match_buy_loop_nop by done.
      split_and!; try done; try lia. apply shrinks_refl. }
  destruct (match_buy_iter fuel qty limit b)
    as (q1 & b2 & Hrun & Hinv2 & Hbid2 & Hask2 & Hbb & Hba & Hrange & Hadv & Hfree & Hprog & Hsh);
    [done|done|lia|done|done|].
  rewrite Hrun.
  destruct (decide (0 < q1)) as [Hq1|Hq1].
  - specialize (Hadv Hq1).
    destruct (IH q1 limit b2)
      as (q' & b' & Hrun' & Hinv' & Hbid' & Hask' & Hbb' & Hba' & Hdone' & Hrange' & _
            & Hfree' & _ & Hsh'); [done|done|lia|lia|].
    specialize (Hrange' Hq1).
    exists q', b'. split_and!; try done; try lia.
    + intros _. by apply Hask'.
    + intros ?. by apply Hfree', Hfree.
    + intros Htight _ _ _. right. apply Hfree'.
      destruct Hprog as [?|?]; [by apply Htight|lia|done].
    + by eapply shrinks_trans.
  - destruct fuel as [|fuel]; [lia|].
    rewrite match_buy_loop_nop by lia.
    exists q1, b2. split_and!; try done; try lia.
Qed.

Lemma match_sell_loop_ok :
  ∀ fuel qty limit b,
    inv None b → ask_tight b → qty < 2 ^ 63 →
    (Z.to_nat (best_bid_ b + 3) < fuel)%nat →
    ∃ q' b', match_sell_loop fuel qty limit b = Some (q', b') ∧
      inv None b' ∧ ask_tight b' ∧ (bid_tight b → bid_tight b') ∧
      best_ask_ b' = best_ask_ b ∧ best_bid_ b' ≤ best_bid_ b ∧
      (q' ≤ 0 ∨ best_bid_ b' < limit ∨ best_bid_ b' < 0) ∧
      (0 < qty → 0 ≤ q' ≤ qty) ∧
      (¬ (0 < qty ∧ limit ≤ best_bid_ b ∧ 0 ≤ best_bid_ b) →
       q' = qty ∧ b' = b) ∧
      (free_list b ≠ [] → free_list b' ≠ []) ∧
      (bid_tight b → 0 < qty → limit ≤ best_bid_ b → 0 ≤ best_bid_ b →
       q' = 0 ∨ free_list b' ≠ []) ∧
      shrinks b b'.
Proof.
  induction fuel as [|fuel IH]; intros qty limit b Hinv Hask Hq Hf; [lia|].
  destruct (decide (0 < qty ∧ limit ≤ best_bid_ b ∧ 0 ≤ best_bid_ b))
    as [(Hpos & Hlim & Hbid)|Hstop].
  2:{ exists qty, b. rewrite match_sell_loop_nop by done.
      split_and!; try done; try lia. apply shrinks_refl. }
  destruct (match_sell_iter fuel qty limit b)
    as (q1 & b2 & Hrun & Hinv2 & Hbid2 & Hask2 & Hba & Hbb & Hrange & Hadv & Hfree & Hprog & Hsh);
    [done|done|lia|done|done|].
  rewrite Hrun.
  pose proof (inv_bid_lo _ _ Hinv2).
  destruct (decide (0 < q1)) as [Hq1|Hq1].
  - specialize (Hadv Hq1).
    destruct (IH q1 limit b2)
      as (q' & b' & Hrun' & Hinv' & Hask' & Hbid' & Hba' & Hbb' & Hdone' & Hrange' & _
            & Hfree' & _ & Hsh'); [done|done|lia|lia|].
    specialize (Hrange' Hq1).
    exists q', b'. split_and!; try done; try lia.
    + intros _. by apply Hbid'.
    + intros ?. by apply Hfree', Hfree.
    + intros Htight _ _ _. right. apply Hfree'.
      destruct Hprog as [?|?]; [by apply Htight|lia|done].
    + by eapply shrinks_trans.
  - destruct fuel as [|fuel]; [lia|].
    rewrite match_sell_loop_nop by lia.
    exists q1, b2. split_and!; try done; try lia.
Qed.

(** *** lookup on a well-formed book *)

Lemma gas_M : (M ≤ gas)%nat.
Proof. lia. Qed.

Lemma lookup_live ex b o ord :
  inv ex b → storage b !! o = Some ord →
  lookup (Order.id ord) b = Some (Some o).
Proof.
  intros Hinv Ho. destruct (live_in_tbl _ _ _ _ Hinv Ho) as (i & Hi & Hk).
  unfold lookup. eapply lookup_map_hit; eauto using gas_M. apply Hinv.
Qed.

Lemma lookup_absent ex b idv :
  inv ex b → (∀ o ord, storage b !! o = Some ord → Order.id ord ≠ idv) →
  lookup idv b = Some None.
Proof.
  intros Hinv Hne. unfold lookup.
  apply lookup_map_miss; [done|apply gas_M|apply Hinv|].
  intros i o Hi. destruct (proj1 (inv_live _ _ Hinv o)) as [ord Ho]; [by eexists|].
  unfold key. rewrite Ho. simpl. intros [= Heq]. by eapply Hne.
Qed.

Lemma lookup_Some_inv ex b idv o :
  inv ex b → lookup idv b = Some (Some o) →
  ∃ ord, storage b !! o = Some ord ∧ Order.id ord = idv.
Proof.
  intros Hinv Hl. apply lookup_map_sound in Hl as [_ Hk]. unfold key in Hk.
  destruct (storage b !! o) as [ord|] eqn:Ho; [|done].
  exists ord. split; [done|]. simpl in Hk. congruence.
Qed.

Lemma lookup_None_inv ex b idv :
  inv ex b → lookup idv b = Some None →
  ∀ o ord, storage b !! o = Some ord → Order.id ord ≠ idv.
Proof.
  intros Hinv Hl o ord Ho Heq. subst idv.
  rewrite (lookup_live _ _ _ _ Hinv Ho) in Hl. done.
Qed.

Lemma lookup_total ex b idv : inv ex b → is_Some (lookup idv b).
Proof.
  intros Hinv.
  destruct (decide (map_Exists (λ _ ord, Order.id ord = idv) (storage b)))
    as [(o & ord & Ho & <-)|Hno].
  - rewrite (lookup_live _ _ _ _ Hinv Ho). by eexists.
  - rewrite (lookup_absent ex); [by eexists|done|].
    intros o ord Ho Heq. apply Hno. by exists o, ord.
Qed.

Lemma id_unique ex b o o' ord ord' :
  inv ex b → storage b !! o = Some ord → storage b !! o' = Some ord' →
  Order.id ord = Order.id ord' → o = o'.
Proof.
  intros Hinv Ho Ho' Heq.
  pose proof (lookup_live _ _ _ _ Hinv Ho) as H1.
  pose proof (lookup_live _ _ _ _ Hinv Ho') as H2.
  rewrite Heq in H1. congruence.
Qed.

(** *** add *)

Definition cross (side : Side) (px qty : Z) (b : OrderBook.t) : option (Z * OrderBook.t) :=
  match side with
  | Buy =>
      if decide (best_ask_ b ≤ px) then match_internal side qty px b
      else Some (qty, b)
  | Sell =>
      if decide (px ≤ best_bid_ b) then match_internal side qty px b
      else Some (qty, b)
  end.

(** The order that [add] rests, and the state after it has been rested in
    pool slot [o] and index cell [v]. *)
Definition rested (id : Z) (side : Side) (px remaining : Z) (type : OrdType) (ts : Z)
    (o v : nat) (vb va : Z) (b1 : OrderBook.t) : OrderBook.t :=
  OrderBook.mk
    (<[px := PriceLevel.mk (PriceLevel.orders (lvl b1 px) ++ [o])
               (wrap_u64 (PriceLevel.order_cnt (lvl b1 px) + 1))
               (wrap_i64 (PriceLevel.total_qty (lvl b1 px) + remaining))]> (levels_ b1))
    vb va
    (wrap_u64 (total_orders_ b1 + 1))
    (MemPool.mk (<[o := Order.create id px remaining side type ts]> (storage b1))
                (tail (free_list b1))
                (wrap_u64 (MemPool.alloc_cnt_ (pool_ b1) + 1)))
    (<[v := o]> (order_map_ b1)).

Definition add_tail (id : Z) (side : Side) (px : Z) (type : OrdType) (ts : Z)
    (remaining : Z) (b1 : OrderBook.t) : option (AddResult * OrderBook.t) :=
  if decide (type = IOC ∨ type = Market) then Some (Ok, b1) else
  if decide (remaining ≤ 0) then Some (Ok, b1) else
  match MemPool.alloc (pool_ b1) with
  | (None, _) => Some (PoolExhausted, b1)
  | (Some o, pool1) =>
      let pool2 := MemPool.construct o (Order.create id px remaining side type ts) pool1 in
      let b2 := set_pool pool2 b1 in
      '(inserted, om') ← insert_map (storage b2) o (order_map_ b2);
      if negb inserted then
        Some (DuplicateId, set_pool (MemPool.dealloc o (pool_ b2)) b2)
      else
        let b3 := set_order_map om' b2 in
        level ← level_ref b3 px;
        level' ← PriceLevel.push_back (storage b3) o level;
        let b4 := set_level px level' b3 in
        let b5 := set_total_orders (wrap_u64 (total_orders_ b4 + 1)) b4 in
        Some (Ok,
              match side with
              | Buy => if decide (best_bid_ b5 < px) then set_best_bid px b5 else b5
              | Sell => if decide (px < best_ask_ b5) then set_best_ask px b5 else b5
              end)
  end.

Lemma add_unfold id side px qty type ts b :
  add id side px qty type ts b =
    found ← lookup id b;
    if decide (found ≠ None) then Some (DuplicateId, b) else
    if decide (qty ≤ 0) then Some (InvalidQty, b) else
    if decide (px < 0 ∨ MaxPrice < px) then Some (InvalidPrice, b) else
    '(remaining, b1) ← cross side px qty b;
    add_tail id side px type ts remaining b1.
Proof. reflexivity. Qed.

Lemma lvl_rested id side px remaining type ts o v vb va b1 q :
  lvl (rested id side px remaining type ts o v vb va b1) q =
    if decide (px = q)
    then PriceLevel.mk (PriceLevel.orders (lvl b1 px) ++ [o])
           (wrap_u64 (PriceLevel.order_cnt (lvl b1 px) + 1))
           (wrap_i64 (PriceLevel.total_qty (lvl b1 px) + remaining))
    else lvl b1 q.
Proof. unfold lvl at 1, rested. simpl. rewrite lookup_insert. by case_decide. Qed.

Lemma rested_wf id side px remaining type ts o rest v vb va b1 :
  wf b1 → free_list b1 = o :: rest →
  (∀ x xo, storage b1 !! x = Some xo → Order.id xo ≠ id) →
  0 ≤ px ≤ MaxPrice → 0 < remaining < 2 ^ 63 →
  order_map_ b1 !! v = None →
  tbl_ok (<[o := Order.create id px remaining side type ts]> (storage b1))
         (<[v := o]> (order_map_ b1)) →
  (vb = best_bid_ b1 ∨ vb = px) → (va = best_ask_ b1 ∨ va = px) →
  best_bid_ b1 ≤ vb → va ≤ best_ask_ b1 → vb < va →
  (side = Buy → px ≤ vb) → (side = Sell → va ≤ px) →
  wf (rested id side px remaining type ts o v vb va b1).
Proof.
  intros [Hinv Hbt Hat] Hfree Hfresh Hpx Hrem Hv Htbl Hvb Hva Hvb1 Hva1 Hcross Hbuy Hsell.
  set (new := Order.create id px remaining side type ts) in *.
  set (b' := rested id side px remaining type ts o v vb va b1).
  pose proof (inv_free_nodup _ _ Hinv) as Hnd. rewrite Hfree in Hnd.
  apply NoDup_cons in Hnd as [Ho_rest Hnd_rest].
  assert (storage b1 !! o = None) as Ho_fresh.
  { apply (inv_free_fresh _ _ Hinv). rewrite Hfree. apply list_elem_of_here. }
  pose proof (inv_size _ _ Hinv) as Hsz. rewrite Hfree in Hsz. simpl in Hsz.
  pose proof (inv_bid_lo _ _ Hinv). pose proof (inv_ask_hi _ _ Hinv).
  assert (∀ q, o ∉ PriceLevel.orders (lvl b1 q)) as Ho_unlinked.
  { intros q Hin. destruct (lv_mem _ _ _ (inv_levels _ _ Hinv q) o Hin) as (? & ? & _).
    congruence. }
  pose proof (level_length_le _ _ px Hinv) as Hlen.
  assert (inv None b') as Hinv'.
  { split; unfold free_list, storage; simpl.
    - by rewrite Hfree.
    - rewrite Hfree. simpl. intros x Hx.
      rewrite lookup_insert_ne by (intros ->; done).
      apply (inv_free_fresh _ _ Hinv). rewrite Hfree. by apply list_elem_of_further.
    - rewrite map_size_insert_None by done.
      rewrite Hfree. simpl. lia.
    - rewrite map_size_insert_None by done. rewrite (inv_alloc _ _ Hinv).
      rewrite wrap_u64_id; unfold is_u64; lia.
    - rewrite map_size_insert_None by done. rewrite (inv_total _ _ Hinv).
      rewrite wrap_u64_id; unfold is_u64; lia.
    - exact Htbl.
    - intros x. rewrite lookup_insert_is_Some. rewrite <- (inv_live _ _ Hinv x).
      split.
      + intros [j Hj]. rewrite lookup_insert in Hj. case_decide.
        * left. congruence.
        * destruct (decide (o = x)); [by left|right]. split; [done|by exists j].
      + intros [->|[Hne [j Hj]]].
        * exists v. apply lookup_insert_eq.
        * exists j. rewrite lookup_insert_ne; [done|]. intros ->. congruence.
    - rewrite !map_size_insert_None by done. f_equal. apply (inv_tbl_size _ _ Hinv).
    - intros q. fold b'. unfold b'. rewrite lvl_rested.
      pose proof (inv_levels _ _ Hinv q) as [Hnd Hcnt Hqty Hmem].
      case_decide as Hq; [subst q|]; split; simpl.
      + apply NoDup_app. split_and!; [done| |apply NoDup_singleton].
        intros x Hx Hx'%list_elem_of_singleton. subst x. by eapply Ho_unlinked.
      + rewrite Hcnt, length_app. simpl.
        rewrite wrap_u64_id; unfold is_u64; lia.
      + rewrite Hqty, wrap_i64_add_l. f_equal.
        rewrite sum_qty_app. simpl.
        rewrite sum_qty_insert_notin by apply Ho_unlinked.
        rewrite qty_at_insert, decide_True by done. simpl. lia.
      + intros x [Hx|Hx%list_elem_of_singleton]%elem_of_app; [|subst x].
        * destruct (Hmem x Hx) as (xo & Hxo & Hxp). exists xo.
          rewrite lookup_insert_ne; [done|]. intros ->. congruence.
        * exists new. by rewrite lookup_insert_eq.
      + done.
      + done.
      + rewrite Hqty. f_equal. symmetry. apply sum_qty_insert_notin, Ho_unlinked.
      + intros x Hx. destruct (Hmem x Hx) as (xo & Hxo & Hxp). exists xo.
        rewrite lookup_insert_ne; [done|]. intros ->. congruence.
    - intros x xo. rewrite lookup_insert. case_decide as Hx.
      + intros [= <-]. subst x. fold b'. split; simpl; try lia; try done.
        unfold b'. rewrite lvl_rested, decide_True by done. simpl.
        apply elem_of_app. right. apply list_elem_of_here.
      + intros Hxo. pose proof (inv_orders _ _ Hinv x xo Hxo) as Hok.
        fold b'. split; try apply Hok.
        * unfold b'. rewrite lvl_rested. case_decide as Hq; [|apply Hok].
          simpl. apply elem_of_app. left. rewrite Hq. apply Hok.
        * simpl. intros Hs. pose proof (ok_buy _ _ _ _ Hok Hs). lia.
        * simpl. intros Hs. pose proof (ok_sell _ _ _ _ Hok Hs). lia.
    - lia.
    - lia.
    - lia. }
  split; [done|..].
  - unfold bid_tight. change (best_bid_ b') with vb. unfold b'. rewrite lvl_rested.
    intros Hvb0. case_decide as Hq; simpl.
    + intros Hnil. by apply app_eq_nil in Hnil as [_ ?].
    + destruct Hvb as [->| ->]; [by apply Hbt|done].
  - unfold ask_tight. change (best_ask_ b') with va. unfold b'. rewrite lvl_rested.
    intros Hva0. case_decide as Hq; simpl.
    + intros Hnil. by apply app_eq_nil in Hnil as [_ ?].
    + destruct Hva as [->| ->]; [by apply Hat|done].
Qed.

Lemma add_tail_no_rest id side px type ts remaining b1 :
  type ≠ Limit ∨ remaining ≤ 0 →
  add_tail id side px type ts remaining b1 = Some (Ok, b1).
Proof.
  clear HP HM HM64 Hgas.
  intros Hc. unfold add_tail. case_decide as Hio; [done|].
  rewrite decide_True; [done|]. destruct Hc as [Hc|Hc]; [|done].
  destruct type; [done|destruct Hio; by right|destruct Hio; by left].
Qed.

Lemma add_tail_exhausted id side px ts remaining b1 :
  0 < remaining → free_list b1 = [] →
  add_tail id side px Limit ts remaining b1 = Some (PoolExhausted, b1).
Proof.
  intros Hrem Hfree. unfold add_tail.
  rewrite decide_False by (intros [?|?]; done).
  rewrite decide_False by lia.
  unfold MemPool.alloc. unfold free_list in Hfree. by rewrite Hfree.
Qed.

Definition rest_bid (side : Side) (px : Z) (b1 : OrderBook.t) : Z :=
  match side with Buy => Z.max (best_bid_ b1) px | Sell => best_bid_ b1 end.
Definition rest_ask (side : Side) (px : Z) (b1 : OrderBook.t) : Z :=
  match side with Buy => best_ask_ b1 | Sell => Z.min (best_ask_ b1) px end.

Lemma add_tail_rest id side px ts remaining o rest b1 :
  wf b1 → 0 < remaining < 2 ^ 63 → 0 ≤ px ≤ MaxPrice →
  free_list b1 = o :: rest →
  (∀ x xo, storage b1 !! x = Some xo → Order.id xo ≠ id) →
  (side = Buy → px < best_ask_ b1) → (side = Sell → best_bid_ b1 < px) →
  ∃ v, order_map_ b1 !! v = None ∧
    add_tail id side px Limit ts remaining b1
      = Some (Ok, rested id side px remaining Limit ts o v
                    (rest_bid side px b1) (rest_ask side px b1) b1) ∧
    wf (rested id side px remaining Limit ts o v
          (rest_bid side px b1) (rest_ask side px b1) b1).
Proof.
  intros Hwf Hrem Hpx Hfree Hfresh Hbuy Hsell.
  pose proof (wf_inv _ Hwf) as Hinv.
  set (new := Order.create id px remaining side Limit ts).
  assert (storage b1 !! o = None) as Ho_fresh.
  { apply (inv_free_fresh _ _ Hinv). rewrite Hfree. apply list_elem_of_here. }
  pose proof (inv_size _ _ Hinv) as Hsz. rewrite Hfree in Hsz. simpl in Hsz.
  pose proof (inv_uncrossed _ _ Hinv).
  assert (tbl_ok (<[o := new]> (storage b1)) (order_map_ b1)) as Htbl1.
  { eapply tbl_ok_ext; [|apply (inv_tbl _ _ Hinv)].
    intros i x Hx. unfold key. rewrite lookup_insert_ne; [done|]. intros ->.
    destruct (proj1 (inv_live _ _ Hinv x)) as [? ?]; [by exists i|congruence]. }
  destruct (insert_map_ok MaxOrders gas HM (<[o := new]> (storage b1)) (order_map_ b1) o id)
    as (v & Hv & Hins & Htbl); [apply gas_M|done| | | |].
  { unfold key. by rewrite lookup_insert_eq. }
  { intros i x Hx. destruct (proj1 (inv_live _ _ Hinv x)) as [xo Hxo]; [by exists i|].
    unfold key. rewrite lookup_insert_ne by congruence. rewrite Hxo. simpl.
    intros [= Heq]. by eapply Hfresh. }
  { apply tbl_vacancy; [done|]. rewrite (inv_tbl_size _ _ Hinv). lia. }
  exists v. split; [done|]. split.
  - unfold add_tail.
    rewrite decide_False by (intros [?|?]; done).
    rewrite decide_False by lia.
    unfold MemPool.alloc. unfold free_list in Hfree. rewrite Hfree.
    cbv zeta.
    change (storage (set_pool _ b1)) with (<[o := new]> (storage b1)).
    change (order_map_ (set_pool _ b1)) with (order_map_ b1).
    rewrite Hins. simpl. rewrite level_ref_in by done. simpl.
    unfold PriceLevel.push_back.
    change (storage (set_order_map _ _)) with (<[o := new]> (storage b1)).
    rewrite lookup_insert_eq. simpl.
    do 2 f_equal. unfold rested, rest_bid, rest_ask, free_list. rewrite Hfree.
    destruct b1 as [ls bb ba tot [st fr cnt] om]. simpl in *.
    destruct side; case_decide;
      unfold set_best_bid, set_best_ask, set_total_orders, set_level, set_levels,
        set_order_map, set_pool, lvl, MemPool.construct; simpl; f_equal; lia.
  - destruct side.
    + specialize (Hbuy eq_refl).
      eapply rested_wf; eauto; unfold rest_bid, rest_ask; try lia;
        try (intros; lia); try (intros; done).
    + specialize (Hsell eq_refl).
      eapply rested_wf; eauto; unfold rest_bid, rest_ask; try lia;
        try (intros; lia); try (intros; done).
Qed.

Definition crosses (side : Side) (px : Z) (b : OrderBook.t) : Prop :=
  match side with
  | Buy => best_ask_ b ≤ px
  | Sell => px ≤ best_bid_ b
  end.

#[global] Instance crosses_dec side px b : Decision (crosses side px b).
Proof. destruct side; simpl; apply _. Defined.

Lemma cross_no_match side px qty b :
  ¬ crosses side px b → cross side px qty b = Some (qty, b).
Proof. unfold crosses, cross. destruct side; intros Hc; by rewrite decide_False. Qed.

Lemma cross_ok side px qty b :
  wf b → 0 < qty < 2 ^ 63 → 0 ≤ px ≤ MaxPrice →
  ∃ rem b1, cross side px qty b = Some (rem, b1) ∧ wf b1 ∧
    0 ≤ rem ≤ qty ∧ shrinks b b1 ∧
    (0 < rem → ¬ crosses side px b1) ∧
    (¬ crosses side px b → rem = qty ∧ b1 = b) ∧
    (0 < rem → free_list b1 = [] → rem = qty ∧ b1 = b).
Proof.
  intros [Hinv Hbt Hat] Hq Hpx.
  pose proof (inv_bid_lo _ _ Hinv). pose proof (inv_ask_hi _ _ Hinv).
  pose proof (inv_uncrossed _ _ Hinv).
  destruct (decide (crosses side px b)) as [Hc|Hc].
  2:{ exists qty, b. rewrite cross_no_match by done.
      split_and!; try done; try lia. apply shrinks_refl. }
  unfold cross, crosses in *. destruct side; rewrite decide_True by done; simpl.
  - destruct (match_buy_loop_ok gas qty px b)
      as (q' & b' & Hrun & Hinv' & Hbid' & Hask' & Hbb' & Hba' & Hdone' & Hrange' & _
            & Hfree' & Hprog' & Hsh'); [done|done|lia|lia|].
    exists q', b'. rewrite Hrun. split_and!; try done; try lia.
    + split; [done|done|by apply Hask'].
    + intros Hfree Hnil. destruct Hprog' as [?|?]; (done || lia).
  - destruct (match_sell_loop_ok gas qty px b)
      as (q' & b' & Hrun & Hinv' & Hask' & Hbid' & Hba' & Hbb' & Hdone' & Hrange' & _
            & Hfree' & Hprog' & Hsh'); [done|done|lia|lia|].
    exists q', b'. rewrite Hrun. split_and!; try done; try lia.
    + split; [done|by apply Hbid'|done].
    + intros Hfree Hnil. destruct Hprog' as [?|?]; (done || lia).
Qed.

Lemma shrinks_fresh b b1 id :
  shrinks b b1 → (∀ o ord, storage b !! o = Some ord → Order.id ord ≠ id) →
  ∀ o ord, storage b1 !! o = Some ord → Order.id ord ≠ id.
Proof.
  intros Hsh Hfresh o ord Ho. destruct (Hsh o ord Ho) as (ord0 & Ho0 & Hid & _).
  rewrite Hid. by eapply Hfresh.
Qed.

(** The complete case analysis of [add] on a well-formed book. *)
Inductive add_outcome (id : Z) (side : Side) (px qty : Z) (type : OrdType) (ts : Z)
    (b : OrderBook.t) : AddResult → OrderBook.t → Prop :=
| add_duplicate o ord :
    storage b !! o = Some ord → Order.id ord = id →
    add_outcome id side px qty type ts b DuplicateId b
| add_invalid_qty :
    lookup id b = Some None → qty ≤ 0 →
    add_outcome id side px qty type ts b InvalidQty b
| add_invalid_price :
    lookup id b = Some None → 0 < qty → (px < 0 ∨ MaxPrice < px) →
    add_outcome id side px qty type ts b InvalidPrice b
| add_not_rested rem b1 :
    lookup id b = Some None → 0 < qty → 0 ≤ px ≤ MaxPrice →
    cross side px qty b = Some (rem, b1) →
    type ≠ Limit ∨ rem ≤ 0 →
    add_outcome id side px qty type ts b Ok b1
| add_exhausted :
    lookup id b = Some None → 0 < qty → 0 ≤ px ≤ MaxPrice →
    cross side px qty b = Some (qty, b) →
    type = Limit → free_list b = [] →
    add_outcome id side px qty type ts b PoolExhausted b
| add_rested rem b1 o rest v :
    lookup id b = Some None → 0 < qty → 0 ≤ px ≤ MaxPrice →
    cross side px qty b = Some (rem, b1) → wf b1 →
    type = Limit → 0 < rem ≤ qty →
    ¬ crosses side px b1 →
    free_list b1 = o :: rest → storage b1 !! o = None →
    order_map_ b1 !! v = None →
    add_outcome id side px qty type ts b Ok
      (rested id side px rem Limit ts o v (rest_bid side px b1) (rest_ask side px b1) b1).

Lemma add_spec id side px qty type ts b :
  wf b → qty < 2 ^ 63 →
  ∃ r b', add id side px qty type ts b = Some (r, b') ∧ wf b' ∧
          add_outcome id side px qty type ts b r b'.
Proof.
  intros Hwf Hq. pose proof (wf_inv _ Hwf) as Hinv.
  rewrite add_unfold.
  destruct (lookup_total None b id Hinv) as [found Hl]. rewrite Hl. simpl.
  destruct found as [o|].
  { rewrite decide_True by done.
    destruct (lookup_Some_inv _ _ _ _ Hinv Hl) as (ord & Ho & Hid).
    exists DuplicateId, b. split_and!; [done|done|]. by eapply add_duplicate. }
  rewrite decide_False by (intros ?; done).
  case_decide as Hqty.
  { exists InvalidQty, b. split_and!; [done|done|]. by apply add_invalid_qty. }
  case_decide as Hprice.
  { exists InvalidPrice, b. split_and!; [done|done|]. apply add_invalid_price; (done || lia). }
  pose proof (lookup_None_inv _ _ _ Hinv Hl) as Hfresh.
  destruct (cross_ok side px qty b) as (rem & b1 & Hcross & Hwf1 & Hrem & Hsh & Hnc & _ & Hfull);
    [done|lia|lia|].
  rewrite Hcross. simpl.
  destruct (decide (type ≠ Limit ∨ rem ≤ 0)) as [Hnr|Hr].
  { rewrite add_tail_no_rest by done. exists Ok, b1. split_and!; [done|done|].
    eapply add_not_rested; eauto; lia. }
  assert (type = Limit) as ->.
  { destruct type; [done|destruct Hr; by left..]. }
  assert (0 < rem) as Hrem0 by lia.
  destruct (free_list b1) as [|o rest] eqn:Hfree.
  { destruct (Hfull Hrem0 eq_refl) as [-> ->].
    rewrite add_tail_exhausted by done.
    exists PoolExhausted, b. split_and!; [done|done|].
    apply add_exhausted; (done || lia). }
  destruct (add_tail_rest id side px ts rem o rest b1) as (v & Hv & Hrun & Hwf');
    [done|lia|lia|done|by eapply shrinks_fresh| | |].
  { intros ->. specialize (Hnc Hrem0). unfold crosses in Hnc. lia. }
  { intros ->. specialize (Hnc Hrem0). unfold crosses in Hnc. lia. }
  rewrite Hrun. eexists _, _. split_and!; [done|done|].
  eapply add_rested; eauto; try lia.
  apply (inv_free_fresh _ _ (wf_inv _ Hwf1)). rewrite Hfree. apply list_elem_of_here.
Qed.

(** *** cancel *)

Inductive cancel_outcome (id : Z) (b : OrderBook.t) : bool → OrderBook.t → Prop :=
| cancel_miss :
    lookup id b = Some None → cancel_outcome id b false b
| cancel_hit o ord b' :
    storage b !! o = Some ord → Order.id ord = id →
    storage b' = delete o (storage b) →
    free_list b' = o :: free_list b →
    (∀ q, q ≠ Order.price ord → lvl b' q = lvl b q) →
    PriceLevel.orders (lvl b' (Order.price ord))
      = filter (λ x, x ≠ o) (PriceLevel.orders (lvl b (Order.price ord))) →
    best_bid_ b' ≤ best_bid_ b → best_ask_ b ≤ best_ask_ b' →
    (∀ q, best_bid_ b' < q ≤ best_bid_ b → PriceLevel.orders (lvl b' q) = []) →
    (∀ q, best_ask_ b ≤ q < best_ask_ b' → PriceLevel.orders (lvl b' q) = []) →
    cancel_outcome id b true b'.

Lemma cancel_spec id b :
  wf b →
  ∃ r b', cancel id b = Some (r, b') ∧ wf b' ∧ cancel_outcome id b r b'.
Proof.
  intros [Hinv Hbt Hat]. unfold cancel.
  destruct (lookup_total None b id Hinv) as [found Hl]. rewrite Hl. simpl.
  destruct found as [o|].
  2:{ exists false, b. split_and!; [done|done|]. by apply cancel_miss. }
  destruct (lookup_Some_inv _ _ _ _ Hinv Hl) as (ord & Ho & Hid).
  rewrite Ho. simpl.
  pose proof (inv_orders _ _ Hinv o ord Ho) as Hord.
  pose proof (inv_uncrossed _ _ Hinv) as Hunc.
  destruct (remove_from_book_ok o ord b (inv_weaken _ _ Hinv) Ho)
    as (b1 & Hrm & Hinv1 & Hbid1 & Hask1 & Hst1 & Hfree1 & Hother1 & Horders1).
  rewrite Hrm. simpl.
  destruct (Order.side ord) eqn:Hside.
  - pose proof (ok_buy _ _ _ _ Hord Hside) as Hle.
    assert (ask_tight b1) as Hat1.
    { unfold ask_tight. rewrite Hask1, Hother1 by lia. apply Hat. }
    case_decide as Hbest.
    + destruct (update_best_bid_ok None b1 Hinv1)
        as (v & Hup & Hinv2 & Htight2 & Hge & _ & Hgap).
      rewrite Hup. simpl. exists true, (set_best_bid v b1).
      split_and!; [done|by split|].
      eapply cancel_hit; eauto; simpl; try lia.
      intros q Hq. apply Hgap. lia.
    + exists true, b1. split_and!; [done| |].
      * split; [done| |done]. unfold bid_tight.
        rewrite Hbid1, Hother1 by congruence. apply Hbt.
      * eapply cancel_hit; eauto; try lia; intros q Hq; lia.
  - pose proof (ok_sell _ _ _ _ Hord Hside) as Hle.
    assert (bid_tight b1) as Hbt1.
    { unfold bid_tight. rewrite Hbid1, Hother1 by lia. apply Hbt. }
    case_decide as Hbest.
    + destruct (update_best_ask_ok None b1 Hinv1)
        as (a & Hup & Hinv2 & Htight2 & Hge & _ & Hgap).
      rewrite Hup. simpl. exists true, (set_best_ask a b1).
      split_and!; [done|by split|].
      eapply cancel_hit; eauto; simpl; try lia.
      intros q Hq. apply Hgap. lia.
    + exists true, b1. split_and!; [done| |].
      * split; [done|done|]. unfold ask_tight.
        rewrite Hask1, Hother1 by congruence. apply Hat.
      * eapply cancel_hit; eauto; try lia; intros q Hq; lia.
Qed.

(** *** match *)

Lemma match_spec aggressor qty b :
  wf b → qty < 2 ^ 63 →
  ∃ q' b', match_ aggressor qty b = Some (q', b') ∧ wf b' ∧
    shrinks b b' ∧ (0 < qty → 0 ≤ q' ≤ qty) ∧ (qty ≤ 0 → q' = qty ∧ b' = b) ∧
    best_bid_ b' ≤ best_bid_ b ∧ best_ask_ b ≤ best_ask_ b' ∧
    (0 < q' → match aggressor with
              | Buy => best_ask_ b' = MaxPrice + 1
              | Sell => best_bid_ b' = -1
              end).
Proof.
  intros [Hinv Hbt Hat] Hq.
  pose proof (inv_bid_lo _ _ Hinv). pose proof (inv_ask_hi _ _ Hinv).
  pose proof (inv_uncrossed _ _ Hinv).
  unfold match_, match_internal. destruct aggressor.
  - destruct (match_buy_loop_ok gas qty MaxPrice b)
      as (q' & b' & Hrun & Hinv' & Hbid' & Hask' & Hbb' & Hba' & Hdone' & Hrange' & Hnop'
            & _ & _ & Hsh'); [done|done|lia|lia|].
    pose proof (inv_ask_hi _ _ Hinv').
    exists q', b'. split_and!; try done; try lia.
    + split; [done|done|by apply Hask'].
    + intros Hle. apply Hnop'. lia.
  - destruct (match_sell_loop_ok gas qty 0 b)
      as (q' & b' & Hrun & Hinv' & Hask' & Hbid' & Hba' & Hbb' & Hdone' & Hrange' & Hnop'
            & _ & _ & Hsh'); [done|done|lia|lia|].
    pose proof (inv_bid_lo _ _ Hinv').
    exists q', b'. split_and!; try done; try lia.
    + split; [done|by apply Hbid'|done].
    + intros Hle. apply Hnop'. lia.
Qed.

Lemma add_outcome_ok_inv id side px qty type ts b b' :
  add_outcome id side px qty type ts b Ok b' →
  ∃ rem b1, lookup id b = Some None ∧ 0 < qty ∧ 0 ≤ px ≤ MaxPrice ∧
    cross side px qty b = Some (rem, b1) ∧
    ((type ≠ Limit ∨ rem ≤ 0) ∧ b' = b1 ∨
     type = Limit ∧ 0 < rem ≤ qty ∧ wf b1 ∧ ¬ crosses side px b1 ∧
     ∃ o rest v, free_list b1 = o :: rest ∧ storage b1 !! o = None ∧
       order_map_ b1 !! v = None ∧
       b' = rested id side px rem Limit ts o v
              (rest_bid side px b1) (rest_ask side px b1) b1).
Proof.
  inversion 1; subst.
  - exists rem, b'. do 4 (split; [done|]). by left.
  - exists rem, b1. do 4 (split; [done|]). right.
    do 4 (split; [done|]). by exists o, rest, v.
Qed.

Lemma cancel_outcome_inv id b r b' :
  cancel_outcome id b r b' →
  (r = false ∧ b' = b ∧ lookup id b = Some None) ∨
  (r = true ∧ ∃ o ord,
     storage b !! o = Some ord ∧ Order.id ord = id ∧
     storage b' = delete o (storage b) ∧
     free_list b' = o :: free_list b ∧
     (∀ q, q ≠ Order.price ord → lvl b' q = lvl b q) ∧
     PriceLevel.orders (lvl b' (Order.price ord))
       = filter (λ x, x ≠ o) (PriceLevel.orders (lvl b (Order.price ord))) ∧
     best_bid_ b' ≤ best_bid_ b ∧ best_ask_ b ≤ best_ask_ b' ∧
     (∀ q, best_bid_ b' < q ≤ best_bid_ b → PriceLevel.orders (lvl b' q) = []) ∧
     (∀ q, best_ask_ b ≤ q < best_ask_ b' → PriceLevel.orders (lvl b' q) = [])).
Proof.
  destruct 1 as [Hl|o ord b' Ho Hid Hst Hfree Hother Horders Hbb Hba Hgb Hga].
  - left. by split_and!.
  - right. split; [done|]. exists o, ord. by split_and!.
Qed.

(** * Reachable states *)

Inductive Op :=
| OpAdd (id : Z) (side : Side) (px qty : Z) (type : OrdType) (ts : Z)
| OpCancel (id : Z)
| OpMatch (aggressor : Side) (qty : Z).

(** Arguments as the C++ types admit them. *)
Definition well_typed (op : Op) : Prop :=
  match op with
  | OpAdd id _ px qty _ ts => is_u64 id ∧ is_i64 px ∧ is_i64 qty ∧ is_u64 ts
  | OpCancel id => is_u64 id
  | OpMatch _ qty => is_i64 qty
  end.

Definition step (op : Op) (b : OrderBook.t) : option OrderBook.t :=
  match op with
  | OpAdd id side px qty type ts => snd <$> add id side px qty type ts b
  | OpCancel id => snd <$> cancel id b
  | OpMatch aggressor qty => snd <$> match_ aggressor qty b
  end.

Inductive reachable : OrderBook.t → Prop :=
| reach_init : reachable empty_book
| reach_step op b b' :
    reachable b → well_typed op → step op b = Some b' → reachable b'.

Lemma step_wf op b :
  wf b → well_typed op → ∃ b', step op b = Some b' ∧ wf b'.
Proof.
  intros Hwf Hty. destruct op as [id side px qty type ts|id|aggressor qty]; simpl in *.
  - destruct Hty as (_ & _ & [_ Hq] & _).
    destruct (add_spec id side px qty type ts b Hwf Hq) as (r & b' & -> & Hwf' & _).
    by exists b'.
  - destruct (cancel_spec id b Hwf) as (r & b' & -> & Hwf' & _). by exists b'.
  - destruct Hty as [_ Hq].
    destruct (match_spec aggressor qty b Hwf Hq) as (q' & b' & -> & Hwf' & _).
    by exists b'.
Qed.

Lemma reachable_wf b : reachable b → wf b.
Proof.
  induction 1 as [|op b b' _ IH Hty Hstep]; [apply wf_empty_book|].
  destruct (step_wf op b IH Hty) as (b2 & Hstep2 & Hwf2). congruence.
Qed.

(** * The claims *)

Definition not_crossed (b : OrderBook.t) : Prop :=
  bid b < ask b ∧ NO_BID ≤ bid b ∧ ask b ≤ NO_ASK MaxPrice ∧
  crossed MaxPrice b = false.

Lemma wf_not_crossed b : wf b → not_crossed b.
Proof.
  intros [Hinv _ _]. pose proof (inv_bid_lo _ _ Hinv).
  pose proof (inv_ask_hi _ _ Hinv). pose proof (inv_uncrossed _ _ Hinv).
  unfold not_crossed, bid, ask, NO_BID, NO_ASK, crossed. split_and!; try done.
  rewrite (bool_decide_eq_false_2 (best_ask_ b ≤ best_bid_ b)) by lia.
  by rewrite andb_false_r.
Qed.

(** C1. In every reachable state of the engine the book is not crossed:
    [best_bid < best_ask], with the sentinels [NO_BID = -1] and
    [NO_ASK = MaxPrice + 1] standing for an absent side; and every public
    call (add, cancel, match) made in such a state returns and leaves the
    book not crossed. *)
Theorem C1_book_never_crossed b :
  reachable b →
  not_crossed b ∧
  ∀ op, well_typed op → ∃ b', step op b = Some b' ∧ not_crossed b'.
Proof.
  intros Hr. pose proof (reachable_wf b Hr) as Hwf. split.
  - by apply wf_not_crossed.
  - intros op Hty. destruct (step_wf op b Hwf Hty) as (b' & Hstep & Hwf').
    exists b'. split; [done|]. by apply wf_not_crossed.
Qed.

(** C2. An [add] that returns [PoolExhausted] leaves the book exactly as
    it was: the whole state is unchanged, hence so are [order_count],
    [pool_used], the best prices, every level and every resting order. *)
Theorem C2_pool_exhausted_no_mutation id side px qty type ts b b' :
  reachable b → is_i64 qty →
  add id side px qty type ts b = Some (PoolExhausted, b') →
  b' = b ∧
  order_count b' = order_count b ∧ pool_used b' = pool_used b ∧
  bid b' = bid b ∧ ask b' = ask b ∧
  (∀ p, level_at MaxPrice p b' = level_at MaxPrice p b) ∧
  storage b' = storage b.
Proof.
  intros Hr [_ Hq] Hadd. pose proof (reachable_wf b Hr) as Hwf.
  destruct (add_spec id side px qty type ts b Hwf Hq) as (r & b2 & Hadd2 & _ & Hout).
  rewrite Hadd in Hadd2. injection Hadd2 as <- <-.
  assert (b' = b) as -> by (by inversion Hout).
  by split_and!.
Qed.

(** C8. [add] checks its preconditions in a fixed order and returns the
    first that fails, without touching the book: [DuplicateId] when the id
    is live, otherwise [InvalidQty] when [qty <= 0], otherwise
    [InvalidPrice] when the price is outside [0, MaxPrice] (so at [-1] and
    at [MaxPrice + 1]). A price inside the range (so [0] and [MaxPrice])
    passes validation: the call returns [Ok], or [PoolExhausted] when
    the order has to rest and no pool slot is free. *)
Theorem C8_add_validation_order id side px qty type ts b :
  reachable b → is_i64 qty →
  ((∃ o ord, storage b !! o = Some ord ∧ Order.id ord = id) →
     add id side px qty type ts b = Some (DuplicateId, b)) ∧
  ((∀ o ord, storage b !! o = Some ord → Order.id ord ≠ id) →
     (qty ≤ 0 → add id side px qty type ts b = Some (InvalidQty, b)) ∧
     (0 < qty → px < 0 ∨ MaxPrice < px →
        add id side px qty type ts b = Some (InvalidPrice, b)) ∧
     (0 < qty →
        add id side (-1) qty type ts b = Some (InvalidPrice, b) ∧
        add id side (MaxPrice + 1) qty type ts b = Some (InvalidPrice, b)) ∧
     (0 < qty → ∀ px', px' = 0 ∨ px' = MaxPrice →
        ∃ r b', add id side px' qty type ts b = Some (r, b') ∧
                (r = Ok ∨ r = PoolExhausted ∧ free_list b = []))).
Proof.
  intros Hr [_ Hq]. pose proof (reachable_wf b Hr) as Hwf.
  pose proof (wf_inv _ Hwf) as Hinv.
  assert (∀ px', (∀ o ord, storage b !! o = Some ord → Order.id ord ≠ id) →
            0 < qty → px' < 0 ∨ MaxPrice < px' →
            add id side px' qty type ts b = Some (InvalidPrice, b)) as Hbad.
  { intros px' Hfresh Hpos Hout. rewrite add_unfold.
    rewrite (lookup_absent None) by done. simpl.
    rewrite decide_False by lia. by rewrite decide_True. }
  split.
  - intros (o & ord & Ho & Hid). rewrite add_unfold. subst id.
    by rewrite (lookup_live None b o ord) by done.
  - intros Hfresh. split_and!.
    + intros Hle. rewrite add_unfold.
      rewrite (lookup_absent None) by done. simpl.
      by rewrite decide_True.
    + by apply Hbad.
    + intros Hpos. split; apply Hbad; (done || lia).
    + intros Hpos px' Hpx'.
      destruct (add_spec id side px' qty type ts b Hwf Hq) as (r & b' & Hadd & _ & Hout).
      exists r, b'. split; [done|].
      inversion Hout; subst; try (by left); try lia.
      * exfalso. by eapply Hfresh.
      * right. done.
Qed.

(** C4. In every reachable state the order index is consistent with the
    resting orders: [get_order id] returns the order with that id when
    one rests in the book (and that order is linked in the level of its
    price), and misses otherwise; and removing an entry from the index
    keeps every other entry reachable by [lookup]. *)
Theorem C4_index_consistent b id :
  reachable b →
  (∀ o ord, storage b !! o = Some ord → Order.id ord = id →
     get_order id b = Some (Some o) ∧
     o ∈ PriceLevel.orders (lvl b (Order.price ord))) ∧
  ((∀ o ord, storage b !! o = Some ord → Order.id ord ≠ id) →
     get_order id b = Some None) ∧
  (∀ o, get_order id b = Some (Some o) →
     ∃ ord, storage b !! o = Some ord ∧ Order.id ord = id) ∧
  (∀ o ord, storage b !! o = Some ord → Order.id ord = id →
     ∃ om', remove_map (storage b) id (order_map_ b) = Some om' ∧
       (∀ x, in_tbl om' x ↔ in_tbl (order_map_ b) x ∧ x ≠ o) ∧
       (∀ x xo, storage b !! x = Some xo → x ≠ o →
          lookup_map (storage b) om' (Order.id xo) = Some (Some x))).
Proof.
  intros Hr. pose proof (reachable_wf b Hr) as [Hinv _ _]. split_and!.
  - intros o ord Ho <-. split; [by eapply lookup_live|].
    apply (inv_orders _ _ Hinv o ord Ho).
  - intros Hfresh. by eapply lookup_absent.
  - intros o Hl. by eapply lookup_Some_inv.
  - intros o ord Ho <-.
    destruct (live_in_tbl _ _ _ _ Hinv Ho) as (i & Hi & Hk).
    destruct (remove_map_ok MaxOrders gas HM (storage b) (order_map_ b) i o (Order.id ord))
      as (om' & Hrm & Hok' & Hin' & _); [lia|apply Hinv|done|done|].
    exists om'. split_and!; [done|done|].
    intros x xo Hx Hne.
    destruct (proj2 (Hin' x)) as [j Hj].
    { split; [|done]. apply (inv_live _ _ Hinv). by eexists. }
    eapply lookup_map_hit; eauto using gas_M. unfold key. by rewrite Hx.
Qed.

Lemma sum_qty_nonneg ex b (l : list nat) :
  inv ex b → 0 ≤ sum_qty (storage b) l.
Proof.
  intros Hinv. induction l as [|o l IH]; simpl; [done|].
  unfold qty_at. destruct (storage b !! o) as [ord|] eqn:Ho; [|lia].
  pose proof (ok_qty0 _ _ _ _ (inv_orders _ _ Hinv o ord Ho)). lia.
Qed.

(** C5 (amended). In every reachable state and for every price, the
    level's [count] is the number of orders linked in it, these are
    exactly the resting orders of that price, and [total_qty] is the sum
    of their remaining quantities reduced to a signed 64-bit value; it is
    the exact sum whenever that sum is below 2^63. *)
Theorem C5_level_aggregates b px :
  reachable b → 0 ≤ px ≤ MaxPrice →
  ∃ lv, level_at MaxPrice px b = Some lv ∧
    PriceLevel.count lv = Z.of_nat (length (PriceLevel.orders lv)) ∧
    PriceLevel.qty lv = wrap_i64 (sum_qty (storage b) (PriceLevel.orders lv)) ∧
    (sum_qty (storage b) (PriceLevel.orders lv) < 2 ^ 63 →
     PriceLevel.qty lv = sum_qty (storage b) (PriceLevel.orders lv)) ∧
    NoDup (PriceLevel.orders lv) ∧
    (∀ o, o ∈ PriceLevel.orders lv ↔
          ∃ ord, storage b !! o = Some ord ∧ Order.price ord = px).
Proof.
  intros Hr Hpx. pose proof (reachable_wf b Hr) as [Hinv _ _].
  exists (lvl b px). unfold level_at. rewrite level_ref_in by done.
  destruct (inv_levels _ _ Hinv px) as [Hnd Hcnt Hqty Hmem].
  unfold PriceLevel.count, PriceLevel.qty. split_and!; try done.
  - intros Hlt. rewrite Hqty. apply wrap_i64_id. unfold is_i64.
    pose proof (sum_qty_nonneg None b (PriceLevel.orders (lvl b px)) Hinv). lia.
  - intros o. split; [apply Hmem|].
    intros (ord & Ho & <-). apply (inv_orders _ _ Hinv o ord Ho).
Qed.

(** C6. In every reachable state every resting order has
    [0 < qty <= orig_qty]. When an [add] rests an order, the order found
    under its id right after the call has [qty] and [orig_qty] both equal
    to the remainder left by the crossing match (at most the quantity the
    caller supplied); when the [add] returns [Ok] without resting, the id
    is not found. After a successful [cancel] the id is not found. *)
Theorem C6_resting_order_quantities b :
  reachable b →
  (∀ o ord, storage b !! o = Some ord →
     0 < Order.qty ord ≤ Order.orig_qty ord) ∧
  (∀ id side px qty type ts b' rem b1,
     is_i64 qty → add id side px qty type ts b = Some (Ok, b') →
     cross side px qty b = Some (rem, b1) →
     rem ≤ qty ∧
     (type = Limit → 0 < rem →
        get_order_value MaxOrders gas id b'
          = Some (Some (Order.mk id px rem rem ts side Limit))) ∧
     (type ≠ Limit ∨ rem ≤ 0 →
        b' = b1 ∧ get_order_value MaxOrders gas id b' = Some None)) ∧
  (∀ id b', cancel id b = Some (true, b') → get_order id b' = Some None).
Proof.
  intros Hr. pose proof (reachable_wf b Hr) as Hwf.
  pose proof (wf_inv _ Hwf) as Hinv. split_and!.
  - intros o ord Ho. pose proof (inv_orders _ _ Hinv o ord Ho) as Hok.
    split; [by apply (ok_qty _ _ _ _ Hok)|apply Hok].
  - intros id side px qty type ts b' rem b1 [_ Hq] Hadd Hcross.
    destruct (add_spec id side px qty type ts b Hwf Hq) as (r & b2 & Hadd2 & Hwf2 & Hout).
    rewrite Hadd in Hadd2. injection Hadd2 as <- <-.
    unfold get_order_value, get_order.
    destruct (add_outcome_ok_inv _ _ _ _ _ _ _ _ Hout)
      as (rem' & b1' & Hl & Hpos & Hpx & Hcross' & Hcase).
    rewrite Hcross in Hcross'. injection Hcross' as <- <-.
    destruct (cross_ok side px qty b Hwf ltac:(lia) Hpx)
      as (rem2 & b2 & Hc2 & Hwf1 & Hrange & Hsh & _).
    rewrite Hcross in Hc2. injection Hc2 as <- <-.
    split; [lia|].
    destruct Hcase as [[Hnr ->]|(-> & Hrem & _ & _ & o & rest & v & Hfree & Hfr & Hv & ->)].
    + split.
      * intros -> Hrem0. destruct Hnr; [done|lia].
      * intros _. split; [done|].
        rewrite (lookup_absent None b1 id); [done|apply Hwf1|].
        eapply shrinks_fresh; [done|]. by eapply lookup_None_inv.
    + split.
      * intros _ _.
        set (new := Order.create id px rem side Limit ts).
        set (b' := rested _ _ _ _ _ _ _ _ _ _ _) in *.
        assert (storage b' !! o = Some new) as Ho by apply lookup_insert_eq.
        pose proof (lookup_live None b' o new (wf_inv _ Hwf2) Ho) as Hlk.
        simpl in Hlk. rewrite Hlk. simpl. by rewrite Ho.
      * intros [?|?]; [done|lia].
  - intros id b' Hc.
    destruct (cancel_spec id b Hwf) as (r & b2 & Hc2 & Hwf2 & Hout).
    rewrite Hc in Hc2. injection Hc2 as <- <-.
    destruct (cancel_outcome_inv _ _ _ _ Hout)
      as [(? & _)|(_ & o & ord & Ho & Hid & Hst & _)]; [done|].
    unfold get_order. apply (lookup_absent None); [apply Hwf2|].
    intros x xo Hx Heq. rewrite Hst in Hx.
    apply lookup_delete_Some in Hx as [Hne Hx].
    apply Hne. symmetry. eapply id_unique; [apply Hinv|done|done|congruence].
Qed.

Lemma gap_empty b q :
  wf b → best_bid_ b < q < best_ask_ b → PriceLevel.orders (lvl b q) = [].
Proof.
  intros [Hinv _ _] Hq.
  destruct (PriceLevel.orders (lvl b q)) as [|o l] eqn:Hl; [done|exfalso].
  destruct (lv_mem _ _ _ (inv_levels _ _ Hinv q) o) as (ord & Ho & Hp).
  { rewrite Hl. apply list_elem_of_here. }
  pose proof (inv_orders _ _ Hinv o ord Ho) as Hok.
  destruct (Order.side ord) eqn:Hs.
  - pose proof (ok_buy _ _ _ _ Hok Hs). lia.
  - pose proof (ok_sell _ _ _ _ Hok Hs). lia.
Qed.

Lemma level_ok_eq st p lv1 lv2 :
  level_ok st p lv1 → level_ok st p lv2 →
  PriceLevel.orders lv1 = PriceLevel.orders lv2 → lv1 = lv2.
Proof.
  intros [_ Hc1 Hq1 _] [_ Hc2 Hq2 _] Heq.
  destruct lv1, lv2. simpl in *. subst. done.
Qed.

Lemma cancel_absent id b :
  lookup id b = Some None → cancel id b = Some (false, b).
Proof. intros Hl. unfold cancel. by rewrite Hl. Qed.

(** C9 (amended). In every reachable state, an [add] that returns [Ok]
    without crossing (no resting order is matched), followed by
    [cancel] of the same id, returns the book to its prior state:
    [order_count], [pool_used], the best bid and ask, every level (its
    queue, count and total quantity) and the set of resting orders are
    as before the [add]. *)
Theorem C9_add_cancel_round_trip id side px qty type ts b b1 r b2 :
  reachable b → is_i64 qty → ¬ crosses side px b →
  add id side px qty type ts b = Some (Ok, b1) →
  cancel id b1 = Some (r, b2) →
  order_count b2 = order_count b ∧ pool_used b2 = pool_used b ∧
  bid b2 = bid b ∧ ask b2 = ask b ∧
  (∀ p, level_at MaxPrice p b2 = level_at MaxPrice p b) ∧
  storage b2 = storage b ∧
  (r = true ↔ type = Limit).
Proof.
  intros Hr [_ Hq] Hnc Hadd Hcancel. pose proof (reachable_wf b Hr) as Hwf.
  destruct (add_spec id side px qty type ts b Hwf Hq) as (r' & b1' & Hadd' & Hwf1 & Hout).
  rewrite Hadd in Hadd'. injection Hadd' as <- <-.
  destruct (add_outcome_ok_inv _ _ _ _ _ _ _ _ Hout)
    as (rem & b0 & Hl & Hpos & Hpx & Hcross & Hcase).
  rewrite cross_no_match in Hcross by done. injection Hcross as <- <-.
  destruct Hcase as [[Hnr ->]|(-> & Hrem & _ & _ & o & rest & v & Hfree & Hfr & Hv & ->)].
  { rewrite cancel_absent in Hcancel by done. injection Hcancel as <- <-.
    split_and!; try done. split; [done|]. intros ->. destruct Hnr; [done|lia]. }
  set (b1 := rested _ _ _ _ _ _ _ _ _ _ _) in *.
  assert (storage b1 !! o = Some (Order.create id px qty side Limit ts)) as Ho1 by apply lookup_insert_eq.
  destruct (cancel_spec id b1 Hwf1) as (r' & b2' & Hc' & Hwf2 & Hcout).
  rewrite Hcancel in Hc'. injection Hc' as <- <-.
  destruct (cancel_outcome_inv _ _ _ _ Hcout)
    as [(-> & -> & Hmiss)|(-> & o' & ord' & Ho' & Hid' & Hst & Hfree2 & Hother & Horders
                            & Hbb & Hba & Hgb & Hga)].
  { pose proof (lookup_live None b1 o (Order.create id px qty side Limit ts) (wf_inv _ Hwf1) Ho1) as Hlk.
    simpl in Hlk. congruence. }
  assert (o' = o) as ->.
  { eapply (id_unique None b1); [apply Hwf1|done|done|]. by rewrite Hid'. }
  assert (ord' = Order.create id px qty side Limit ts) as -> by congruence.
  assert (storage b2 = storage b) as Hst2.
  { rewrite Hst. apply delete_insert_id. done. }
  pose proof (wf_inv _ Hwf) as Hinv. pose proof (wf_inv _ Hwf2) as Hinv2.
  assert (∀ q, lvl b2 q = lvl b q) as Hlv.
  { intros q. apply (level_ok_eq (storage b) q).
    - rewrite <- Hst2. apply Hinv2.
    - apply Hinv.
    - destruct (decide (q = px)) as [->|Hne].
      + simpl in Horders. rewrite Horders.
        unfold b1. rewrite lvl_rested, decide_True by done. simpl.
        rewrite filter_app, filter_cons_False, filter_nil, app_nil_r
          by (intros Hn; by apply Hn).
        apply filter_ne_notin. intros Hin.
        destruct (lv_mem _ _ _ (inv_levels _ _ Hinv px) o Hin) as (? & ? & _).
        congruence.
      + rewrite Hother by done. unfold b1. rewrite lvl_rested.
        by rewrite decide_False by done. }
  assert (best_bid_ b ≤ best_bid_ b1 ∧ best_ask_ b1 ≤ best_ask_ b ∧
          best_bid_ b1 < best_ask_ b1) as (Hvb & Hva & Hvc).
  { pose proof (inv_uncrossed _ _ (wf_inv _ Hwf1)) as Hunc1.
    assert (best_bid_ b1 = rest_bid side px b) as Hrb by done.
    assert (best_ask_ b1 = rest_ask side px b) as Hra by done.
    rewrite Hrb, Hra in *. unfold rest_bid, rest_ask in *.
    destruct side; clear -Hunc1; lia. }
  pose proof (inv_bid_lo _ _ Hinv2) as Hlo2. pose proof (inv_ask_hi _ _ Hinv2) as Hhi2.
  pose proof (inv_bid_lo _ _ Hinv) as Hlo. pose proof (inv_ask_hi _ _ Hinv) as Hhi.
  assert (best_bid_ b2 = best_bid_ b) as Hbid2.
  { destruct (decide (best_bid_ b < best_bid_ b2)) as [Hgt|Hngt].
    - exfalso. apply (wf_bid _ Hwf2); [lia|]. rewrite Hlv. apply gap_empty; [done|lia].
    - destruct (decide (best_bid_ b2 < best_bid_ b)) as [Hlt|]; [|lia].
      exfalso. apply (wf_bid _ Hwf); [lia|]. rewrite <- Hlv. apply Hgb. lia. }
  assert (best_ask_ b2 = best_ask_ b) as Hask2.
  { destruct (decide (best_ask_ b2 < best_ask_ b)) as [Hlt|Hnlt].
    - exfalso. apply (wf_ask _ Hwf2); [lia|]. rewrite Hlv. apply gap_empty; [done|lia].
    - destruct (decide (best_ask_ b < best_ask_ b2)) as [Hgt|]; [|lia].
      exfalso. apply (wf_ask _ Hwf); [lia|]. rewrite <- Hlv. apply Hga. lia. }
  unfold order_count, pool_used, MemPool.used, bid, ask, level_at, level_ref.
  split_and!; try done.
  - by rewrite (inv_total _ _ Hinv2), (inv_total _ _ Hinv), Hst2.
  - by rewrite (inv_alloc _ _ Hinv2), (inv_alloc _ _ Hinv), Hst2.
  - intros p. case_decide; [|done]. f_equal. apply Hlv.
Qed.

(** C10. [match] with a non-positive quantity returns the quantity
    unchanged and leaves the whole book unchanged: the sweep loop does not
    run and no validation error is raised. *)
Theorem C10_match_nonpositive_is_noop aggressor qty b :
  (0 < gas)%nat → qty ≤ 0 →
  match_ aggressor qty b = Some (qty, b).
Proof.
  clear HP HM HM64 Hgas.
  intros Hg Hq. unfold match_, match_internal.
  destruct aggressor.
  - apply match_buy_loop_stop; [done|lia].
  - apply match_sell_loop_stop; [done|lia].
Qed.

(** Price-time priority, one step of the level fill loop: the head of
    the queue is filled first; a partial fill leaves it at the head with
    its quantity reduced, a complete fill removes it and the loop
    continues with the next order of the queue. *)
Lemma match_level_fifo fuel b px qty o rest ord :
  (2 ≤ fuel)%nat →
  wf b → 0 ≤ px ≤ MaxPrice → 0 < qty < 2 ^ 63 →
  PriceLevel.orders (lvl b px) = o :: rest → storage b !! o = Some ord →
  (qty < Order.qty ord →
     ∃ b', match_level fuel px qty b = Some (0, b') ∧
           PriceLevel.orders (lvl b' px) = o :: rest ∧
           storage b' = <[o := Order.fill qty ord]> (storage b) ∧
           Order.qty (Order.fill qty ord) = Order.qty ord - qty) ∧
  (Order.qty ord ≤ qty →
     ∃ b', match_level fuel px qty b
             = match_level (pred fuel) px (qty - Order.qty ord) b' ∧
           PriceLevel.orders (lvl b' px) = rest ∧
           storage b' = delete o (storage b)).
Proof.
  intros Hfuel [Hinv _ _] Hpx Hq Hl Ho.
  pose proof (inv_orders _ _ Hinv o ord Ho) as Hord.
  pose proof (ok_orig _ _ _ _ Hord). pose proof (ok_orig64 _ _ _ _ Hord).
  assert (px = Order.price ord) as ->.
  { eapply linked_price; [done..|]. rewrite Hl. apply list_elem_of_here. }
  destruct fuel as [|[|g]]; [lia|lia|]. split.
  - intros Hlt. exists (fill_order o ord qty b).
    rewrite (match_level_partial (S g) _ qty b o ord rest) by (done || lia).
    rewrite match_level_nop by (done || lia). split_and!; try done.
    + unfold fill_order. lvl_simpl. rewrite decide_True by done. simpl. done.
    + simpl. apply wrap_i64_id. unfold is_i64. lia.
  - intros Hge.
    destruct (match_level_full (S g) _ qty b o ord rest Hinv Hpx)
      as (b3 & _ & Hrun & _ & _ & _ & Hst & _ & _ & Horders & _); [lia|done|done|done|].
    exists b3. by split_and!.
Qed.
(** Arrival order: an order that rests is appended at the tail of the
    queue of its price, behind every order left there by the crossing
    match. *)
Lemma add_rests_at_tail id side px qty ts b b' rem b1 :
  wf b → qty < 2 ^ 63 →
  add id side px qty Limit ts b = Some (Ok, b') →
  cross side px qty b = Some (rem, b1) → 0 < rem →
  ∃ o, get_order id b' = Some (Some o) ∧
       storage b1 !! o = None ∧
       PriceLevel.orders (lvl b' px) = PriceLevel.orders (lvl b1 px) ++ [o] ∧
       storage b' = <[o := Order.create id px rem side Limit ts]> (storage b1).
Proof.
  intros Hwf Hq Hadd Hcross Hrem.
  destruct (add_spec id side px qty Limit ts b Hwf Hq) as (r & b2 & Hadd2 & Hwf2 & Hout).
  rewrite Hadd in Hadd2. injection Hadd2 as <- <-.
  destruct (add_outcome_ok_inv _ _ _ _ _ _ _ _ Hout)
    as (rem' & b0 & Hl & Hpos & Hpx & Hcross' & Hcase).
  rewrite Hcross in Hcross'. injection Hcross' as <- <-.
  destruct Hcase as [[[Hnl|Hle] _]|(_ & _ & _ & _ & o & rest & v & Hfree & Hfr & Hv & Heq)];
    [done|lia|].
  exists o. subst b'.
  assert (storage (rested id side px rem Limit ts o v
                     (rest_bid side px b1) (rest_ask side px b1) b1) !! o
          = Some (Order.create id px rem side Limit ts)) as Ho
    by apply lookup_insert_eq.
  split_and!; [|done|by rewrite lvl_rested, decide_True|done].
  pose proof (lookup_live None _ o _ (wf_inv _ Hwf2) Ho) as Hlk. exact Hlk.
Qed.

(** * Further properties of the book *)

(** ** Pool, counters and best prices *)

(** The memory check of the stress driver: the pool never leaks. In every
    reachable state [pool_used] and [order_count] agree, both count the
    resting orders, and the free list holds the rest of the capacity. *)
Theorem pool_used_matches_order_count b :
  reachable b →
  pool_used b = order_count b ∧
  order_count b = Z.of_nat (size (storage b)) ∧
  0 ≤ order_count b ≤ pool_capacity MaxOrders ∧
  Z.of_nat (length (free_list b)) = pool_capacity MaxOrders - pool_used b ∧
  (MemPool.full MaxOrders (pool_ b) = true ↔ free_list b = []).
Proof.
  intros Hr. pose proof (reachable_wf b Hr) as [Hinv _ _].
  pose proof (inv_size _ _ Hinv) as Hsz. pose proof (inv_alloc _ _ Hinv) as Hal.
  pose proof (inv_total _ _ Hinv) as Htot.
  unfold pool_used, order_count, pool_capacity, MemPool.used, MemPool.full.
  split_and!; try lia.
  rewrite bool_decide_eq_true, Hal. destruct (free_list b) eqn:Hf; simpl in *; split;
    (done || lia).
Qed.

(** The best prices are exact: every resting buy is priced at or below
    [bid], every resting sell at or above [ask]; when [has_bid] holds a buy
    rests at [bid] itself, otherwise [bid] is [NO_BID] and no buy rests;
    and likewise for the asks. *)
Theorem best_prices_exact b :
  reachable b →
  (∀ o ord, storage b !! o = Some ord → Order.side ord = Buy →
     Order.price ord ≤ bid b ∧ has_bid b = true) ∧
  (∀ o ord, storage b !! o = Some ord → Order.side ord = Sell →
     ask b ≤ Order.price ord ∧ has_ask MaxPrice b = true) ∧
  (has_bid b = true →
     ∃ o ord, storage b !! o = Some ord ∧ Order.side ord = Buy ∧
              Order.price ord = bid b) ∧
  (has_ask MaxPrice b = true →
     ∃ o ord, storage b !! o = Some ord ∧ Order.side ord = Sell ∧
              Order.price ord = ask b) ∧
  (has_bid b = false → bid b = NO_BID) ∧
  (has_ask MaxPrice b = false → ask b = NO_ASK MaxPrice).
Proof.
  intros Hr. pose proof (reachable_wf b Hr) as [Hinv Hbt Hat].
  pose proof (inv_bid_lo _ _ Hinv) as Hlo. pose proof (inv_ask_hi _ _ Hinv) as Hhi.
  pose proof (inv_uncrossed _ _ Hinv) as Hunc.
  unfold bid, ask, has_bid, has_ask, NO_BID, NO_ASK.
  assert (∀ p, PriceLevel.orders (lvl b p) ≠ [] →
            ∃ o ord, storage b !! o = Some ord ∧ Order.price ord = p) as Hhead.
  { intros p Hne. destruct (PriceLevel.orders (lvl b p)) as [|o l] eqn:Hl; [done|].
    destruct (lv_mem _ _ _ (inv_levels _ _ Hinv p) o) as (ord & Ho & Hp).
    { rewrite Hl. apply list_elem_of_here. }
    by exists o, ord. }
  split_and!.
  - intros o ord Ho Hs. pose proof (inv_orders _ _ Hinv o ord Ho) as Hok.
    pose proof (ok_buy _ _ _ _ Hok Hs). pose proof (ok_price _ _ _ _ Hok).
    split; [done|]. apply bool_decide_eq_true. lia.
  - intros o ord Ho Hs. pose proof (inv_orders _ _ Hinv o ord Ho) as Hok.
    pose proof (ok_sell _ _ _ _ Hok Hs). pose proof (ok_price _ _ _ _ Hok).
    split; [done|]. apply bool_decide_eq_true. lia.
  - intros Hb%bool_decide_eq_true.
    destruct (Hhead _ (Hbt Hb)) as (o & ord & Ho & Hp).
    exists o, ord. split_and!; [done| |done].
    pose proof (inv_orders _ _ Hinv o ord Ho) as Hok.
    destruct (Order.side ord) eqn:Hs; [done|].
    pose proof (ok_sell _ _ _ _ Hok Hs). lia.
  - intros Ha%bool_decide_eq_true.
    destruct (Hhead _ (Hat Ha)) as (o & ord & Ho & Hp).
    exists o, ord. split_and!; [done| |done].
    pose proof (inv_orders _ _ Hinv o ord Ho) as Hok.
    destruct (Order.side ord) eqn:Hs; [|done].
    pose proof (ok_buy _ _ _ _ Hok Hs). lia.
  - intros Hb%bool_decide_eq_false. lia.
  - intros Ha%bool_decide_eq_false. lia.
Qed.

(** When both sides are present [spread] is the exact difference of the
    best prices (the 64-bit subtraction does not wrap) and lies between one
    tick and [MaxPrice]; with a side missing the difference of the
    sentinels is still exact as long as at least one side is present. *)
Theorem spread_exact b :
  reachable b →
  (has_bid b = true ∨ has_ask MaxPrice b = true →
     spread b = ask b - bid b ∧ 1 ≤ spread b ≤ MaxPrice + 1) ∧
  (has_bid b = true → has_ask MaxPrice b = true → spread b ≤ MaxPrice).
Proof.
  intros Hr. pose proof (reachable_wf b Hr) as [Hinv _ _].
  pose proof (inv_bid_lo _ _ Hinv). pose proof (inv_ask_hi _ _ Hinv).
  pose proof (inv_uncrossed _ _ Hinv).
  unfold spread, ask, bid, has_bid, has_ask. split.
  - intros Hside.
    assert (0 ≤ best_bid_ b ∨ best_ask_ b ≤ MaxPrice) as Hs.
    { destruct Hside as [Hb%bool_decide_eq_true|Ha%bool_decide_eq_true]; auto. }
    rewrite wrap_i64_id by (unfold is_i64; lia). lia.
  - intros Hb%bool_decide_eq_true Ha%bool_decide_eq_true.
    rewrite wrap_i64_id by (unfold is_i64; lia). lia.
Qed.

(** ** cancel *)

(** [cancel] of an id that does not rest returns [false] and leaves the
    book as it is. [cancel] of a resting id returns [true] and removes
    exactly that order: its slot goes back to the head of the free list,
    the counters drop by one, its level loses the order (the others keep
    their queue order) and its quantity, every other level and every
    other order is untouched, and every other id is looked up as before. *)
Theorem cancel_removes_exactly b id :
  reachable b →
  ((∀ o ord, storage b !! o = Some ord → Order.id ord ≠ id) →
     cancel id b = Some (false, b)) ∧
  (∀ o ord, storage b !! o = Some ord → Order.id ord = id →
     ∃ b', cancel id b = Some (true, b') ∧
       storage b' = delete o (storage b) ∧
       free_list b' = o :: free_list b ∧
       order_count b' = order_count b - 1 ∧
       pool_used b' = pool_used b - 1 ∧
       PriceLevel.orders (lvl b' (Order.price ord))
         = filter (λ x, x ≠ o) (PriceLevel.orders (lvl b (Order.price ord))) ∧
       PriceLevel.count (lvl b' (Order.price ord))
         = PriceLevel.count (lvl b (Order.price ord)) - 1 ∧
       PriceLevel.qty (lvl b' (Order.price ord))
         = wrap_i64 (PriceLevel.qty (lvl b (Order.price ord)) - Order.qty ord) ∧
       (∀ q, q ≠ Order.price ord → lvl b' q = lvl b q) ∧
       get_order id b' = Some None ∧
       (∀ id', id' ≠ id → get_order id' b' = get_order id' b)).
Proof.
  intros Hr. pose proof (reachable_wf b Hr) as Hwf.
  pose proof (wf_inv _ Hwf) as Hinv. split.
  - intros Hfresh. apply cancel_absent. by apply (lookup_absent None).
  - intros o ord Ho Hid.
    destruct (cancel_spec id b Hwf) as (r & b' & Hc & Hwf' & Hout).
    pose proof (wf_inv _ Hwf') as Hinv'.
    destruct (cancel_outcome_inv _ _ _ _ Hout)
      as [(_ & _ & Hmiss)|(-> & o' & ord' & Ho' & Hid' & Hst & Hfree & Hother & Horders & _)].
    { exfalso. by eapply (lookup_None_inv None b id Hinv Hmiss o ord). }
    assert (o' = o) as ->.
    { eapply (id_unique None b); [done|done|done|congruence]. }
    assert (ord' = ord) as -> by congruence.
    pose proof (inv_orders _ _ Hinv o ord Ho) as Hok.
    pose proof (inv_levels _ _ Hinv (Order.price ord)) as [Hnd Hcnt Hqty _].
    pose proof (inv_levels _ _ Hinv' (Order.price ord)) as [_ Hcnt' Hqty' _].
    pose proof (size_delete_S (storage b) o ord Ho) as Hsz.
    pose proof (ok_linked _ _ _ _ Hok) as Hin.
    assert (∀ x xo, storage b' !! x = Some xo → Order.id xo ≠ id) as Hgone.
    { intros x xo Hx Heq. rewrite Hst in Hx.
      apply lookup_delete_Some in Hx as [Hne Hx]. apply Hne.
      eapply (id_unique None b); [done|done|done|congruence]. }
    exists b'. unfold order_count, pool_used, MemPool.used, PriceLevel.count, PriceLevel.qty.
    split_and!; try done.
    + rewrite (inv_total _ _ Hinv'), (inv_total _ _ Hinv), Hst. lia.
    + rewrite (inv_alloc _ _ Hinv'), (inv_alloc _ _ Hinv), Hst. lia.
    + rewrite Hcnt', Hcnt. simpl in Horders. rewrite Horders.
      pose proof (length_filter_ne o _ Hnd Hin). lia.
    + rewrite Hqty', Hqty, wrap_i64_sub_l. f_equal. simpl in Horders.
      rewrite Horders, Hst.
      rewrite sum_qty_delete_notin.
      2:{ intros [? _]%list_elem_of_filter. done. }
      rewrite (sum_qty_filter (storage b) o _ Hnd Hin). unfold qty_at. rewrite Ho. lia.
    + by apply (lookup_absent None).
    + intros id' Hne. unfold get_order.
      destruct (lookup_total None b id' Hinv) as [[x|] Hl]; rewrite Hl.
      * destruct (lookup_Some_inv None b id' x Hinv Hl) as (xo & Hx & Hxid).
        assert (storage b' !! x = Some xo) as Hx'.
        { rewrite Hst. apply lookup_delete_Some. split; [|done].
          intros ->. congruence. }
        rewrite <- Hxid. by apply (lookup_live None).
      * apply (lookup_absent None); [done|].
        intros x xo Hx. rewrite Hst in Hx. apply lookup_delete_Some in Hx as [_ Hx].
        by eapply (lookup_None_inv None b id' Hinv Hl).
Qed.

(** ** The result codes of add *)

(** [add] always returns, and its result code tells exactly what
    happened. [DuplicateId] is returned exactly for a resting id (the
    failure branch of the index insertion is never taken), [InvalidQty] and
    [InvalidPrice] exactly for their conditions on a fresh id, and
    [PoolExhausted] only for a limit order when every pool slot is in use;
    every result other than [Ok] leaves the book unchanged. A fresh, valid
    order is accepted whenever a pool slot is free, and a fresh, valid
    limit order that does not cross is refused when none is. *)
Theorem add_result_codes id side px qty type ts b :
  reachable b → is_i64 qty →
  ∃ r b', add id side px qty type ts b = Some (r, b') ∧
    (r = DuplicateId ↔ ∃ o ord, storage b !! o = Some ord ∧ Order.id ord = id) ∧
    (r = InvalidQty ↔
       (∀ o ord, storage b !! o = Some ord → Order.id ord ≠ id) ∧ qty ≤ 0) ∧
    (r = InvalidPrice ↔
       (∀ o ord, storage b !! o = Some ord → Order.id ord ≠ id) ∧ 0 < qty ∧
       (px < 0 ∨ MaxPrice < px)) ∧
    (r = PoolExhausted →
       type = Limit ∧ pool_used b = pool_capacity MaxOrders) ∧
    (r ≠ Ok → b' = b) ∧
    ((∀ o ord, storage b !! o = Some ord → Order.id ord ≠ id) →
       0 < qty → 0 ≤ px ≤ MaxPrice →
       (pool_used b < pool_capacity MaxOrders → r = Ok) ∧
       (type = Limit → ¬ crosses side px b →
        pool_used b = pool_capacity MaxOrders → r = PoolExhausted)).
Proof.
  intros Hr [_ Hq]. pose proof (reachable_wf b Hr) as Hwf.
  pose proof (wf_inv _ Hwf) as Hinv.
  destruct (add_spec id side px qty type ts b Hwf Hq) as (r & b' & Hadd & _ & Hout).
  exists r, b'. split; [done|].
  assert (pool_used b < pool_capacity MaxOrders ↔ free_list b ≠ []) as Hfull.
  { unfold pool_used, pool_capacity, MemPool.used.
    rewrite (inv_alloc _ _ Hinv). pose proof (inv_size _ _ Hinv).
    destruct (free_list b); simpl in *; split; (done || lia). }
  assert (pool_used b ≤ pool_capacity MaxOrders) as Hle.
  { unfold pool_used, pool_capacity, MemPool.used.
    rewrite (inv_alloc _ _ Hinv). pose proof (inv_size _ _ Hinv). lia. }
  assert (∀ P : Prop, lookup id b = Some None →
            (∃ o ord, storage b !! o = Some ord ∧ Order.id ord = id) → P) as Hno.
  { intros P Hl (o & ord & Ho & Hid). exfalso.
    by eapply (lookup_None_inv None b id Hinv Hl o ord). }
  clear Hadd.
  destruct Hout as [o ord Ho Hid|Hl Hle0|Hl Hpos Hbad|rem b1 Hl Hpos Hpx Hcross Hnr
                   |Hl Hpos Hpx Hcross Hlim Hfree
                   |rem b1 o rest v Hl Hpos Hpx Hcross Hwf1 Hlim Hrem Hnc Hfree Hfr Hv].
  - split_and!; try done.
    + split; [intros _; by exists o, ord|done].
    + split; [done|]. intros [Hfresh _]. by destruct (Hfresh o ord Ho).
    + split; [done|]. intros [Hfresh _]. by destruct (Hfresh o ord Ho).
    + intros Hfresh. by destruct (Hfresh o ord Ho).
  - pose proof (lookup_None_inv None b id Hinv Hl) as Hfresh.
    split_and!; try done.
    + split; [done|]. by apply Hno.
    + split; [done|]. intros (_ & ? & _). lia.
    + intros _ ?. lia.
  - pose proof (lookup_None_inv None b id Hinv Hl) as Hfresh.
    split_and!; try done.
    + split; [done|]. by apply Hno.
    + split; [done|]. intros [_ ?]. lia.
    + intros _ _ ?. lia.
  - split_and!; try done.
    + split; [done|]. by apply Hno.
    + split; [done|]. intros [_ ?]. lia.
    + split; [done|]. intros (_ & _ & ?). lia.
    + intros _ _ _. split; [done|].
      intros -> Hncr Hfl. exfalso.
      rewrite cross_no_match in Hcross by done. injection Hcross as <- <-.
      destruct Hnr; [done|lia].
  - split_and!; try done.
    + split; [done|]. by apply Hno.
    + split; [done|]. intros [_ ?]. lia.
    + split; [done|]. intros (_ & _ & ?). lia.
    + intros _. split; [done|].
      destruct (decide (pool_used b < pool_capacity MaxOrders)) as [Hlt%Hfull|]; [done|lia].
    + intros _ _ _. split; [|done]. intros Hlt%Hfull. done.
  - split_and!; try done.
    + split; [done|]. by apply Hno.
    + split; [done|]. intros [_ ?]. lia.
    + split; [done|]. intros (_ & _ & ?). lia.
    + intros _ _ _. split; [done|].
      intros _ Hncr Hfl. exfalso.
      rewrite cross_no_match in Hcross by done. injection Hcross as <- <-.
      assert (free_list b ≠ []) as Hne by (rewrite Hfree; done).
      apply Hfull in Hne. lia.
Qed.

(** ** Quantity accounting of the matching loops *)

(** The total quantity resting in the book. *)
Definition resting_qty (st : gmap nat Order.t) : Z :=
  map_fold (λ _ ord acc, Order.qty ord + acc) 0 st.

Lemma resting_qty_insert_None st o ord :
  st !! o = None → resting_qty (<[o := ord]> st) = Order.qty ord + resting_qty st.
Proof.
  intros Ho. unfold resting_qty. rewrite map_fold_insert_L; [done| |done].
  intros. lia.
Qed.

Lemma resting_qty_delete st o ord :
  st !! o = Some ord → resting_qty (delete o st) = resting_qty st - Order.qty ord.
Proof.
  intros Ho. rewrite <- (insert_delete_id st o ord Ho) at 2.
  rewrite resting_qty_insert_None by apply lookup_delete_eq. lia.
Qed.

Lemma resting_qty_insert_Some st o ord ord' :
  st !! o = Some ord →
  resting_qty (<[o := ord']> st) = resting_qty st - Order.qty ord + Order.qty ord'.
Proof.
  intros Ho. rewrite <- (insert_delete_eq st).
  rewrite resting_qty_insert_None by apply lookup_delete_eq.
  rewrite (resting_qty_delete st o ord Ho). lia.
Qed.

(** [ord] with its remaining quantity replaced. *)
Definition with_qty (q : Z) (ord : Order.t) : Order.t :=
  Order.mk (Order.id ord) (Order.price ord) q (Order.orig_qty ord) (Order.ts ord)
           (Order.side ord) (Order.type ord).

(** Every order of [b'] is an order of [b] in the same slot, with the
    same fields except for a quantity that has not grown. *)
Definition only_fills (b b' : OrderBook.t) : Prop :=
  ∀ o ord', storage b' !! o = Some ord' →
    ∃ ord, storage b !! o = Some ord ∧ ord' = with_qty (Order.qty ord') ord ∧
           Order.qty ord' ≤ Order.qty ord.

Lemma only_fills_refl b b' : storage b' = storage b → only_fills b b'.
Proof.
  intros Hst o ord Ho. rewrite Hst in Ho. exists ord.
  split_and!; [done|by destruct ord|done].
Qed.

Lemma only_fills_trans b1 b2 b3 : only_fills b1 b2 → only_fills b2 b3 → only_fills b1 b3.
Proof.
  intros H12 H23 o ord3 Ho3.
  destruct (H23 o ord3 Ho3) as (ord2 & Ho2 & Heq2 & Hle2).
  destruct (H12 o ord2 Ho2) as (ord1 & Ho1 & Heq1 & Hle1).
  exists ord1. split_and!; [done| |lia].
  rewrite Heq2, Heq1. done.
Qed.

Lemma only_fills_delete b b' o :
  storage b' = delete o (storage b) → only_fills b b'.
Proof.
  intros Hst x ord Hx. rewrite Hst in Hx. apply lookup_delete_Some in Hx as [_ Hx].
  exists ord. split_and!; [done|by destruct ord|done].
Qed.

(** At every price the queue of [b'] is what is left of the queue of [b]
    after some orders were taken from its front, and behind the head of
    what is left nothing has been filled. *)
Definition queue_suffix (b b' : OrderBook.t) : Prop :=
  ∀ p, ∃ n, PriceLevel.orders (lvl b' p) = drop n (PriceLevel.orders (lvl b p)) ∧
            ∀ o, o ∈ tail (PriceLevel.orders (lvl b' p)) →
                 storage b' !! o = storage b !! o.

Lemma queue_suffix_refl b b' :
  storage b' = storage b → (∀ p, lvl b' p = lvl b p) → queue_suffix b b'.
Proof. intros Hst Hl p. exists 0%nat. rewrite Hl, Hst. by split. Qed.

Lemma elem_of_tail {A} (l : list A) x : x ∈ tail l → x ∈ l.
Proof. destruct l; [done|]. simpl. apply list_elem_of_further. Qed.

Lemma tail_drop_subseteq {A} (m : nat) (l : list A) x :
  x ∈ tail (drop m l) → x ∈ tail l.
Proof.
  assert (∀ l' : list A, tail l' = drop 1 l') as Ht by (by intros []).
  rewrite !Ht, drop_drop.
  replace (m + 1)%nat with (1 + m)%nat by lia. rewrite <- drop_drop.
  apply subseteq_drop.
Qed.

Lemma queue_suffix_trans b1 b2 b3 :
  queue_suffix b1 b2 → queue_suffix b2 b3 → queue_suffix b1 b3.
Proof.
  intros H12 H23 p. destruct (H12 p) as (n & Hn & Hk1). destruct (H23 p) as (m & Hm & Hk2).
  exists (n + m)%nat. split.
  - by rewrite Hm, Hn, drop_drop.
  - intros o Ho. rewrite (Hk2 o Ho). apply Hk1.
    rewrite Hm in Ho. by apply tail_drop_subseteq in Ho.
Qed.

(** What one run of a matching loop did to the book: the quantity it
    took from the aggressor is the quantity it removed from the book, it
    only filled orders, it left alone every order priced outside
    [touched], and it took the orders of a level from the front. *)
Record trade (touched : Z → Prop) (qty q' : Z) (b b' : OrderBook.t) : Prop := {
  trade_conserves :
    qty - q' = resting_qty (storage b) - resting_qty (storage b');
  trade_fills : only_fills b b';
  trade_frame : ∀ o ord, storage b !! o = Some ord →
                  ¬ touched (Order.price ord) → storage b' !! o = Some ord;
  trade_queue : queue_suffix b b'
}.

Lemma trade_nop touched qty b : trade touched qty qty b b.
Proof. split; [lia|by apply only_fills_refl|done|by apply queue_suffix_refl]. Qed.

Lemma trade_same_storage touched qty q' b b' b2 :
  trade touched qty q' b b' → storage b2 = storage b' → (∀ p, lvl b2 p = lvl b' p) →
  trade touched qty q' b b2.
Proof.
  intros [Hc Hf Hfr Hqs] Hst Hl. split.
  - by rewrite Hst.
  - eapply only_fills_trans; [done|]. by apply only_fills_refl.
  - intros o ord Ho Hn. rewrite Hst. by apply Hfr.
  - eapply queue_suffix_trans; [done|]. by apply queue_suffix_refl.
Qed.

Lemma trade_weaken (t1 t2 : Z → Prop) qty q' b b' :
  (∀ p, t1 p → t2 p) → trade t1 qty q' b b' → trade t2 qty q' b b'.
Proof.
  intros Hsub [Hc Hf Hfr Hqs]. split; [done|done| |done].
  intros o ord Ho Hn. apply Hfr; auto.
Qed.

Lemma trade_trans (t : Z → Prop) q0 q1 q2 b0 b1 b2 :
  trade t q0 q1 b0 b1 → trade t q1 q2 b1 b2 → trade t q0 q2 b0 b2.
Proof.
  intros [Hc1 Hf1 Hfr1 Hq1] [Hc2 Hf2 Hfr2 Hq2]. split.
  - lia.
  - by eapply only_fills_trans.
  - intros o ord Ho Hn. apply Hfr2; [|done]. by apply Hfr1.
  - by eapply queue_suffix_trans.
Qed.

Lemma match_level_trade :
  ∀ fuel px qty b q' b',
    inv None b → 0 ≤ px ≤ MaxPrice → qty < 2 ^ 63 →
    match_level fuel px qty b = Some (q', b') →
    trade (λ p, p = px) qty q' b b'.
Proof.
  induction fuel as [|fuel IH]; intros px qty b q' b' Hinv Hpx Hq Hrun; [done|].
  destruct (decide (qty ≤ 0)) as [Hle|Hpos].
  { rewrite match_level_nop in Hrun by done. injection Hrun as <- <-. apply trade_nop. }
  destruct (PriceLevel.orders (lvl b px)) as [|o rest] eqn:Hl.
  { rewrite (match_level_empty None) in Hrun by done. injection Hrun as <- <-.
    apply trade_nop. }
  destruct (lv_mem _ _ _ (inv_levels _ _ Hinv px) o) as (ord & Ho & Hprice).
  { rewrite Hl. apply list_elem_of_here. }
  pose proof (inv_orders _ _ Hinv o ord Ho) as Hord.
  pose proof (ok_orig _ _ _ _ Hord). pose proof (ok_orig64 _ _ _ _ Hord).
  pose proof (ok_qty _ _ _ _ Hord ltac:(done)) as Hopos.
  destruct (decide (qty < Order.qty ord)) as [Hlt|Hge].
  - rewrite (match_level_partial fuel px qty b o ord rest) in Hrun by (done || lia).
    destruct fuel as [|fuel]; [done|].
    rewrite match_level_nop in Hrun by (done || lia). injection Hrun as <- <-.
    assert (Order.qty (Order.fill qty ord) = Order.qty ord - qty) as Hfq.
    { simpl. apply wrap_i64_id. unfold is_i64. lia. }
    assert (storage (fill_order o ord qty b) = <[o := Order.fill qty ord]> (storage b))
      as Hst by done.
    split.
    + rewrite Hst, (resting_qty_insert_Some _ o ord) by done. lia.
    + intros x xo. rewrite Hst, lookup_insert. case_decide as Hx.
      * intros [= <-]. subst x. exists ord. split_and!; [done|done|lia].
      * intros Hxo. exists xo. split_and!; [done|by destruct xo|done].
    + intros x xo Hxo Hn. rewrite Hst, lookup_insert_ne; [done|].
      intros ->. congruence.
    + intros p. exists 0%nat.
      assert (PriceLevel.orders (lvl (fill_order o ord qty b) p)
              = PriceLevel.orders (lvl b p)) as Hsame.
      { unfold fill_order. lvl_simpl. by case_decide; subst. }
      split; [done|].
      intros x Hx. rewrite Hsame in Hx.
      rewrite Hst, lookup_insert_ne; [done|]. intros Heq. subst x.
      destruct (decide (p = px)) as [->|Hne].
      * rewrite Hl in Hx. simpl in Hx.
        pose proof (lv_nodup _ _ _ (inv_levels _ _ Hinv px)) as Hnd.
        rewrite Hl in Hnd. by apply NoDup_cons in Hnd as [? _].
      * apply Hne. rewrite <- Hprice.
        apply (linked_price None b o ord p); [done|done|]. by apply elem_of_tail.
  - destruct (match_level_full fuel px qty b o ord rest)
      as (b3 & _ & Hrun3 & Hinv3 & _ & _ & Hst & _ & Hother3 & Horders3 & _); [done..|lia|].
    rewrite Hrun3 in Hrun.
    pose proof (IH px (qty - Order.qty ord) b3 q' b' Hinv3 Hpx ltac:(lia) Hrun) as Htr.
    eapply trade_trans; [|exact Htr]. split.
    + rewrite Hst, (resting_qty_delete _ o ord) by done. lia.
    + by apply (only_fills_delete _ _ o).
    + intros x xo Hxo Hn. rewrite Hst, lookup_delete_ne; [done|].
      intros ->. congruence.
    + intros p. pose proof (lv_nodup _ _ _ (inv_levels _ _ Hinv px)) as Hnd.
      rewrite Hl in Hnd. apply NoDup_cons in Hnd as [Hnotin _].
      destruct (decide (p = px)) as [->|Hne].
      * exists 1%nat. split; [by rewrite Horders3, Hl|].
        intros x Hx. rewrite Horders3 in Hx.
        rewrite Hst, lookup_delete_ne; [done|]. intros Heq. subst x.
        apply Hnotin. by apply elem_of_tail.
      * exists 0%nat. split; [by rewrite Hother3|].
        intros x Hx. rewrite Hother3 in Hx by done.
        rewrite Hst, lookup_delete_ne; [done|]. intros Heq. subst x.
        apply Hne. rewrite <- Hprice.
        apply (linked_price None b o ord p); [done|done|]. by apply elem_of_tail.
Qed.

Lemma match_buy_iter_trade fuel qty limit b :
  inv None b → bid_tight b → 0 < qty < 2 ^ 63 →
  best_ask_ b ≤ limit → best_ask_ b ≤ MaxPrice →
  ∃ q1 b2, match_buy_loop (S fuel) qty limit b = match_buy_loop fuel q1 limit b2 ∧
    inv None b2 ∧ bid_tight b2 ∧ best_ask_ b ≤ best_ask_ b2 ∧ 0 ≤ q1 ≤ qty ∧
    trade (λ p, p = best_ask_ b) qty q1 b b2.
Proof.
  intros Hinv Hbid Hq Hlim Hask.
  pose proof (inv_bid_lo _ _ Hinv). pose proof (inv_uncrossed _ _ Hinv).
  destruct (match_level_ok gas (best_ask_ b) qty b)
    as (q1 & b1 & Hrun & Hinv1 & Hbid1 & Hask1 & Hother1 & _ & Hrange1 & _);
    [done|lia|lia|by eapply gas_storage|].
  specialize (Hrange1 ltac:(lia)).
  pose proof (match_level_trade gas (best_ask_ b) qty b q1 b1 Hinv ltac:(lia) ltac:(lia) Hrun)
    as Htr.
  assert (bid_tight b1) as Hbt1.
  { unfold bid_tight. rewrite Hbid1, Hother1 by lia. apply Hbid. }
  simpl. rewrite decide_True by lia. rewrite Hrun. simpl.
  rewrite level_ref_in by lia. simpl.
  destruct (PriceLevel.empty (lvl b1 (best_ask_ b))) eqn:He.
  - destruct (update_best_ask_ok None b1 Hinv1) as (a & Hup & Hinv2 & _ & Hge & _).
    rewrite Hup. simpl. exists q1, (set_best_ask a b1).
    split_and!; try done; try (simpl; lia).
    by apply (trade_same_storage _ _ _ _ b1).
  - exists q1, b1. split_and!; try done; lia.
Qed.

Lemma match_sell_iter_trade fuel qty limit b :
  inv None b → ask_tight b → 0 < qty < 2 ^ 63 →
  limit ≤ best_bid_ b → 0 ≤ best_bid_ b →
  ∃ q1 b2, match_sell_loop (S fuel) qty limit b = match_sell_loop fuel q1 limit b2 ∧
    inv None b2 ∧ ask_tight b2 ∧ best_bid_ b2 ≤ best_bid_ b ∧ 0 ≤ q1 ≤ qty ∧
    trade (λ p, p = best_bid_ b) qty q1 b b2.
Proof.
  intros Hinv Hask Hq Hlim Hbid.
  pose proof (inv_ask_hi _ _ Hinv). pose proof (inv_uncrossed _ _ Hinv).
  destruct (match_level_ok gas (best_bid_ b) qty b)
    as (q1 & b1 & Hrun & Hinv1 & Hbid1 & Hask1 & Hother1 & _ & Hrange1 & _);
    [done|lia|lia|by eapply gas_storage|].
  specialize (Hrange1 ltac:(lia)).
  pose proof (match_level_trade gas (best_bid_ b) qty b q1 b1 Hinv ltac:(lia) ltac:(lia) Hrun)
    as Htr.
  assert (ask_tight b1) as Hat1.
  { unfold ask_tight. rewrite Hask1, Hother1 by lia. apply Hask. }
  simpl. rewrite decide_True by lia. rewrite Hrun. simpl.
  rewrite level_ref_in by lia. simpl.
  destruct (PriceLevel.empty (lvl b1 (best_bid_ b))) eqn:He.
  - destruct (update_best_bid_ok None b1 Hinv1) as (v & Hup & Hinv2 & _ & Hge & _).
    rewrite Hup. simpl. exists q1, (set_best_bid v b1).
    split_and!; try done; try (simpl; lia).
    by apply (trade_same_storage _ _ _ _ b1).
  - exists q1, b1. split_and!; try done; lia.
Qed.

(** A buy sweep touches only ask levels from the best ask it started at
    up to its limit, and none above the best ask it leaves behind. *)
Lemma match_buy_loop_trade :
  ∀ fuel qty limit b q' b',
    inv None b → bid_tight b → qty < 2 ^ 63 →
    match_buy_loop fuel qty limit b = Some (q', b') →
    best_ask_ b ≤ best_ask_ b' ∧
    trade (λ p, best_ask_ b ≤ p ∧ p ≤ limit ∧ p ≤ best_ask_ b' ∧ p ≤ MaxPrice)
          qty q' b b'.
Proof.
  induction fuel as [|fuel IH]; intros qty limit b q' b' Hinv Hbid Hq Hrun; [done|].
  destruct (decide (0 < qty ∧ best_ask_ b ≤ limit ∧ best_ask_ b ≤ MaxPrice))
    as [(Hpos & Hlim & Hask)|Hstop].
  2:{ rewrite match_buy_loop_nop in Hrun by done. injection Hrun as <- <-.
      split; [lia|apply trade_nop]. }
  destruct (match_buy_iter_trade fuel qty limit b)
    as (q1 & b2 & Heq & Hinv2 & Hbid2 & Hba & Hrange & Htr); [done|done|lia|done|done|].
  rewrite Heq in Hrun.
  destruct (IH q1 limit b2 q' b' Hinv2 Hbid2 ltac:(lia) Hrun) as [Hba' Htr'].
  split; [lia|].
  eapply trade_trans; (eapply trade_weaken; [|done]); simpl; intros p ?; lia.
Qed.

Lemma match_sell_loop_trade :
  ∀ fuel qty limit b q' b',
    inv None b → ask_tight b → qty < 2 ^ 63 →
    match_sell_loop fuel qty limit b = Some (q', b') →
    best_bid_ b' ≤ best_bid_ b ∧
    trade (λ p, p ≤ best_bid_ b ∧ limit ≤ p ∧ best_bid_ b' ≤ p ∧ 0 ≤ p)
          qty q' b b'.
Proof.
  induction fuel as [|fuel IH]; intros qty limit b q' b' Hinv Hask Hq Hrun; [done|].
  destruct (decide (0 < qty ∧ limit ≤ best_bid_ b ∧ 0 ≤ best_bid_ b))
    as [(Hpos & Hlim & Hbid)|Hstop].
  2:{ rewrite match_sell_loop_nop in Hrun by done. injection Hrun as <- <-.
      split; [lia|apply trade_nop]. }
  destruct (match_sell_iter_trade fuel qty limit b)
    as (q1 & b2 & Heq & Hinv2 & Hask2 & Hbb & Hrange & Htr); [done|done|lia|done|done|].
  rewrite Heq in Hrun.
  destruct (IH q1 limit b2 q' b' Hinv2 Hask2 ltac:(lia) Hrun) as [Hbb' Htr'].
  split; [lia|].
  eapply trade_trans; (eapply trade_weaken; [|done]); simpl; intros p ?; lia.
Qed.

(** The opposite side's prices a sweep of [aggressor] with [limit] may
    touch, given the best prices before and after it. *)
Definition sweep_range (aggressor : Side) (limit : Z) (b b' : OrderBook.t) (p : Z) : Prop :=
  match aggressor with
  | Buy => best_ask_ b ≤ p ∧ p ≤ limit ∧ p ≤ best_ask_ b' ∧ p ≤ MaxPrice
  | Sell => p ≤ best_bid_ b ∧ limit ≤ p ∧ best_bid_ b' ≤ p ∧ 0 ≤ p
  end.

Lemma match_internal_trade aggressor qty limit b q' b' :
  wf b → qty < 2 ^ 63 →
  match_internal aggressor qty limit b = Some (q', b') →
  trade (sweep_range aggressor limit b b') qty q' b b'.
Proof.
  intros [Hinv Hbt Hat] Hq Hrun. unfold match_internal in Hrun.
  destruct aggressor.
  - by apply (match_buy_loop_trade gas).
  - by apply (match_sell_loop_trade gas).
Qed.

Lemma cross_trade side px qty b rem b1 :
  wf b → qty < 2 ^ 63 →
  cross side px qty b = Some (rem, b1) →
  trade (sweep_range side px b b1) qty rem b b1.
Proof.
  intros Hwf Hq Hc. unfold cross in Hc.
  destruct side; case_decide;
    try (by apply match_internal_trade);
    injection Hc as <- <-; apply trade_nop.
Qed.

Lemma only_fills_size b b' :
  only_fills b b' → (size (storage b') ≤ size (storage b))%nat.
Proof.
  intros Hf. rewrite <- !size_dom. apply subseteq_size.
  intros o [ord' Ho]%elem_of_dom. destruct (Hf o ord' Ho) as (ord & Ho' & _).
  apply elem_of_dom. by eexists.
Qed.

(** ** Market orders *)

(** C7 (amended). An [add] of type [Market] uses the supplied price as
    the limit of its matching, exactly as an [IOC] order does. For a
    fresh id, a positive quantity and a valid price, in every reachable
    state: the call returns [Ok] with the book that the sweep limited by
    [px] leaves, and that sweep runs only if the price reaches the
    opposite best. The quantity filled is what left the book, orders are
    only filled and nothing rests. Only orders priced within the limit
    trade: the orders of the incoming order's own side and the opposite
    orders priced beyond [px] are left as they were, and when something
    remains unfilled no opposite order priced within [px] is left. With
    [MaxPrice] for a buy or [0] for a sell as the price, the matching is
    the extreme-limit sweep of [match]. *)
Theorem C7_market_add_limited_by_price id side px qty ts b :
  reachable b → is_i64 qty →
  add id side px qty Market ts b = add id side px qty IOC ts b ∧
  ((∀ o ord, storage b !! o = Some ord → Order.id ord ≠ id) →
   0 < qty → 0 ≤ px ≤ MaxPrice →
   ∃ rem b',
     add id side px qty Market ts b = Some (Ok, b') ∧
     (if decide (crosses side px b) then match_internal side qty px b
      else Some (qty, b)) = Some (rem, b') ∧
     0 ≤ rem ≤ qty ∧
     qty - rem = resting_qty (storage b) - resting_qty (storage b') ∧
     only_fills b b' ∧
     (∀ o ord, storage b' !! o = Some ord → Order.id ord ≠ id) ∧
     (¬ crosses side px b → b' = b) ∧
     (∀ o ord, storage b !! o = Some ord →
        Order.side ord = side ∨
        match side with
        | Buy => px < Order.price ord
        | Sell => Order.price ord < px
        end →
        storage b' !! o = Some ord) ∧
     (0 < rem → ∀ o ord, storage b' !! o = Some ord → Order.side ord = flip side →
        match side with
        | Buy => px < Order.price ord
        | Sell => Order.price ord < px
        end) ∧
     (px = match side with Buy => MaxPrice | Sell => 0 end →
        match_ side qty b = Some (rem, b'))).
Proof.
  intros Hr [_ Hq]. pose proof (reachable_wf b Hr) as Hwf.
  pose proof (wf_inv _ Hwf) as Hinv.
  split.
  { rewrite !add_unfold. destruct (lookup id b) as [found|]; [|done]. simpl.
    repeat case_decide; done. }
  intros Hfresh Hpos Hpx.
  pose proof (lookup_absent _ _ _ Hinv Hfresh) as Hl.
  destruct (cross_ok side px qty b Hwf ltac:(lia) Hpx)
    as (rem & b1 & Hcross & Hwf1 & Hrange & _ & Hnc & Hnop & _).
  pose proof (cross_trade side px qty b rem b1 Hwf Hq Hcross) as [Hc Hf Hfr _].
  pose proof (wf_inv _ Hwf1) as Hinv1.
  pose proof (inv_uncrossed _ _ Hinv) as Hunc.
  assert ((if decide (crosses side px b) then match_internal side qty px b
           else Some (qty, b)) = Some (rem, b1)) as Hsweep.
  { rewrite <- Hcross. unfold cross. destruct side; simpl; repeat case_decide; done. }
  exists rem, b1. split_and!.
  - rewrite add_unfold, Hl. simpl.
    rewrite decide_False by lia. rewrite decide_False by lia.
    rewrite Hcross. simpl. apply add_tail_no_rest. by left.
  - exact Hsweep.
  - lia.
  - lia.
  - exact Hc.
  - exact Hf.
  - intros o ord' Ho. destruct (Hf o ord' Ho) as (ord & Hob & Heq & _).
    rewrite Heq. simpl. by apply (Hfresh o).
  - intros Hno. by apply Hnop.
  - intros o ord Ho Hwhy. apply Hfr; [done|].
    pose proof (inv_orders _ _ Hinv o ord Ho) as Hok.
    destruct side; simpl; intros (? & ? & ? & ?); destruct Hwhy as [Hs|?]; try lia.
    + pose proof (ok_buy _ _ _ _ Hok Hs). lia.
    + pose proof (ok_sell _ _ _ _ Hok Hs). lia.
  - intros Hrem o ord Ho Hs. specialize (Hnc Hrem).
    pose proof (inv_orders _ _ Hinv1 o ord Ho) as Hok.
    destruct side; simpl in *.
    + pose proof (ok_sell _ _ _ _ Hok Hs). lia.
    + pose proof (ok_buy _ _ _ _ Hok Hs). lia.
  - intros ->. clear Hsweep. rewrite <- Hcross.
    unfold cross, match_, match_internal.
    destruct side; case_decide; try done.
    + by rewrite match_buy_loop_stop by lia.
    + by rewrite match_sell_loop_stop by lia.
Qed.

(** ** match *)

(** [match] conserves quantity: it always returns, the unfilled rest is
    between 0 and the requested quantity, and what was filled is exactly
    what left the book. No order is added; and when something is left
    unfilled the opposite side of the book has been emptied. *)
Theorem match_conserves_quantity aggressor qty b :
  reachable b → is_i64 qty →
  ∃ q' b', match_ aggressor qty b = Some (q', b') ∧
    (0 < qty → 0 ≤ q' ≤ qty) ∧
    qty - q' = resting_qty (storage b) - resting_qty (storage b') ∧
    order_count b' ≤ order_count b ∧
    (0 < q' →
       (match aggressor with
        | Buy => has_ask MaxPrice b' = false
        | Sell => has_bid b' = false
        end) ∧
       ∀ o ord, storage b' !! o = Some ord → Order.side ord = aggressor).
Proof.
  intros Hr [_ Hq]. pose proof (reachable_wf b Hr) as Hwf.
  destruct (match_spec aggressor qty b Hwf Hq)
    as (q' & b' & Hrun & Hwf' & _ & Hrange & _ & _ & _ & Hex).
  pose proof (match_internal_trade aggressor qty _ b q' b' Hwf Hq Hrun) as [Hc Hf _].
  pose proof (wf_inv _ Hwf) as Hinv. pose proof (wf_inv _ Hwf') as Hinv'.
  exists q', b'. split_and!; try done.
  - unfold order_count. rewrite (inv_total _ _ Hinv), (inv_total _ _ Hinv').
    pose proof (only_fills_size b b' Hf). lia.
  - intros Hpos. specialize (Hex Hpos). split.
    + destruct aggressor; unfold has_ask, has_bid; apply bool_decide_eq_false; lia.
    + intros o ord Ho. pose proof (inv_orders _ _ Hinv' o ord Ho) as Hok.
      pose proof (ok_price _ _ _ _ Hok).
      destruct aggressor, (Order.side ord) eqn:Hs; try done.
      * pose proof (ok_sell _ _ _ _ Hok Hs). lia.
      * pose proof (ok_buy _ _ _ _ Hok Hs). lia.
Qed.

(** [match] respects price priority and never touches the aggressor's own
    side: orders are only filled (no field other than the remaining
    quantity changes), every order of the aggressor's side is left as it
    was, an order that was filled, even partly, is priced at least as well
    as every order left on its side, and the aggressor side's best price
    does not move. *)
Theorem match_price_priority aggressor qty b q' b' :
  reachable b → is_i64 qty →
  match_ aggressor qty b = Some (q', b') →
  only_fills b b' ∧
  (∀ o ord, storage b !! o = Some ord → Order.side ord = aggressor →
     storage b' !! o = Some ord) ∧
  (∀ o ord o2 ord2,
     storage b !! o = Some ord → storage b' !! o ≠ Some ord →
     storage b' !! o2 = Some ord2 → Order.side ord2 = flip aggressor →
     match aggressor with
     | Buy => Order.price ord ≤ Order.price ord2
     | Sell => Order.price ord2 ≤ Order.price ord
     end) ∧
  match aggressor with
  | Buy => bid b' = bid b ∧ ask b ≤ ask b'
  | Sell => ask b' = ask b ∧ bid b' ≤ bid b
  end.
Proof.
  intros Hr [_ Hq] Hrun. pose proof (reachable_wf b Hr) as Hwf.
  destruct (match_spec aggressor qty b Hwf Hq)
    as (q2 & b2 & Hrun2 & Hwf' & _ & _ & _ & Hbb & Hba & _).
  rewrite Hrun in Hrun2. injection Hrun2 as <- <-.
  pose proof (match_internal_trade aggressor qty _ b q' b' Hwf Hq Hrun) as [_ Hf Hfr].
  pose proof (wf_inv _ Hwf) as Hinv. pose proof (wf_inv _ Hwf') as Hinv'.
  pose proof (inv_uncrossed _ _ Hinv) as Hunc.
  assert (∀ o ord, storage b !! o = Some ord → Order.side ord = aggressor →
            storage b' !! o = Some ord) as Hown.
  { intros o ord Ho Hs. apply Hfr; [done|].
    pose proof (inv_orders _ _ Hinv o ord Ho) as Hok.
    destruct aggressor; simpl; intros (? & ? & ? & ?).
    - pose proof (ok_buy _ _ _ _ Hok Hs). lia.
    - pose proof (ok_sell _ _ _ _ Hok Hs). lia. }
  split_and!; [done|done| |].
  - intros o ord o2 ord2 Ho Hch Ho2 Hs2.
    pose proof (inv_orders _ _ Hinv' o2 ord2 Ho2) as Hok2.
    destruct aggressor; simpl in *.
    + pose proof (ok_sell _ _ _ _ Hok2 Hs2).
      destruct (decide (Order.price ord ≤ best_ask_ b')) as [|Hn]; [lia|].
      destruct Hch. apply Hfr; [done|]. lia.
    + pose proof (ok_buy _ _ _ _ Hok2 Hs2).
      destruct (decide (best_bid_ b' ≤ Order.price ord)) as [|Hn]; [lia|].
      destruct Hch. apply Hfr; [done|]. lia.
  - pose proof (inv_bid_lo _ _ Hinv). pose proof (inv_ask_hi _ _ Hinv).
    pose proof (inv_bid_lo _ _ Hinv'). pose proof (inv_ask_hi _ _ Hinv').
    unfold bid, ask. destruct aggressor; (split; [|done]).
    + destruct (decide (0 ≤ best_bid_ b)) as [Hb|]; [|lia].
      destruct (PriceLevel.orders (lvl b (best_bid_ b))) as [|o l] eqn:Hl;
        [by destruct (wf_bid _ Hwf Hb)|].
      destruct (lv_mem _ _ _ (inv_levels _ _ Hinv (best_bid_ b)) o) as (ord & Ho & Hp).
      { rewrite Hl. apply list_elem_of_here. }
      pose proof (inv_orders _ _ Hinv o ord Ho) as Hok.
      destruct (Order.side ord) eqn:Hs.
      * pose proof (ok_buy _ _ _ _ (inv_orders _ _ Hinv' o ord (Hown o ord Ho Hs)) Hs). lia.
      * pose proof (ok_sell _ _ _ _ Hok Hs). lia.
    + destruct (decide (best_ask_ b ≤ MaxPrice)) as [Ha|]; [|lia].
      destruct (PriceLevel.orders (lvl b (best_ask_ b))) as [|o l] eqn:Hl;
        [by destruct (wf_ask _ Hwf Ha)|].
      destruct (lv_mem _ _ _ (inv_levels _ _ Hinv (best_ask_ b)) o) as (ord & Ho & Hp).
      { rewrite Hl. apply list_elem_of_here. }
      pose proof (inv_orders _ _ Hinv o ord Ho) as Hok.
      destruct (Order.side ord) eqn:Hs.
      * pose proof (ok_buy _ _ _ _ Hok Hs). lia.
      * pose proof (ok_sell _ _ _ _ (inv_orders _ _ Hinv' o ord (Hown o ord Ho Hs)) Hs). lia.
Qed.

(** ** The crossing part of add *)

(** An accepted [add] trades only within its limit price. With [rem] the
    remainder left by the crossing part: the quantity filled is exactly
    what left the book, and the book then grows by [rem] when the order
    rests (a limit order with [0 < rem]). Orders of the incoming order's
    own side, and opposite orders priced beyond its limit, are left as
    they were. When something remains unfilled, no opposite order priced
    within the limit is left in the book. *)
Theorem add_trades_within_limit id side px qty type ts b b' :
  reachable b → is_i64 qty →
  add id side px qty type ts b = Some (Ok, b') →
  ∃ rem b1, cross side px qty b = Some (rem, b1) ∧ 0 ≤ rem ≤ qty ∧
    qty - rem = resting_qty (storage b) - resting_qty (storage b1) ∧
    resting_qty (storage b')
      = resting_qty (storage b1) + (if decide (type = Limit) then rem else 0) ∧
    (∀ o ord, storage b !! o = Some ord →
       Order.side ord = side ∨
       match side with
       | Buy => px < Order.price ord
       | Sell => Order.price ord < px
       end →
       storage b' !! o = Some ord) ∧
    (0 < rem → ∀ o ord, storage b' !! o = Some ord → Order.side ord = flip side →
       match side with
       | Buy => px < Order.price ord
       | Sell => Order.price ord < px
       end).
Proof.
  intros Hr [_ Hq] Hadd. pose proof (reachable_wf b Hr) as Hwf.
  pose proof (wf_inv _ Hwf) as Hinv.
  destruct (add_spec id side px qty type ts b Hwf Hq) as (r & b2 & Hadd2 & Hwf' & Hout).
  rewrite Hadd in Hadd2. injection Hadd2 as <- <-.
  destruct (add_outcome_ok_inv _ _ _ _ _ _ _ _ Hout)
    as (rem & b1 & Hl & Hpos & Hpx & Hcross & Hcase).
  destruct (cross_ok side px qty b Hwf ltac:(lia) Hpx)
    as (rem2 & b2 & Hc2 & Hwf1 & Hrange & _ & Hnc & _).
  rewrite Hcross in Hc2. injection Hc2 as <- <-.
  pose proof (cross_trade side px qty b rem b1 Hwf Hq Hcross) as [Hc Hf Hfr].
  pose proof (inv_uncrossed _ _ Hinv) as Hunc.
  pose proof (wf_inv _ Hwf1) as Hinv1.
  assert (∀ o ord, storage b !! o = Some ord →
            Order.side ord = side ∨
            match side with
            | Buy => px < Order.price ord
            | Sell => Order.price ord < px
            end → storage b1 !! o = Some ord) as Hkeep.
  { intros o ord Ho Hwhy. apply Hfr; [done|].
    pose proof (inv_orders _ _ Hinv o ord Ho) as Hok.
    destruct side; simpl; intros (? & ? & ? & ?); destruct Hwhy as [Hs|?]; try lia.
    - pose proof (ok_buy _ _ _ _ Hok Hs). lia.
    - pose proof (ok_sell _ _ _ _ Hok Hs). lia. }
  assert (0 < rem → ∀ o ord, storage b1 !! o = Some ord → Order.side ord = flip side →
            match side with
            | Buy => px < Order.price ord
            | Sell => Order.price ord < px
            end) as Hleft.
  { intros Hrem o ord Ho Hs. specialize (Hnc Hrem).
    pose proof (inv_orders _ _ Hinv1 o ord Ho) as Hok.
    destruct side; simpl in *.
    - pose proof (ok_sell _ _ _ _ Hok Hs). lia.
    - pose proof (ok_buy _ _ _ _ Hok Hs). lia. }
  exists rem, b1. split; [done|]. split; [done|]. split; [done|].
  destruct Hcase as [[Hnr ->]|(-> & Hrem & _ & _ & o & rest & v & Hfree & Hfr1 & Hv & ->)].
  - split_and!; [|done|done].
    case_decide; [|lia]. destruct Hnr; [done|lia].
  - assert (storage (rested id side px rem Limit ts o v
                       (rest_bid side px b1) (rest_ask side px b1) b1)
            = <[o := Order.create id px rem side Limit ts]> (storage b1)) as Hst by done.
    split_and!.
    + rewrite Hst, decide_True by done.
      rewrite resting_qty_insert_None by done. simpl. lia.
    + intros x xo Hx Hwhy. rewrite Hst, lookup_insert_ne; [by apply Hkeep|].
      intros ->. rewrite (Hkeep _ _ Hx Hwhy) in Hfr1. done.
    + intros Hrem' x xo. rewrite Hst, lookup_insert. case_decide as Hx.
      * intros [= <-]. simpl. by destruct side.
      * by apply Hleft.
Qed.

(** ** Resting orders are only ever filled *)

(** No public call rewrites a resting order: after any call, an order of
    the book is either an order that was already in the same slot, with
    every field but the remaining quantity unchanged and the quantity not
    larger, or the limit order that this very [add] has just put there
    under a fresh id. *)
Theorem resting_orders_only_shrink op b b' :
  reachable b → well_typed op → step op b = Some b' →
  ∀ o ord', storage b' !! o = Some ord' →
    (∃ ord, storage b !! o = Some ord ∧ ord' = with_qty (Order.qty ord') ord ∧
            Order.qty ord' ≤ Order.qty ord) ∨
    (∃ side px qty ts,
       op = OpAdd (Order.id ord') side px qty Limit ts ∧
       (∀ x xo, storage b !! x = Some xo → Order.id xo ≠ Order.id ord') ∧
       ord' = Order.create (Order.id ord') px (Order.qty ord') side Limit ts ∧
       0 < Order.qty ord' ≤ qty).
Proof.
  intros Hr Hty Hstep. pose proof (reachable_wf b Hr) as Hwf.
  pose proof (wf_inv _ Hwf) as Hinv.
  destruct op as [id side px qty type ts|id|aggressor qty]; simpl in *.
  - destruct Hty as (_ & _ & [_ Hq] & _).
    destruct (add_spec id side px qty type ts b Hwf Hq) as (r & b2 & Hadd & _ & Hout).
    rewrite Hadd in Hstep. injection Hstep as ->.
    assert (only_fills b b' → ∀ o ord', storage b' !! o = Some ord' →
              ∃ ord, storage b !! o = Some ord ∧ ord' = with_qty (Order.qty ord') ord ∧
                     Order.qty ord' ≤ Order.qty ord) as Hold by (intros Hf; apply Hf).
    clear Hadd.
    destruct Hout as [| | |rem b1 Hl Hpos Hpx Hcross Hnr| 
                     |rem b1 o rest v Hl Hpos Hpx Hcross Hwf1 Hlim Hrem Hnc Hfree Hfr Hv];
      try (intros x xo Hx; left; by apply (only_fills_refl b b eq_refl)).
    + intros x xo Hx. left.
      by apply (trade_fills _ _ _ _ _ (cross_trade side px qty b rem b1 Hwf Hq Hcross)).
    + assert (storage (rested id side px rem Limit ts o v
                         (rest_bid side px b1) (rest_ask side px b1) b1)
              = <[o := Order.create id px rem side Limit ts]> (storage b1)) as Hst by done.
      intros x xo. rewrite Hst, lookup_insert. case_decide as Hx.
      * intros [= <-]. right. subst type. exists side, px, qty, ts. simpl.
        split_and!; try done; try lia.
        by apply (lookup_None_inv None b id Hinv Hl).
      * intros Hxo. left.
        by apply (trade_fills _ _ _ _ _ (cross_trade side px qty b rem b1 Hwf Hq Hcross)).
  - destruct (cancel_spec id b Hwf) as (r & b2 & Hc & _ & Hout).
    rewrite Hc in Hstep. injection Hstep as ->.
    intros x xo Hx. left.
    destruct (cancel_outcome_inv _ _ _ _ Hout) as [(_ & -> & _)|(_ & o & ord & _ & _ & Hst & _)].
    + by apply (only_fills_refl b b eq_refl).
    + by apply (only_fills_delete b b' o Hst).
  - destruct Hty as [_ Hq].
    destruct (match_ aggressor qty b) as [[q' b2]|] eqn:Hrun; [|done].
    injection Hstep as ->. intros x xo Hx. left.
    by apply (trade_fills _ _ _ _ _ (match_internal_trade aggressor qty _ b q' b' Hwf Hq Hrun)).
Qed.

(** [match] respects time priority at every price: what is left of a
    queue is the queue it was with some orders taken from the front; the
    orders taken were filled completely and are gone, and behind the head
    of what is left no order has been filled at all. *)
Theorem match_time_priority aggressor qty b q' b' :
  reachable b → is_i64 qty →
  match_ aggressor qty b = Some (q', b') →
  ∀ p, ∃ n,
    PriceLevel.orders (lvl b' p) = drop n (PriceLevel.orders (lvl b p)) ∧
    (∀ o, o ∈ take n (PriceLevel.orders (lvl b p)) → storage b' !! o = None) ∧
    (∀ o, o ∈ tail (PriceLevel.orders (lvl b' p)) → storage b' !! o = storage b !! o).
Proof.
  intros Hr [_ Hq] Hrun p. pose proof (reachable_wf b Hr) as Hwf.
  destruct (match_spec aggressor qty b Hwf Hq) as (q2 & b2 & Hrun2 & Hwf' & _).
  rewrite Hrun in Hrun2. injection Hrun2 as <- <-.
  pose proof (match_internal_trade aggressor qty _ b q' b' Hwf Hq Hrun) as [_ Hf _ Hqs].
  pose proof (wf_inv _ Hwf) as Hinv. pose proof (wf_inv _ Hwf') as Hinv'.
  destruct (Hqs p) as (n & Hn & Hkeep). exists n. split_and!; [done| |done].
  intros o Ho. destruct (storage b' !! o) as [ord'|] eqn:Ho'; [exfalso|done].
  destruct (Hf o ord' Ho') as (ord & Hob & Heq & _).
  pose proof (lv_nodup _ _ _ (inv_levels _ _ Hinv p)) as Hnd.
  rewrite <- (take_drop n (PriceLevel.orders (lvl b p))) in Hnd.
  apply NoDup_app in Hnd as (_ & Hdisj & _). apply (Hdisj o Ho).
  rewrite <- Hn.
  assert (Order.price ord' = p) as <-.
  { rewrite Heq. simpl. symmetry. apply (linked_price None b o ord p); [done|done|].
    eapply subseteq_take, Ho. }
  apply (ok_linked _ _ _ _ (inv_orders _ _ Hinv' o ord' Ho')).
Qed.

(** ** The stress driver *)

Lemma shrinks_size b b' :
  shrinks b b' → (size (storage b') ≤ size (storage b))%nat.
Proof.
  intros Hf. rewrite <- !size_dom. apply subseteq_size.
  intros o [ord' Ho]%elem_of_dom. destruct (Hf o ord' Ho) as (ord & Ho' & _).
  apply elem_of_dom. by eexists.
Qed.

(** The arguments the generator can produce, as the C++ types admit
    them. *)
Definition op_well_typed (op : Workload.Op) : Prop :=
  is_u64 (Workload.id op) ∧ is_i64 (Workload.price op) ∧ is_i64 (Workload.qty op).

(** The public call that the driver makes for an operation. *)
Definition call_of (op : Workload.Op) : Op :=
  match Workload.type op with
  | Workload.Add =>
      OpAdd (Workload.id op) (Workload.side op) (Workload.price op) (Workload.qty op)
            (Workload.ord_type op) 0
  | Workload.Cancel => OpCancel (Workload.id op)
  | Workload.Match => OpMatch (Workload.side op) (Workload.qty op)
  end.

(** What the counters say after [n] operations on a book that is now
    [b]. *)
Definition counted (c : Stress.counters) (b : OrderBook.t) (n : Z) : Prop :=
  0 ≤ Stress.add_ok c ≤ Stress.add_cnt c ∧
  0 ≤ Stress.cancel_ok c ≤ Stress.cancel_cnt c ∧
  0 ≤ Stress.match_cnt c ∧
  Stress.add_cnt c + Stress.cancel_cnt c + Stress.match_cnt c = n ∧
  Stress.cancel_ok c + order_count b ≤ Stress.add_ok c.

Lemma apply_op_counted op c b n :
  reachable b → op_well_typed op → counted c b n → n + 1 < 2 ^ 64 →
  ∃ c' b', Stress.apply_op MaxPrice MaxOrders gas op c b = Some (c', b') ∧
    reachable b' ∧ counted c' b' (n + 1).
Proof.
  intros Hr (Hid & Hpx & Hqty) (Ha & Hc & Hm & Hn & Hbal) Hlt.
  pose proof (reachable_wf b Hr) as Hwf. pose proof (wf_inv _ Hwf) as Hinv.
  assert (∀ z, 0 ≤ z → z ≤ n → wrap_u64 (z + 1) = z + 1) as Hw.
  { intros z ? ?. apply wrap_u64_id. unfold is_u64. lia. }
  assert (∀ b', step (call_of op) b = Some b' → reachable b') as Hreach.
  { intros b' Hs. apply (reach_step (call_of op) b b'); [done| |done].
    unfold call_of. destruct (Workload.type op); simpl;
      unfold is_u64, is_i64 in *; lia. }
  unfold Stress.apply_op.
  destruct (Workload.type op) eqn:Hty.
  - destruct (add_spec (Workload.id op) (Workload.side op) (Workload.price op)
                (Workload.qty op) (Workload.ord_type op) 0 b Hwf (proj2 Hqty))
      as (r & b' & Hadd & Hwf' & Hout).
    rewrite Hadd. simpl. eexists _, b'. split; [done|].
    split; [apply Hreach; unfold call_of; rewrite Hty; simpl; by rewrite Hadd|].
    pose proof (inv_total _ _ Hinv) as Htot.
    pose proof (inv_total _ _ (wf_inv _ Hwf')) as Htot'.
    unfold counted, order_count in *. simpl.
    rewrite (Hw (Stress.add_cnt c)) by lia.
    assert (r ≠ Ok → b' = b) as Hsame.
    { clear Hadd Htot'. destruct Hout; done. }
    assert (r = Ok → (size (storage b') ≤ size (storage b) + 1)%nat) as Hgrow.
    { intros ->. destruct (add_outcome_ok_inv _ _ _ _ _ _ _ _ Hout)
        as (rem & b1 & _ & Hpos & Hpxr & Hcross & Hcase).
      destruct (cross_ok (Workload.side op) (Workload.price op) (Workload.qty op) b Hwf
                  ltac:(destruct Hqty; lia) Hpxr)
        as (rem2 & b2 & Hc2 & _ & _ & Hsh & _).
      rewrite Hcross in Hc2. injection Hc2 as <- <-.
      pose proof (shrinks_size _ _ Hsh) as Hsz.
      destruct Hcase as [[_ ->]|(_ & _ & _ & _ & o & rest & v & _ & Hfr & _ & ->)]; [lia|].
      change (storage (rested _ _ _ _ _ _ o v _ _ b1))
        with (<[o := Order.create (Workload.id op) (Workload.price op) rem
                       (Workload.side op) Limit 0]> (storage b1)).
      rewrite map_size_insert_None by done. lia. }
    case_decide as Hr'.
    + specialize (Hgrow Hr'). rewrite (Hw (Stress.add_ok c)) by lia. lia.
    + rewrite (Hsame Hr') in *. lia.
  - destruct (cancel_spec (Workload.id op) b Hwf) as (r & b' & Hcan & Hwf' & Hout).
    rewrite Hcan. simpl. eexists _, b'. split; [done|].
    split; [apply Hreach; unfold call_of; rewrite Hty; simpl; by rewrite Hcan|].
    pose proof (inv_total _ _ Hinv) as Htot.
    pose proof (inv_total _ _ (wf_inv _ Hwf')) as Htot'.
    unfold counted, order_count in *. simpl.
    rewrite (Hw (Stress.cancel_cnt c)) by lia.
    destruct (cancel_outcome_inv _ _ _ _ Hout)
      as [(-> & -> & _)|(-> & o & ord & Ho & _ & Hst & _)].
    + lia.
    + rewrite (Hw (Stress.cancel_ok c)) by lia.
      pose proof (size_delete_S (storage b) o ord Ho) as Hsz.
      rewrite Hst in Htot'. lia.
  - destruct (match_spec (Workload.side op) (Workload.qty op) b Hwf (proj2 Hqty))
      as (q' & b' & Hrun & Hwf' & Hsh & _).
    rewrite Hrun. simpl. eexists _, b'. split; [done|].
    split; [apply Hreach; unfold call_of; rewrite Hty; simpl; by rewrite Hrun|].
    pose proof (inv_total _ _ Hinv) as Htot.
    pose proof (inv_total _ _ (wf_inv _ Hwf')) as Htot'.
    pose proof (shrinks_size _ _ Hsh) as Hsz.
    unfold counted, order_count in *. simpl.
    rewrite (Hw (Stress.match_cnt c)) by lia. lia.
Qed.

Lemma run_counted :
  ∀ ops c b n,
    reachable b → Forall op_well_typed ops → counted c b n →
    n + Z.of_nat (length ops) < 2 ^ 64 →
    ∃ c' b', Stress.run MaxPrice MaxOrders gas ops c b = Some (c', b') ∧
      reachable b' ∧ counted c' b' (n + Z.of_nat (length ops)).
Proof.
  induction ops as [|op ops IH]; intros c b n Hr Hty Hc Hlt; simpl in *.
  - exists c, b. split_and!; [done|done|]. by rewrite Z.add_0_r.
  - apply Forall_cons in Hty as [Hop Hty].
    destruct (apply_op_counted op c b n Hr Hop Hc ltac:(lia)) as (c1 & b1 & Hs & Hr1 & Hc1).
    rewrite Hs. simpl.
    destruct (IH c1 b1 (n + 1) Hr1 Hty Hc1 ltac:(lia)) as (c' & b' & Hrun & Hr' & Hc').
    exists c', b'. split_and!; [done|done|].
    replace (n + Z.of_nat (S (length ops))) with (n + 1 + Z.of_nat (length ops)) by lia.
    done.
Qed.

(** The stress driver always passes its memory check. For every sequence
    of operations the generator may return, the loop runs to the end, the
    final book has [pool_used = order_count] and [main] exits with 0; the
    counters add up to the number of operations, no more calls succeed than
    were made, and the orders still resting plus the successful cancels do
    not exceed the successful adds. *)
Theorem stress_memory_check_passes ops :
  Forall op_well_typed ops → Z.of_nat (length ops) < 2 ^ 64 →
  ∃ c b, Stress.run MaxPrice MaxOrders gas ops Stress.zero empty_book = Some (c, b) ∧
    reachable b ∧
    Stress.mem_ok b = true ∧
    Stress.main MaxPrice MaxOrders gas ops = Some 0 ∧
    Stress.add_cnt c + Stress.cancel_cnt c + Stress.match_cnt c = Z.of_nat (length ops) ∧
    0 ≤ Stress.add_ok c ≤ Stress.add_cnt c ∧
    0 ≤ Stress.cancel_ok c ≤ Stress.cancel_cnt c ∧
    Stress.cancel_ok c + order_count b ≤ Stress.add_ok c.
Proof.
  intros Hty Hlen.
  destruct (run_counted ops Stress.zero empty_book 0) as (c & b & Hrun & Hr & Hc);
    [apply reach_init|done| |lia|].
  { unfold counted, order_count. simpl. lia. }
  destruct Hc as (Ha & Hcn & Hm & Hn & Hbal).
  assert (Stress.mem_ok b = true) as Hmem.
  { pose proof (reachable_wf b Hr) as [Hinv _ _].
    unfold Stress.mem_ok, pool_used, order_count, MemPool.used.
    apply bool_decide_eq_true. by rewrite (inv_alloc _ _ Hinv), (inv_total _ _ Hinv). }
  exists c, b. split_and!; try done; try lia.
  unfold Stress.main. rewrite Hrun. simpl. by rewrite Hmem.
Qed.

(** ** Best-price scans *)

Lemma update_best_ask_walk b0 :
  ∀ fuel a0, 0 ≤ a0 ≤ MaxPrice + 1 →
    (Z.to_nat (MaxPrice + 1 - a0) < fuel)%nat →
    ∃ a, update_best_ask fuel (set_best_ask a0 b0) = Some (set_best_ask a b0) ∧
         a0 ≤ a ≤ MaxPrice + 1 ∧
         (∀ q, a0 ≤ q < a → PriceLevel.empty (lvl b0 q) = true) ∧
         (a ≤ MaxPrice → PriceLevel.empty (lvl b0 a) = false).
Proof.
  induction fuel as [|fuel IH]; intros a0 Ha0 Hf; [lia|].
  simpl. case_decide as Hle.
  2:{ exists a0. split_and!; [done|lia|lia|intros; lia|intros; lia]. }
  rewrite level_ref_in by (simpl; lia). simpl. lvl_simpl.
  destruct (PriceLevel.empty (lvl b0 a0)) eqn:He.
  - rewrite wrap_i64_id by (unfold is_i64; lia).
    destruct (IH (a0 + 1)) as (a & Hrun & Ha & Hbelow & Htight); [lia|lia|].
    exists a. split_and!; [done|lia|lia| |done].
    intros q Hq. destruct (decide (q = a0)) as [->|]; [done|].
    apply Hbelow. lia.
  - exists a0. split_and!; [done|lia|lia|intros; lia|done].
Qed.

Lemma update_best_bid_walk b0 :
  ∀ fuel v0, -1 ≤ v0 ≤ MaxPrice →
    (Z.to_nat (v0 + 1) < fuel)%nat →
    ∃ v, update_best_bid fuel (set_best_bid v0 b0) = Some (set_best_bid v b0) ∧
         -1 ≤ v ≤ v0 ∧
         (∀ q, v < q ≤ v0 → PriceLevel.empty (lvl b0 q) = true) ∧
         (0 ≤ v → PriceLevel.empty (lvl b0 v) = false).
Proof.
  induction fuel as [|fuel IH]; intros v0 Hv0 Hf; [lia|].
  simpl. case_decide as Hle.
  2:{ exists v0. split_and!; [done|lia|lia|intros; lia|intros; lia]. }
  rewrite level_ref_in by (simpl; lia). simpl. lvl_simpl.
  destruct (PriceLevel.empty (lvl b0 v0)) eqn:He.
  - rewrite wrap_i64_id by (unfold is_i64; lia).
    destruct (IH (v0 - 1)) as (v & Hrun & Hv & Habove & Htight); [lia|lia|].
    exists v. split_and!; [done|lia|lia| |done].
    intros q Hq. destruct (decide (q = v0)) as [->|]; [done|].
    apply Habove. lia.
  - exists v0. split_and!; [done|lia|lia|intros; lia|done].
Qed.

(** [update_best_bid] and [update_best_ask] on any book whose best price
    is inside the array or at its sentinel: the scan returns, changes
    nothing but the best price, skips exactly the levels that are
    [empty()], and stops on the first level that is not, or on the
    sentinel ([-1], resp. [MaxPrice + 1]) when there is none; it never
    reads outside [levels_]. *)
Theorem update_best_scans b :
  (-1 ≤ best_bid_ b ≤ MaxPrice →
     ∃ v, update_best_bid gas b = Some (set_best_bid v b) ∧
          -1 ≤ v ≤ best_bid_ b ∧
          (∀ q, v < q ≤ best_bid_ b → PriceLevel.empty (lvl b q) = true) ∧
          (0 ≤ v → PriceLevel.empty (lvl b v) = false)) ∧
  (0 ≤ best_ask_ b ≤ MaxPrice + 1 →
     ∃ a, update_best_ask gas b = Some (set_best_ask a b) ∧
          best_ask_ b ≤ a ≤ MaxPrice + 1 ∧
          (∀ q, best_ask_ b ≤ q < a → PriceLevel.empty (lvl b q) = true) ∧
          (a ≤ MaxPrice → PriceLevel.empty (lvl b a) = false)).
Proof.
  split; intros Hb.
  - destruct (update_best_bid_walk b gas (best_bid_ b) Hb ltac:(lia)) as (v & Hrun & Hrest).
    rewrite set_best_bid_id in Hrun. by exists v.
  - destruct (update_best_ask_walk b gas (best_ask_ b) Hb ltac:(lia)) as (a & Hrun & Hrest).
    rewrite set_best_ask_id in Hrun. by exists a.
Qed.

(** ** Resting an order *)

(** What resting does to the book. When a limit [add] rests the
    remainder [rem] of its order after the crossing part: [order_count] and
    [pool_used] grow by one, the level at its price gains one order and
    [rem] in quantity and no other level changes, a buy raises the best
    bid to its price when that is higher and leaves the best ask alone,
    and a sell lowers the best ask to its price when that is lower and
    leaves the best bid alone. *)
Theorem add_rests_and_updates_best id side px qty ts b b' rem b1 :
  reachable b → is_i64 qty →
  add id side px qty Limit ts b = Some (Ok, b') →
  cross side px qty b = Some (rem, b1) → 0 < rem →
  order_count b' = order_count b1 + 1 ∧
  pool_used b' = pool_used b1 + 1 ∧
  PriceLevel.count (lvl b' px) = PriceLevel.count (lvl b1 px) + 1 ∧
  PriceLevel.qty (lvl b' px) = wrap_i64 (PriceLevel.qty (lvl b1 px) + rem) ∧
  (∀ q, q ≠ px → lvl b' q = lvl b1 q) ∧
  match side with
  | Buy => bid b' = Z.max (bid b1) px ∧ ask b' = ask b1 ∧ has_bid b' = true
  | Sell => ask b' = Z.min (ask b1) px ∧ bid b' = bid b1 ∧ has_ask MaxPrice b' = true
  end.
Proof.
  intros Hr [_ Hq] Hadd Hcross Hrem. pose proof (reachable_wf b Hr) as Hwf.
  destruct (add_spec id side px qty Limit ts b Hwf Hq) as (r & b2 & Hadd2 & Hwf' & Hout).
  rewrite Hadd in Hadd2. injection Hadd2 as <- <-.
  destruct (add_outcome_ok_inv _ _ _ _ _ _ _ _ Hout)
    as (rem' & b0 & Hl & Hpos & Hpx & Hcross' & Hcase).
  rewrite Hcross in Hcross'. injection Hcross' as <- <-.
  destruct Hcase as [[[Hnl|Hle] _]|(_ & _ & Hwf1 & _ & o & rest & v & Hfree & Hfr & Hv & Heq)];
    [done|lia|].
  pose proof (wf_inv _ Hwf1) as Hinv1. pose proof (wf_inv _ Hwf') as Hinv'.
  pose proof (inv_bid_lo _ _ Hinv1). pose proof (inv_ask_hi _ _ Hinv1).
  assert (size (storage b') = S (size (storage b1))) as Hsz.
  { rewrite Heq.
    change (storage (rested _ _ _ _ _ _ o v _ _ b1))
      with (<[o := Order.create id px rem side Limit ts]> (storage b1)).
    by rewrite map_size_insert_None. }
  pose proof (inv_levels _ _ Hinv' px) as [_ Hcnt' _ _].
  pose proof (inv_levels _ _ Hinv1 px) as [_ Hcnt1 _ _].
  unfold order_count, pool_used, MemPool.used, PriceLevel.count, PriceLevel.qty,
    bid, ask, has_bid, has_ask.
  split_and!.
  - rewrite (inv_total _ _ Hinv'), (inv_total _ _ Hinv1), Hsz. lia.
  - rewrite (inv_alloc _ _ Hinv'), (inv_alloc _ _ Hinv1), Hsz. lia.
  - rewrite Hcnt', Hcnt1. rewrite Heq, lvl_rested, decide_True by done. simpl.
    rewrite length_app. simpl. lia.
  - rewrite Heq, lvl_rested, decide_True by done. done.
  - intros q Hne. rewrite Heq, lvl_rested. by rewrite decide_False by done.
  - rewrite Heq. unfold rest_bid, rest_ask. destruct side; simpl; split_and!; try done;
      apply bool_decide_eq_true; lia.
Qed.
End BookTheory.

(** * The intrusive list of a price level *)

Section LinksTheory.
Variable this : Z.

Import Links.

Local Abbreviation sentinel := (Sentinel this).

(** The node in front of a queue that is followed by [q], and the node
    at the back of a queue that is preceded by [p]. *)
Definition hd_node (l : list nat) (q : node) : node :=
  match l with [] => q | o :: _ => Slot o end.
Definition last_node (l : list nat) (p : node) : node :=
  match last l with None => p | Some o => Slot o end.

(** The orders of [l] are linked in this order between [p] and [q]. *)
Fixpoint chain (m : gmap node cell) (p : node) (l : list nat) (q : node) : Prop :=
  match l with
  | [] => True
  | o :: l' =>
      m !! Slot o = Some (mkcell (Some p) (Some (hd_node l' q))) ∧
      chain m (Slot o) l' q
  end.

(** The links of the level at [this] represent the queue [l]: the
    circular list runs from the sentinel through the orders of [l] and
    back to the sentinel. *)
Record repr (lv : Links.t) (l : list nat) : Prop := {
  repr_nodup : NoDup l;
  repr_sentinel :
    mem lv !! sentinel
      = Some (mkcell (Some (last_node l sentinel)) (Some (hd_node l sentinel)));
  repr_chain : chain (mem lv) sentinel l sentinel
}.

(** The level of the list model that the links and counters stand for. *)
Definition abs (lv : Links.t) (l : list nat) : PriceLevel.t :=
  PriceLevel.mk l (order_cnt lv) (total_qty lv).

(** The iteration [for (n = from; n != end(); n = n->next)] that a client
    of the list writes, collecting the orders it visits; and the same
    iteration backwards, along [prev]. *)
Fixpoint walk (fuel : nat) (m : gmap node cell) (n : node) : option (list nat) :=
  match fuel with
  | O => None
  | S fuel' =>
      if decide (n = end_ this) then Some []
      else match n with
           | Slot o =>
               c ← m !! n; nx ← next c;
               l ← walk fuel' m nx; Some (o :: l)
           | Sentinel _ => None
           end
  end.

Fixpoint walk_back (fuel : nat) (m : gmap node cell) (n : node) : option (list nat) :=
  match fuel with
  | O => None
  | S fuel' =>
      if decide (n = end_ this) then Some []
      else match n with
           | Slot o =>
               c ← m !! n; pv ← prev c;
               l ← walk_back fuel' m pv; Some (o :: l)
           | Sentinel _ => None
           end
  end.

Lemma last_node_cons a l p : last_node (a :: l) p = last_node l (Slot a).
Proof. unfold last_node. rewrite last_cons. by destruct (last l). Qed.

Lemma last_node_snoc l x p : last_node (l ++ [x]) p = Slot x.
Proof. unfold last_node. by rewrite last_snoc. Qed.

Lemma last_node_app l1 a l2 p : last_node (l1 ++ a :: l2) p = last_node l2 (Slot a).
Proof.
  revert p. induction l1 as [|b l1 IH]; intros p; simpl.
  - apply last_node_cons.
  - rewrite last_node_cons. apply IH.
Qed.

Lemma hd_node_app l1 a l2 q : hd_node (l1 ++ a :: l2) q = hd_node l1 (Slot a).
Proof. by destruct l1. Qed.

Lemma chain_frame m m' p l q :
  (∀ o, o ∈ l → m' !! Slot o = m !! Slot o) → chain m p l q → chain m' p l q.
Proof.
  revert p. induction l as [|o l IH]; intros p Hsame; simpl; [done|].
  intros [Ho Hc]. split.
  - rewrite Hsame; [done|]. apply list_elem_of_here.
  - apply IH; [|done]. intros x Hx. apply Hsame. by apply list_elem_of_further.
Qed.

Lemma chain_app m p l1 a l2 q :
  chain m p (l1 ++ a :: l2) q ↔
  chain m p l1 (Slot a) ∧ chain m (last_node l1 p) (a :: l2) q.
Proof.
  revert p. induction l1 as [|b l1 IH]; intros p.
  - simpl. unfold last_node. simpl. tauto.
  - rewrite last_node_cons. simpl. rewrite hd_node_app, IH. simpl. tauto.
Qed.

Lemma repr_init m : repr (init this m) [].
Proof. split; [constructor| |done]. simpl. apply lookup_insert_eq. Qed.

(** [push_back] on the links appends to the queue. When the links of the
    level represent the queue [l] and [o] is an order of the pool that is
    not in it, [push_back o] returns, the links then represent
    [l ++ [o]], the counters are those of the list model, and no link
    field is written other than those of [o], of the old tail and of the
    sentinel. *)
Theorem links_push_back_appends st lv l o ord co :
  repr lv l → o ∉ l → mem lv !! Slot o = Some co → st !! o = Some ord →
  ∃ lv', Links.push_back this st o lv = Some lv' ∧
    repr lv' (l ++ [o]) ∧
    PriceLevel.push_back st o (abs lv l) = Some (abs lv' (l ++ [o])) ∧
    (∀ n, n ≠ Slot o → n ≠ sentinel → n ≠ last_node l sentinel →
          mem lv' !! n = mem lv !! n).
Proof.
  intros [Hnd Hs Hc] Hnotin Hco Ho.
  assert (NoDup (l ++ [o])) as Hnd'.
  { apply NoDup_app. split_and!; [done| |apply NoDup_singleton].
    intros x Hx [->|[]%elem_of_nil]%elem_of_cons. done. }
  assert (sentinel ≠ Slot o) as Hso by done.
  unfold Links.push_back, set_prev, set_next. rewrite Hs. simpl. rewrite Hco. simpl.
  rewrite lookup_insert_eq. simpl.
  destruct l as [|x l0 _] using rev_ind.
  - unfold last_node in *. simpl in *.
    rewrite !lookup_insert_ne by done. rewrite Hs. simpl.
    rewrite lookup_insert_eq. simpl. rewrite Ho. simpl.
    eexists. split; [done|]. split_and!.
    + split; [done| |]; simpl.
      * by rewrite lookup_insert_eq.
      * split; [|done]. rewrite !lookup_insert_ne by done. apply lookup_insert_eq.
    + unfold PriceLevel.push_back, abs. simpl. by rewrite Ho.
    + intros n Hn1 Hn2 _. simpl. by rewrite !lookup_insert_ne by done.
  - rewrite last_node_snoc in *.
    apply chain_app in Hc as [Hc0 [Hx _]]. simpl in Hx.
    assert (x ≠ o) as Hxo.
    { intros ->. apply Hnotin. apply elem_of_app. right. apply list_elem_of_here. }
    assert (Slot x ≠ Slot o) as Hxo' by congruence.
    assert (sentinel ≠ Slot x) as Hsx by done.
    rewrite !lookup_insert_ne by done. rewrite Hx. simpl.
    rewrite lookup_insert_ne by done. rewrite !lookup_insert_ne by done.
    rewrite Hs. simpl. rewrite Ho. simpl.
    eexists. split; [done|]. split_and!.
    + split; [done| |]; simpl.
      * rewrite lookup_insert_eq, last_node_snoc. do 3 f_equal. by destruct l0.
      * rewrite <- app_assoc. simpl. apply chain_app. split.
        -- eapply chain_frame; [|exact Hc0]. intros y Hy.
           apply NoDup_app in Hnd as (_ & Hdisj & _).
           assert (y ≠ x) as Hyx.
           { intros ->. apply (Hdisj x Hy). apply list_elem_of_here. }
           assert (y ≠ o) as Hyo.
           { intros ->. apply Hnotin. apply elem_of_app. by left. }
           rewrite !lookup_insert_ne by congruence. done.
        -- simpl. split_and!; [| |done].
           ++ rewrite lookup_insert_ne by done. by rewrite lookup_insert_eq.
           ++ rewrite !lookup_insert_ne by done. by rewrite lookup_insert_eq.
    + unfold PriceLevel.push_back, abs. simpl. by rewrite Ho.
    + intros n Hn1 Hn2 Hn3. simpl. by rewrite !lookup_insert_ne by done.
Qed.

Lemma split_unique (o : nat) l1 l2 l1' l2' :
  o ∉ l1 → o ∉ l2 → l1 ++ o :: l2 = l1' ++ o :: l2' → l1' = l1 ∧ l2' = l2.
Proof.
  revert l1'. induction l1 as [|a l1 IH]; intros [|a' l1'] Hn1 Hn2 Heq; simpl in *.
  - by injection Heq as ->.
  - injection Heq as <- ->. destruct Hn2. apply elem_of_app. right. apply list_elem_of_here.
  - injection Heq as -> _. destruct Hn1. apply list_elem_of_here.
  - injection Heq as <- Heq. apply not_elem_of_cons in Hn1 as [_ Hn1].
    by destruct (IH l1' Hn1 Hn2 Heq) as [-> ->].
Qed.

(** [remove] on the links unlinks exactly the given order. When the
    links of the level represent the queue [l] and [o] is in it,
    [remove o] returns, the links then represent [l] without [o] (the
    other orders keep their order), both links of [o] are null, the
    counters are those of the list model, and no link field is written
    other than those of [o] and of its two neighbours. *)
Theorem links_remove_unlinks st lv l o ord :
  repr lv l → o ∈ l → st !! o = Some ord →
  ∃ lv', Links.remove st o lv = Some lv' ∧
    repr lv' (filter (λ x, x ≠ o) l) ∧
    PriceLevel.remove st o (abs lv l) = Some (abs lv' (filter (λ x, x ≠ o) l)) ∧
    mem lv' !! Slot o = Some (mkcell None None) ∧
    (∀ l1 l2 n, l = l1 ++ o :: l2 →
       n ≠ Slot o → n ≠ last_node l1 sentinel → n ≠ hd_node l2 sentinel →
       mem lv' !! n = mem lv !! n).
Proof.
  intros [Hnd Hs Hc] Hin Ho.
  apply list_elem_of_split in Hin as (l1 & l2 & ->).
  assert (filter (λ x, x ≠ o) (l1 ++ o :: l2) = l1 ++ l2) as Hfilter.
  { apply NoDup_app in Hnd as (_ & Hdisj & [Hn2 _]%NoDup_cons).
    rewrite filter_app, filter_cons_False by (intros H; by apply H).
    rewrite !filter_ne_notin; [done|done|].
    intros Hin. apply (Hdisj o Hin). apply list_elem_of_here. }
  assert (∀ l1' l2', l1 ++ o :: l2 = l1' ++ o :: l2' → l1' = l1 ∧ l2' = l2) as Huniq.
  { intros l1' l2' Heq.
    apply NoDup_app in Hnd as (_ & Hdisj & [Hn2 _]%NoDup_cons).
    apply (split_unique o l1 l2 l1' l2'); [|done|done].
    intros Hin. apply (Hdisj o Hin). apply list_elem_of_here. }
  assert (PriceLevel.remove st o (abs lv (l1 ++ o :: l2))
          = Some (PriceLevel.mk (l1 ++ l2) (wrap_u64 (order_cnt lv - 1))
                    (wrap_i64 (total_qty lv - Order.qty ord)))) as Habs.
  { unfold PriceLevel.remove, abs. simpl. rewrite Ho. simpl.
    rewrite decide_True by (apply elem_of_app; right; apply list_elem_of_here).
    by rewrite Hfilter. }
  rewrite Hfilter.
  assert (NoDup (l1 ++ l2)) as Hnd'.
  { apply NoDup_app in Hnd as (Hn1 & Hdisj & [_ Hn2]%NoDup_cons).
    apply NoDup_app. split_and!; [done| |done].
    intros x Hx Hx2. apply (Hdisj x Hx). by apply list_elem_of_further. }
  assert ((o ∉ l1) ∧ (o ∉ l2)) as [Hno1 Hno2].
  { apply NoDup_app in Hnd as (_ & Hdisj & [Hn2 _]%NoDup_cons). split; [|done].
    intros Hin. apply (Hdisj o Hin). apply list_elem_of_here. }
  apply chain_app in Hc as [Hc1 [Hco Hc2]]. simpl in Hco.
  rewrite last_node_app, hd_node_app in Hs.
  assert (sentinel ≠ Slot o) as Hso by done.
  unfold Links.remove, set_prev, set_next. rewrite Hco. simpl.
  destruct l1 as [|x l0 _] using rev_ind; destruct l2 as [|y l2'].
  - (* the only order of the level *)
    unfold last_node, hd_node in *. simpl in *.
    rewrite Hs. simpl. rewrite lookup_insert_ne by done. rewrite Hco. simpl.
    rewrite lookup_insert_eq. simpl. rewrite Ho. simpl.
    rewrite lookup_insert_ne by done. rewrite lookup_insert_ne by done.
    rewrite Hco. simpl. rewrite lookup_insert_eq. simpl.
    eexists. split; [done|]. split_and!.
    + split; [constructor| |done]. simpl.
      rewrite !lookup_insert_ne by done. apply lookup_insert_eq.
    + done.
    + simpl. apply lookup_insert_eq.
    + intros l1' l2' n Heq Hn1 Hn2 Hn3. destruct (Huniq l1' l2' Heq) as [-> ->].
      simpl in *. by rewrite !lookup_insert_ne by done.
  - (* the head of the queue *)
    change (last_node [] sentinel) with sentinel in *.
    unfold hd_node in *. simpl in *. rewrite last_node_cons in Hs.
    destruct Hc2 as [Hy Hc2].
    assert (y ≠ o) as Hyo.
    { intros ->. apply Hno2. apply list_elem_of_here. }
    assert (Slot y ≠ Slot o) as Hyo' by congruence.
    assert (sentinel ≠ Slot y) as Hsy by done.
    rewrite Hs. simpl. rewrite lookup_insert_ne by done. rewrite Hco. simpl.
    rewrite lookup_insert_ne by done. rewrite Hy. simpl. rewrite Ho. simpl.
    rewrite !lookup_insert_ne by done. rewrite Hco. simpl.
    rewrite lookup_insert_eq. simpl.
    eexists. split; [done|]. split_and!.
    + split; [done| |]; simpl.
      * rewrite !lookup_insert_ne by done. rewrite lookup_insert_eq.
        by rewrite !last_node_cons.
      * split.
        -- rewrite !lookup_insert_ne by done. by rewrite lookup_insert_eq.
        -- eapply chain_frame; [|exact Hc2]. intros z Hz.
           apply NoDup_cons in Hnd as [_ [Hzy _]%NoDup_cons].
           assert (z ≠ y) by (intros ->; done).
           assert (z ≠ o).
           { intros ->. apply Hno2. by apply list_elem_of_further. }
           by rewrite !lookup_insert_ne by congruence.
    + done.
    + simpl. apply lookup_insert_eq.
    + intros l1' l2'0 n Heq Hn1 Hn2 Hn3.
      destruct (Huniq l1' l2'0 Heq) as [-> ->].
      unfold last_node in Hn2. simpl in *. by rewrite !lookup_insert_ne by done.
  - (* the tail of the queue *)
    rewrite last_node_snoc in *. unfold hd_node in Hs, Hco. simpl in *.
    apply chain_app in Hc1 as [Hc0 [Hx _]]. simpl in Hx.
    assert (x ≠ o) as Hxo.
    { intros ->. apply Hno1. apply elem_of_app. right. apply list_elem_of_here. }
    assert (Slot x ≠ Slot o) as Hxo' by congruence.
    assert (sentinel ≠ Slot x) as Hsx by done.
    rewrite Hx. simpl. rewrite lookup_insert_ne by done. rewrite Hco. simpl.
    rewrite lookup_insert_ne by done. rewrite Hs. simpl. rewrite Ho. simpl.
    rewrite !lookup_insert_ne by done. rewrite Hco. simpl.
    rewrite lookup_insert_eq. simpl.
    eexists. split; [done|]. split_and!.
    + rewrite app_nil_r. split; [by rewrite app_nil_r in Hnd'| |]; simpl.
      * rewrite !lookup_insert_ne by done. rewrite lookup_insert_eq.
        rewrite last_node_snoc. do 3 f_equal. by destruct l0.
      * apply chain_app. split.
        -- eapply chain_frame; [|exact Hc0]. intros z Hz.
           rewrite app_nil_r in Hnd'. apply NoDup_app in Hnd' as (_ & Hdisj & _).
           assert (z ≠ x).
           { intros ->. apply (Hdisj x Hz). apply list_elem_of_here. }
           assert (z ≠ o).
           { intros ->. apply Hno1. apply elem_of_app. by left. }
           by rewrite !lookup_insert_ne by congruence.
        -- simpl. split; [|done].
           rewrite !lookup_insert_ne by done. by rewrite lookup_insert_eq.
    + exact Habs.
    + simpl. apply lookup_insert_eq.
    + intros l1' l2' n Heq Hn1 Hn2 Hn3. destruct (Huniq l1' l2' Heq) as [-> ->].
      rewrite last_node_snoc in Hn2. simpl in *.
      by rewrite !lookup_insert_ne by done.
  - (* an order in the middle *)
    rewrite last_node_snoc in *. unfold hd_node in Hco. simpl in *.
    apply chain_app in Hc1 as [Hc0 [Hx _]]. simpl in Hx.
    destruct Hc2 as [Hy Hc2].
    assert (x ≠ o) as Hxo.
    { intros ->. apply Hno1. apply elem_of_app. right. apply list_elem_of_here. }
    assert (y ≠ o) as Hyo.
    { intros ->. apply Hno2. apply list_elem_of_here. }
    assert (x ≠ y) as Hxy.
    { intros ->. apply NoDup_app in Hnd' as (_ & Hdisj & _).
      apply (Hdisj y); [apply elem_of_app; right|]; apply list_elem_of_here. }
    assert (Slot x ≠ Slot o) as Hxo' by congruence.
    assert (Slot y ≠ Slot o) as Hyo' by congruence.
    assert (Slot x ≠ Slot y) as Hxy' by congruence.
    assert (sentinel ≠ Slot x) as Hsx by done.
    assert (sentinel ≠ Slot y) as Hsy by done.
    rewrite Hx. simpl. rewrite lookup_insert_ne by done. rewrite Hco. simpl.
    rewrite lookup_insert_ne by done. rewrite Hy. simpl. rewrite Ho. simpl.
    rewrite !lookup_insert_ne by done. rewrite Hco. simpl.
    rewrite lookup_insert_eq. simpl.
    eexists. split; [done|]. split_and!.
    + split; [done| |]; simpl.
      * rewrite !lookup_insert_ne by done. rewrite Hs.
        rewrite last_node_app, hd_node_app, !last_node_cons. do 3 f_equal.
        by destruct l0.
      * rewrite <- app_assoc. simpl. apply chain_app. split.
        -- eapply chain_frame; [|exact Hc0]. intros z Hz.
           apply NoDup_app in Hnd' as (Hn1 & Hdisj & _).
           apply NoDup_app in Hn1 as (_ & Hdisj1 & _).
           assert (z ≠ x).
           { intros ->. apply (Hdisj1 x Hz). apply list_elem_of_here. }
           assert (z ≠ y).
           { intros ->. apply (Hdisj y); [apply elem_of_app; by left|].
             apply list_elem_of_here. }
           assert (z ≠ o).
           { intros ->. apply Hno1. apply elem_of_app. by left. }
           by rewrite !lookup_insert_ne by congruence.
        -- simpl. split_and!.
           ++ rewrite !lookup_insert_ne by done. by rewrite lookup_insert_eq.
           ++ rewrite !lookup_insert_ne by done. by rewrite lookup_insert_eq.
           ++ eapply chain_frame; [|exact Hc2]. intros z Hz.
              apply NoDup_app in Hnd' as (_ & Hdisj & [Hzy _]%NoDup_cons).
              assert (z ≠ y) by (intros ->; done).
              assert (z ≠ x).
              { intros ->. apply (Hdisj x); [apply elem_of_app; right; apply list_elem_of_here|].
                by apply list_elem_of_further. }
              assert (z ≠ o).
              { intros ->. apply Hno2. by apply list_elem_of_further. }
              by rewrite !lookup_insert_ne by congruence.
    + done.
    + simpl. apply lookup_insert_eq.
    + intros l1' l2'0 n Heq Hn1 Hn2 Hn3.
      destruct (Huniq l1' l2'0 Heq) as [-> ->].
      rewrite last_node_snoc in Hn2. simpl in *.
      by rewrite !lookup_insert_ne by done.
Qed.

Lemma walk_chain m p l :
  chain m p l sentinel →
  ∀ fuel, (length l < fuel)%nat → walk fuel m (hd_node l sentinel) = Some l.
Proof.
  revert p. induction l as [|o l IH]; intros p Hc fuel Hf;
    (destruct fuel as [|fuel]; [simpl in Hf; lia|]); simpl.
  - by rewrite decide_True.
  - destruct Hc as [Ho Hc]. rewrite Ho. simpl.
    rewrite (IH (Slot o) Hc) by (simpl in Hf; lia). done.
Qed.

Lemma walk_back_chain m l :
  ∀ q, chain m sentinel l q →
  ∀ fuel, (length l < fuel)%nat →
    walk_back fuel m (last_node l sentinel) = Some (rev l).
Proof.
  induction l as [|x l IH] using rev_ind; intros q Hc fuel Hf;
    (destruct fuel as [|fuel]; [simpl in Hf; lia|]).
  - simpl. by rewrite decide_True.
  - apply chain_app in Hc as [Hc0 [Hx _]].
    rewrite last_node_snoc, rev_app_distr. simpl.
    rewrite Hx. simpl.
    rewrite (IH (Slot x) Hc0); [done|]. rewrite length_app in Hf. simpl in Hf. lia.
Qed.

(** Reading the list. When the links of the level represent the queue
    [l]: [front] is the first order and [back] the last, each of them
    [end()] exactly when the queue is empty; walking along [next] from
    [front] until [end()] visits the orders of [l] in queue order, and
    walking along [prev] from [back] visits them in reverse. A new level
    represents the empty queue. *)
Theorem links_traversal lv l :
  repr lv l →
  front this lv = Some (hd_node l sentinel) ∧
  back this lv = Some (last_node l sentinel) ∧
  (front this lv = Some (end_ this) ↔ l = []) ∧
  (back this lv = Some (end_ this) ↔ l = []) ∧
  (∀ fuel, (length l < fuel)%nat →
     walk fuel (mem lv) (hd_node l sentinel) = Some l ∧
     walk_back fuel (mem lv) (last_node l sentinel) = Some (rev l)) ∧
  (∀ m, repr (init this m) []).
Proof.
  intros [Hnd Hs Hc]. unfold front, back, end_. rewrite Hs. simpl.
  split_and!; try done.
  - split; [|by intros ->]. destruct l; [done|]. simpl. by intros [= ?].
  - split; [|by intros ->]. destruct l as [|x l _] using rev_ind; [done|].
    rewrite last_node_snoc. by intros [= ?].
  - intros fuel Hf. split; [by eapply walk_chain|by eapply walk_back_chain].
  - apply repr_init.
Qed.

(** [push_back] followed by [remove] of the same order gives back the
    level as it was: the queue, the count and the total quantity, whatever
    the quantity of the order (the two 64-bit updates cancel even when the
    total wraps in between). After [push_back] the order is at the back,
    and the front is the front as it was, or the order itself when the
    level was empty. *)
Theorem level_push_back_remove_round_trip st lv o ord :
  st !! o = Some ord → o ∉ PriceLevel.orders lv →
  is_u64 (PriceLevel.order_cnt lv) → is_i64 (PriceLevel.total_qty lv) →
  ∃ lv1, PriceLevel.push_back st o lv = Some lv1 ∧
    PriceLevel.back lv1 = Some o ∧
    PriceLevel.front lv1 = Some (default o (PriceLevel.front lv)) ∧
    PriceLevel.remove st o lv1 = Some lv.
Proof.
  intros Ho Hnotin Hcnt Hqty.
  unfold PriceLevel.push_back, PriceLevel.remove, PriceLevel.back, PriceLevel.front.
  rewrite Ho. simpl. eexists. split; [done|]. simpl.
  split_and!.
  - apply last_snoc.
  - by destruct (PriceLevel.orders lv).
  - rewrite decide_True by (apply elem_of_app; right; apply list_elem_of_here).
    rewrite filter_app, filter_cons_False, filter_nil, app_nil_r
      by (intros H; by apply H).
    rewrite filter_ne_notin by done.
    rewrite wrap_i64_sub_l.
    replace (PriceLevel.total_qty lv + Order.qty ord - Order.qty ord)
      with (PriceLevel.total_qty lv) by lia.
    rewrite (wrap_i64_id (PriceLevel.total_qty lv)) by done.
    assert (wrap_u64 (wrap_u64 (PriceLevel.order_cnt lv + 1) - 1) = PriceLevel.order_cnt lv)
      as ->.
    { unfold wrap_u64. rewrite Zminus_mod_idemp_l.
      replace (PriceLevel.order_cnt lv + 1 - 1) with (PriceLevel.order_cnt lv) by lia.
      apply Z.mod_small. apply Hcnt. }
    by destruct lv.
Qed.
End LinksTheory.

(** * Concrete books *)

(** The instantiation of the test suite, [OrderBook<10000, 1000>], with a
    loop budget that covers the runs below. *)
Module TestBook.
Definition MaxPrice : Z := 10000.
Definition MaxOrders : nat := 1000.
Definition gas : nat := Z.to_nat 12000.

Definition empty : OrderBook.t := empty_book MaxPrice MaxOrders.
Definition add := add MaxPrice MaxOrders gas.
Definition cancel := cancel MaxPrice MaxOrders gas.
Definition match_ := match_ MaxPrice MaxOrders gas.
Definition get_order_value := get_order_value MaxOrders gas.

(** What the test reads of an order: [get_order(id)->qty], or that the
    pointer is null. *)
Definition qty_of (id : Z) (b : OrderBook.t) : option (option Z) :=
  fmap (M:=option) Order.qty <$> get_order_value id b.

(** The ids queued at a price, front first. *)
Definition queue_at (px : Z) (b : OrderBook.t) : option (list (option Z)) :=
  lv ← level_at MaxPrice px b;
  Some ((λ o, Order.id <$> OrderBook.storage b !! o) <$> PriceLevel.orders lv).

(** Scenario [price-time priority] of the test suite: three asks at 100,
    then a buy of 15. *)
Definition price_time_priority
  : option (AddResult * AddResult * AddResult * Z * OrderBook.t) :=
  '(r1, b1) ← add 1 Sell 100 10 Limit 0 empty;
  '(r2, b2) ← add 2 Sell 100 10 Limit 0 b1;
  '(r3, b3) ← add 3 Sell 100 10 Limit 0 b2;
  '(unfilled, b4) ← match_ Buy 15 b3;
  Some (r1, r2, r3, unfilled, b4).
End TestBook.

(** A book small enough for the loop budget that the theorems ask for:
    [OrderBook<3, 2>]. *)
Module SmallBook.
Definition MaxPrice : Z := 3.
Definition MaxOrders : nat := 2.
Definition gas : nat := 16.

Definition empty : OrderBook.t := empty_book MaxPrice MaxOrders.
Definition add := add MaxPrice MaxOrders gas.
Definition cancel := cancel MaxPrice MaxOrders gas.
Definition match_ := match_ MaxPrice MaxOrders gas.
Definition step := step MaxPrice MaxOrders gas.
Definition reachable := reachable MaxPrice MaxOrders gas.

Definition run (ops : list Op) : option OrderBook.t :=
  foldl (λ ob op, b ← ob; step op b) (Some empty) ops.

(** One ask: sell 10 at price 2 under id 1. *)
Definition one_ask : OrderBook.t :=
  Eval vm_compute in default empty (run [OpAdd 1 Sell 2 10 Limit 0]).

(** Two asks at the same price: ids 1 and 2, 10 each, at price 2. *)
Definition two_asks : OrderBook.t :=
  Eval vm_compute in
    default empty (run [OpAdd 1 Sell 2 10 Limit 0; OpAdd 2 Sell 2 10 Limit 0]).

(** Two bids of 2^62 each at price 1. *)
Definition big_bids : OrderBook.t :=
  Eval vm_compute in
    default empty (run [OpAdd 1 Buy 1 (2 ^ 62) Limit 0; OpAdd 2 Buy 1 (2 ^ 62) Limit 0]).

(** A second ask behind the first: sell 5 at price 3 under id 2. *)
Definition two_asks_at_3 : OrderBook.t :=
  Eval vm_compute in
    default empty (run [OpAdd 1 Sell 2 10 Limit 0; OpAdd 2 Sell 3 5 Limit 7]).

(** A bid under the ask: buy 5 at price 1 under id 2; and the book after
    that bid has been cancelled. *)
Definition bid_and_ask : OrderBook.t :=
  Eval vm_compute in
    default empty (run [OpAdd 1 Sell 2 10 Limit 0; OpAdd 2 Buy 1 5 Limit 0]).
Definition bid_cancelled : OrderBook.t :=
  Eval vm_compute in
    default empty (run [OpAdd 1 Sell 2 10 Limit 0; OpAdd 2 Buy 1 5 Limit 0; OpCancel 2]).

Lemma params_ok :
  0 ≤ MaxPrice < 2 ^ 63 - 1 ∧ (0 < MaxOrders)%nat ∧ Z.of_nat MaxOrders < 2 ^ 64 ∧
  (MaxOrders * MaxOrders * MaxOrders + MaxOrders + Z.to_nat MaxPrice + 3 ≤ gas)%nat.
Proof. vm_compute. split_and!; (done || lia). Qed.

Lemma reachable_one_ask : reachable one_ask.
Proof.
  apply (reach_step MaxPrice MaxOrders gas (OpAdd 1 Sell 2 10 Limit 0) empty);
    [apply reach_init| |by vm_compute].
  unfold well_typed, is_u64, is_i64. lia.
Qed.

Lemma reachable_two_asks : reachable two_asks.
Proof.
  apply (reach_step MaxPrice MaxOrders gas (OpAdd 2 Sell 2 10 Limit 0) one_ask);
    [apply reachable_one_ask| |by vm_compute].
  unfold well_typed, is_u64, is_i64. lia.
Qed.

Lemma reachable_big_bids : reachable big_bids.
Proof.
  apply (reach_step MaxPrice MaxOrders gas (OpAdd 2 Buy 1 (2 ^ 62) Limit 0)
           (default empty (run [OpAdd 1 Buy 1 (2 ^ 62) Limit 0])));
    [|unfold well_typed, is_u64, is_i64; lia|by vm_compute].
  apply (reach_step MaxPrice MaxOrders gas (OpAdd 1 Buy 1 (2 ^ 62) Limit 0) empty);
    [apply reach_init|unfold well_typed, is_u64, is_i64; lia|by vm_compute].
Qed.
End SmallBook.

(** * Price-time priority *)

(** C3. Same-price orders are matched strictly in arrival order. In every
    reachable state an order that rests (with the remainder [rem] left by
    the crossing part of [add]) is appended at the tail of the queue of its
    price, and the fill loop of a level always takes the head: a partial
    fill leaves the head in place with its quantity reduced, a complete fill
    unlinks it and the loop goes on with the next order.
    On the scenario of the test suite: from the empty book, three asks of 10
    at price 100 under ids 1, 2, 3 and then a buy of 15 leave nothing
    unfilled, order 1 is gone, order 2 has quantity 5 and order 3 has
    quantity 10, with 2 ahead of 3 in the queue. *)
Theorem C3_price_time_priority :
  (∀ (MaxPrice : Z) (MaxOrders gas : nat),
     0 ≤ MaxPrice < 2 ^ 63 - 1 → (0 < MaxOrders)%nat → Z.of_nat MaxOrders < 2 ^ 64 →
     (MaxOrders * MaxOrders * MaxOrders + MaxOrders + Z.to_nat MaxPrice + 3 ≤ gas)%nat →
     ∀ b, reachable MaxPrice MaxOrders gas b →
       (∀ id side px qty ts b' rem b1,
          is_i64 qty →
          add MaxPrice MaxOrders gas id side px qty Limit ts b = Some (Ok, b') →
          cross MaxPrice MaxOrders gas side px qty b = Some (rem, b1) → 0 < rem →
          ∃ o, get_order MaxOrders gas id b' = Some (Some o) ∧
               OrderBook.storage b1 !! o = None ∧
               PriceLevel.orders (lvl b' px) = PriceLevel.orders (lvl b1 px) ++ [o] ∧
               OrderBook.storage b'
                 = <[o := Order.create id px rem side Limit ts]> (OrderBook.storage b1)) ∧
       (∀ fuel px qty o rest ord,
          (2 ≤ fuel)%nat → 0 ≤ px ≤ MaxPrice → 0 < qty < 2 ^ 63 →
          PriceLevel.orders (lvl b px) = o :: rest →
          OrderBook.storage b !! o = Some ord →
          (qty < Order.qty ord →
             ∃ b', match_level MaxPrice MaxOrders gas fuel px qty b = Some (0, b') ∧
                   PriceLevel.orders (lvl b' px) = o :: rest ∧
                   OrderBook.storage b' = <[o := Order.fill qty ord]> (OrderBook.storage b) ∧
                   Order.qty (Order.fill qty ord) = Order.qty ord - qty) ∧
          (Order.qty ord ≤ qty →
             ∃ b', match_level MaxPrice MaxOrders gas fuel px qty b
                     = match_level MaxPrice MaxOrders gas (pred fuel) px
                         (qty - Order.qty ord) b' ∧
                   PriceLevel.orders (lvl b' px) = rest ∧
                   OrderBook.storage b' = delete o (OrderBook.storage b)))) ∧
  (∃ b4, TestBook.price_time_priority = Some (Ok, Ok, Ok, 0, b4) ∧
         TestBook.qty_of 1 b4 = Some None ∧
         TestBook.qty_of 2 b4 = Some (Some 5) ∧
         TestBook.qty_of 3 b4 = Some (Some 10) ∧
         TestBook.queue_at 100 b4 = Some [Some 2; Some 3]).
Proof.
  split.
  - intros MaxPrice MaxOrders gas HP HM HM64 Hgas b Hr.
    pose proof (reachable_wf MaxPrice MaxOrders gas HP HM HM64 Hgas b Hr) as Hwf.
    split.
    + intros id side px qty ts b' rem b1 [_ Hq] Hadd Hcross Hrem.
      by apply (add_rests_at_tail MaxPrice MaxOrders gas HP HM HM64 Hgas
                  id side px qty ts b b' rem b1).
    + intros fuel px qty o rest ord Hfuel Hpx Hq Hl Ho.
      by apply (match_level_fifo MaxPrice MaxOrders gas HP HM HM64 Hgas fuel b px qty o rest ord).
  - eexists. split; [by vm_compute|]. by vm_compute.
Qed.

(** * The theorems on concrete books *)

(** Discharges the four assumptions on the parameters at [SmallBook]. *)
Ltac small_params :=
  first [ exact (proj1 SmallBook.params_ok)
        | exact (proj1 (proj2 SmallBook.params_ok))
        | exact (proj1 (proj2 (proj2 SmallBook.params_ok)))
        | exact (proj2 (proj2 (proj2 SmallBook.params_ok))) ].

(** C1 on the book with two asks. *)
Lemma C1_book_never_crossed_witness :
  SmallBook.reachable SmallBook.two_asks ∧
  not_crossed SmallBook.MaxPrice SmallBook.two_asks ∧
  ∀ op, well_typed op →
    ∃ b', SmallBook.step op SmallBook.two_asks = Some b' ∧
          not_crossed SmallBook.MaxPrice b'.
Proof.
  split; [exact SmallBook.reachable_two_asks|].
  apply (C1_book_never_crossed SmallBook.MaxPrice SmallBook.MaxOrders SmallBook.gas);
    [small_params..|exact SmallBook.reachable_two_asks].
Defined.

(** C2 on a full pool: both slots of the book hold an ask, and a bid under
    them is refused with [PoolExhausted]. *)
Lemma C2_pool_exhausted_no_mutation_witness :
  SmallBook.reachable SmallBook.two_asks ∧ is_i64 5 ∧
  SmallBook.add 3 Buy 1 5 Limit 0 SmallBook.two_asks
    = Some (PoolExhausted, SmallBook.two_asks) ∧
  pool_used SmallBook.two_asks = pool_capacity SmallBook.MaxOrders ∧
  (SmallBook.two_asks = SmallBook.two_asks ∧
   order_count SmallBook.two_asks = order_count SmallBook.two_asks ∧
   pool_used SmallBook.two_asks = pool_used SmallBook.two_asks ∧
   bid SmallBook.two_asks = bid SmallBook.two_asks ∧
   ask SmallBook.two_asks = ask SmallBook.two_asks ∧
   (∀ p, level_at SmallBook.MaxPrice p SmallBook.two_asks
         = level_at SmallBook.MaxPrice p SmallBook.two_asks) ∧
   OrderBook.storage SmallBook.two_asks = OrderBook.storage SmallBook.two_asks).
Proof.
  split; [exact SmallBook.reachable_two_asks|].
  split; [unfold is_i64; lia|].
  split; [by vm_compute|].
  split; [by vm_compute|].
  apply (C2_pool_exhausted_no_mutation SmallBook.MaxPrice SmallBook.MaxOrders SmallBook.gas
           ltac:(small_params) ltac:(small_params) ltac:(small_params) ltac:(small_params)
           3 Buy 1 5 Limit 0 SmallBook.two_asks SmallBook.two_asks);
    [exact SmallBook.reachable_two_asks|unfold is_i64; lia|by vm_compute].
Defined.

(** C3 on the book with two asks at price 2: a buy of 3 fills the head of
    the queue partially and leaves it at the head. *)
Lemma C3_price_time_priority_witness :
  SmallBook.reachable SmallBook.two_asks ∧
  PriceLevel.orders (lvl SmallBook.two_asks 2) = [0%nat; 1%nat] ∧
  ∃ ord b',
    OrderBook.storage SmallBook.two_asks !! 0%nat = Some ord ∧ Order.id ord = 1 ∧
    match_level SmallBook.MaxPrice SmallBook.MaxOrders SmallBook.gas 5 2 3 SmallBook.two_asks
      = Some (0, b') ∧
    PriceLevel.orders (lvl b' 2) = [0%nat; 1%nat] ∧
    OrderBook.storage b' = <[0%nat := Order.fill 3 ord]> (OrderBook.storage SmallBook.two_asks) ∧
    Order.qty (Order.fill 3 ord) = Order.qty ord - 3.
Proof.
  split; [exact SmallBook.reachable_two_asks|].
  split; [by vm_compute|].
  exists (Order.mk 1 2 10 10 0 Sell Limit).
  destruct (proj1 (proj2 (proj1 C3_price_time_priority
              SmallBook.MaxPrice SmallBook.MaxOrders SmallBook.gas
              ltac:(small_params) ltac:(small_params) ltac:(small_params) ltac:(small_params)
              SmallBook.two_asks SmallBook.reachable_two_asks)
            5%nat 2 3 0%nat [1%nat] (Order.mk 1 2 10 10 0 Sell Limit)
            ltac:(lia) ltac:(vm_compute; split; discriminate) ltac:(lia)
            ltac:(by vm_compute) ltac:(by vm_compute))
          ltac:(simpl; lia)) as (b' & Hm & Hq & Hst & Hfill).
  exists b'. split_and!; [by vm_compute|done|exact Hm|exact Hq|exact Hst|exact Hfill].
Defined.

(** C4 on the book with two asks: id 2 is found in pool slot 1. *)
Lemma C4_index_consistent_witness :
  SmallBook.reachable SmallBook.two_asks ∧
  ∃ ord, OrderBook.storage SmallBook.two_asks !! 1%nat = Some ord ∧ Order.id ord = 2 ∧
    get_order SmallBook.MaxOrders SmallBook.gas 2 SmallBook.two_asks = Some (Some 1%nat) ∧
    1%nat ∈ PriceLevel.orders (lvl SmallBook.two_asks (Order.price ord)).
Proof.
  split; [exact SmallBook.reachable_two_asks|].
  exists (Order.mk 2 2 10 10 0 Sell Limit).
  split; [by vm_compute|]. split; [done|].
  apply (proj1 (C4_index_consistent SmallBook.MaxPrice SmallBook.MaxOrders SmallBook.gas
                  ltac:(small_params) ltac:(small_params) ltac:(small_params)
                  ltac:(small_params) SmallBook.two_asks 2 SmallBook.reachable_two_asks)
           1%nat (Order.mk 2 2 10 10 0 Sell Limit)); [by vm_compute|done].
Defined.

(** Two bids of 2^62 at the same price: the level's total wraps to -2^63
    while the quantities of its two orders add up to 2^63. *)
Lemma C5_counterexample :
  SmallBook.reachable SmallBook.big_bids ∧
  ∃ lv, level_at SmallBook.MaxPrice 1 SmallBook.big_bids = Some lv ∧
        PriceLevel.count lv = 2 ∧
        PriceLevel.qty lv = - 2 ^ 63 ∧
        sum_qty (OrderBook.storage SmallBook.big_bids) (PriceLevel.orders lv) = 2 ^ 63 ∧
        bid_qty SmallBook.MaxPrice SmallBook.big_bids = Some (- 2 ^ 63).
Proof.
  split; [exact SmallBook.reachable_big_bids|].
  eexists. split; [by vm_compute|]. by vm_compute.
Qed.

(** C5 on the book with two asks, at their price. *)
Lemma C5_level_aggregates_witness :
  SmallBook.reachable SmallBook.two_asks ∧ 0 ≤ 2 ≤ SmallBook.MaxPrice ∧
  ∃ lv, level_at SmallBook.MaxPrice 2 SmallBook.two_asks = Some lv ∧
    PriceLevel.count lv = Z.of_nat (length (PriceLevel.orders lv)) ∧
    PriceLevel.qty lv
      = wrap_i64 (sum_qty (OrderBook.storage SmallBook.two_asks) (PriceLevel.orders lv)) ∧
    (sum_qty (OrderBook.storage SmallBook.two_asks) (PriceLevel.orders lv) < 2 ^ 63 →
     PriceLevel.qty lv
       = sum_qty (OrderBook.storage SmallBook.two_asks) (PriceLevel.orders lv)) ∧
    NoDup (PriceLevel.orders lv) ∧
    (∀ o, o ∈ PriceLevel.orders lv ↔
          ∃ ord, OrderBook.storage SmallBook.two_asks !! o = Some ord ∧
                 Order.price ord = 2).
Proof.
  split; [exact SmallBook.reachable_two_asks|].
  split; [vm_compute; split; discriminate|].
  apply (C5_level_aggregates SmallBook.MaxPrice SmallBook.MaxOrders SmallBook.gas);
    [small_params..|exact SmallBook.reachable_two_asks|vm_compute; split; discriminate].
Defined.

(** C6 on the book with one ask: a second ask rests behind it with
    [qty = orig_qty = 5]. *)
Lemma C6_resting_order_quantities_witness :
  SmallBook.reachable SmallBook.one_ask ∧ is_i64 5 ∧
  SmallBook.add 2 Sell 3 5 Limit 7 SmallBook.one_ask
    = Some (Ok, SmallBook.two_asks_at_3) ∧
  cross SmallBook.MaxPrice SmallBook.MaxOrders SmallBook.gas Sell 3 5 SmallBook.one_ask
    = Some (5, SmallBook.one_ask) ∧
  get_order_value SmallBook.MaxOrders SmallBook.gas 2 SmallBook.two_asks_at_3
    = Some (Some (Order.mk 2 3 5 5 7 Sell Limit)).
Proof.
  split; [exact SmallBook.reachable_one_ask|].
  split; [unfold is_i64; lia|].
  split; [by vm_compute|].
  split; [by vm_compute|].
  apply (proj1 (proj2 (proj1 (proj2
           (C6_resting_order_quantities SmallBook.MaxPrice SmallBook.MaxOrders SmallBook.gas
              ltac:(small_params) ltac:(small_params) ltac:(small_params)
              ltac:(small_params) SmallBook.one_ask SmallBook.reachable_one_ask))
           2 Sell 3 5 Limit 7 SmallBook.two_asks_at_3 5 SmallBook.one_ask
           ltac:(unfold is_i64; lia) ltac:(by vm_compute) ltac:(by vm_compute))));
    [done|lia].
Defined.

(** A market buy priced below the only ask: [add] matches nothing and
    leaves the book as it is, while the sweep with the extreme limit fills
    the whole quantity and empties the book. *)
Lemma C7_counterexample :
  SmallBook.reachable SmallBook.one_ask ∧
  SmallBook.add 2 Buy 1 10 Market 0 SmallBook.one_ask = Some (Ok, SmallBook.one_ask) ∧
  order_count SmallBook.one_ask = 1 ∧
  ask_qty SmallBook.MaxPrice SmallBook.one_ask = Some 10 ∧
  ∃ b', SmallBook.match_ Buy 10 SmallBook.one_ask = Some (0, b') ∧
        order_count b' = 0 ∧ ask_qty SmallBook.MaxPrice b' = Some 0.
Proof.
  split; [exact SmallBook.reachable_one_ask|].
  do 3 (split; [by vm_compute|]).
  eexists. split; [by vm_compute|]. by vm_compute.
Qed.

(** C7 on the book with an ask of 10 at price 2 and an ask of 5 at price 3:
    a market buy of 12 priced at 2 takes the ask at 2, leaves 2 unfilled and
    does not touch the ask at 3. *)
Lemma C7_market_add_limited_by_price_witness :
  SmallBook.reachable SmallBook.two_asks_at_3 ∧ is_i64 12 ∧
  (∀ o ord, OrderBook.storage SmallBook.two_asks_at_3 !! o = Some ord → Order.id ord ≠ 3) ∧
  0 < 12 ∧ 0 ≤ 2 ≤ SmallBook.MaxPrice ∧
  crosses Buy 2 SmallBook.two_asks_at_3 ∧
  OrderBook.storage SmallBook.two_asks_at_3 !! 1%nat
    = Some (Order.mk 2 3 5 5 7 Sell Limit) ∧
  ∃ rem b',
    SmallBook.add 3 Buy 2 12 Market 0 SmallBook.two_asks_at_3 = Some (Ok, b') ∧
    SmallBook.add 3 Buy 2 12 IOC 0 SmallBook.two_asks_at_3 = Some (Ok, b') ∧
    match_internal SmallBook.MaxPrice SmallBook.MaxOrders SmallBook.gas Buy 12 2
      SmallBook.two_asks_at_3 = Some (rem, b') ∧
    rem = 2 ∧
    12 - rem = resting_qty (OrderBook.storage SmallBook.two_asks_at_3)
               - resting_qty (OrderBook.storage b') ∧
    OrderBook.storage b' !! 1%nat = Some (Order.mk 2 3 5 5 7 Sell Limit) ∧
    (∀ o ord, OrderBook.storage b' !! o = Some ord → Order.id ord ≠ 3) ∧
    (∀ o ord, OrderBook.storage b' !! o = Some ord → Order.side ord = Sell →
              2 < Order.price ord).
Proof.
  assert (SmallBook.reachable SmallBook.two_asks_at_3) as Hr.
  { apply (reach_step SmallBook.MaxPrice SmallBook.MaxOrders SmallBook.gas
             (OpAdd 2 Sell 3 5 Limit 7) SmallBook.one_ask);
      [apply SmallBook.reachable_one_ask| |by vm_compute].
    unfold well_typed, is_u64, is_i64. lia. }
  assert (∀ o ord, OrderBook.storage SmallBook.two_asks_at_3 !! o = Some ord →
                   Order.id ord ≠ 3) as Hfresh.
  { apply (bool_decide_unpack
             (map_Forall (λ _ ord, Order.id ord ≠ 3)
                (OrderBook.storage SmallBook.two_asks_at_3))).
    by vm_compute. }
  assert (0 ≤ 2 ≤ SmallBook.MaxPrice) as Hpx by (vm_compute; split; discriminate).
  assert (crosses Buy 2 SmallBook.two_asks_at_3) as Hx by (vm_compute; discriminate).
  assert (OrderBook.storage SmallBook.two_asks_at_3 !! 1%nat
            = Some (Order.mk 2 3 5 5 7 Sell Limit)) as Hask by (by vm_compute).
  split; [exact Hr|]. split; [unfold is_i64; lia|]. split; [exact Hfresh|].
  split; [lia|]. split; [exact Hpx|]. split; [exact Hx|]. split; [exact Hask|].
  destruct (C7_market_add_limited_by_price SmallBook.MaxPrice SmallBook.MaxOrders
              SmallBook.gas
              ltac:(small_params) ltac:(small_params) ltac:(small_params) ltac:(small_params)
              3 Buy 2 12 0 SmallBook.two_asks_at_3 Hr ltac:(unfold is_i64; lia))
    as [Hioc Hmarket].
  destruct (Hmarket Hfresh ltac:(lia) Hpx)
    as (rem & b' & Hadd & Hsweep & _ & Hcons & _ & Hnone & _ & Hkeep & Hleft & _).
  rewrite decide_True in Hsweep by exact Hx.
  assert (rem = 2) as Hrem.
  { pose proof Hsweep as Hrun. vm_compute in Hrun. by injection Hrun as <- _. }
  exists rem, b'. split; [exact Hadd|]. split; [exact (eq_trans (eq_sym Hioc) Hadd)|].
  split; [exact Hsweep|]. split; [exact Hrem|]. split; [exact Hcons|].
  split; [apply (Hkeep 1%nat _ Hask); right; simpl; lia|].
  split; [exact Hnone|].
  intros o ord Ho Hs. apply (Hleft ltac:(lia) o ord Ho Hs).
Defined.

(** C8 on the book with one ask: a live id is reported before a bad price,
    a bad quantity before a bad price. *)
Lemma C8_add_validation_order_witness :
  SmallBook.reachable SmallBook.one_ask ∧ is_i64 5 ∧
  (∃ o ord, OrderBook.storage SmallBook.one_ask !! o = Some ord ∧ Order.id ord = 1) ∧
  SmallBook.add 1 Buy (-1) 5 Limit 0 SmallBook.one_ask
    = Some (DuplicateId, SmallBook.one_ask) ∧
  (∀ o ord, OrderBook.storage SmallBook.one_ask !! o = Some ord → Order.id ord ≠ 2) ∧
  SmallBook.add 2 Buy (-1) 0 Limit 0 SmallBook.one_ask
    = Some (InvalidQty, SmallBook.one_ask) ∧
  SmallBook.add 2 Buy (-1) 5 Limit 0 SmallBook.one_ask
    = Some (InvalidPrice, SmallBook.one_ask) ∧
  SmallBook.add 2 Buy (SmallBook.MaxPrice + 1) 5 Limit 0 SmallBook.one_ask
    = Some (InvalidPrice, SmallBook.one_ask).
Proof.
  assert (∀ o ord, OrderBook.storage SmallBook.one_ask !! o = Some ord → Order.id ord ≠ 2)
    as Hfresh.
  { apply (bool_decide_unpack
             (map_Forall (λ _ ord, Order.id ord ≠ 2) (OrderBook.storage SmallBook.one_ask))).
    by vm_compute. }
  assert (∃ o ord, OrderBook.storage SmallBook.one_ask !! o = Some ord ∧ Order.id ord = 1)
    as Hlive.
  { exists 0%nat, (Order.mk 1 2 10 10 0 Sell Limit). by vm_compute. }
  split; [exact SmallBook.reachable_one_ask|].
  split; [unfold is_i64; lia|].
  split; [exact Hlive|].
  split.
  { apply (proj1 (C8_add_validation_order SmallBook.MaxPrice SmallBook.MaxOrders SmallBook.gas
                    ltac:(small_params) ltac:(small_params) ltac:(small_params)
                    ltac:(small_params) 1 Buy (-1) 5 Limit 0 SmallBook.one_ask
                    SmallBook.reachable_one_ask ltac:(unfold is_i64; lia))).
    exact Hlive. }
  split; [exact Hfresh|].
  split; [by vm_compute|].
  apply (proj1 (proj2 (proj2 (proj2
           (C8_add_validation_order SmallBook.MaxPrice SmallBook.MaxOrders SmallBook.gas
              ltac:(small_params) ltac:(small_params) ltac:(small_params)
              ltac:(small_params) 2 Buy (-1) 5 Limit 0 SmallBook.one_ask
              SmallBook.reachable_one_ask ltac:(unfold is_i64; lia)) Hfresh)))).
  lia.
Defined.

(** A buy that crosses the only ask and consumes it: [add] returns [Ok]
    with nothing resting, the [cancel] of its id misses, and the ask that was
    in the book before the [add] is gone. *)
Lemma C9_counterexample :
  SmallBook.reachable SmallBook.one_ask ∧
  ∃ b1, SmallBook.add 2 Buy 2 10 Limit 0 SmallBook.one_ask = Some (Ok, b1) ∧
        SmallBook.cancel 2 b1 = Some (false, b1) ∧
        (order_count SmallBook.one_ask = 1 ∧ order_count b1 = 0) ∧
        (pool_used SmallBook.one_ask = 1 ∧ pool_used b1 = 0) ∧
        (ask SmallBook.one_ask = 2 ∧ ask b1 = 4) ∧
        (PriceLevel.qty <$> level_at SmallBook.MaxPrice 2 SmallBook.one_ask) = Some 10 ∧
        (PriceLevel.qty <$> level_at SmallBook.MaxPrice 2 b1) = Some 0 ∧
        (PriceLevel.count <$> level_at SmallBook.MaxPrice 2 SmallBook.one_ask) = Some 1 ∧
        (PriceLevel.count <$> level_at SmallBook.MaxPrice 2 b1) = Some 0.
Proof.
  split; [exact SmallBook.reachable_one_ask|].
  eexists. split; [by vm_compute|]. by vm_compute.
Qed.

(** C9 on the book with one ask: a bid under the ask rests and is
    cancelled. *)
Lemma C9_add_cancel_round_trip_witness :
  SmallBook.reachable SmallBook.one_ask ∧ is_i64 5 ∧
  (crosses Buy 1 SmallBook.one_ask → False) ∧
  SmallBook.add 2 Buy 1 5 Limit 0 SmallBook.one_ask = Some (Ok, SmallBook.bid_and_ask) ∧
  SmallBook.cancel 2 SmallBook.bid_and_ask = Some (true, SmallBook.bid_cancelled) ∧
  (order_count SmallBook.bid_cancelled = order_count SmallBook.one_ask ∧
   pool_used SmallBook.bid_cancelled = pool_used SmallBook.one_ask ∧
   bid SmallBook.bid_cancelled = bid SmallBook.one_ask ∧
   ask SmallBook.bid_cancelled = ask SmallBook.one_ask ∧
   (∀ p, level_at SmallBook.MaxPrice p SmallBook.bid_cancelled
         = level_at SmallBook.MaxPrice p SmallBook.one_ask) ∧
   OrderBook.storage SmallBook.bid_cancelled = OrderBook.storage SmallBook.one_ask ∧
   (true = true ↔ Limit = Limit)).
Proof.
  assert (¬ crosses Buy 1 SmallBook.one_ask) as Hnc by (vm_compute; intros H; by apply H).
  split; [exact SmallBook.reachable_one_ask|].
  split; [unfold is_i64; lia|].
  split; [exact Hnc|].
  split; [by vm_compute|]. split; [by vm_compute|].
  apply (C9_add_cancel_round_trip SmallBook.MaxPrice SmallBook.MaxOrders SmallBook.gas
           ltac:(small_params) ltac:(small_params) ltac:(small_params) ltac:(small_params)
           2 Buy 1 5 Limit 0 SmallBook.one_ask SmallBook.bid_and_ask true
           SmallBook.bid_cancelled
           SmallBook.reachable_one_ask ltac:(unfold is_i64; lia) Hnc);
    by vm_compute.
Defined.

(** C10 on the book with two asks. *)
Lemma C10_match_nonpositive_is_noop_witness :
  (0 < SmallBook.gas)%nat ∧ -5 ≤ 0 ∧
  SmallBook.match_ Sell (-5) SmallBook.two_asks = Some (-5, SmallBook.two_asks) ∧
  SmallBook.match_ Buy 0 SmallBook.two_asks = Some (0, SmallBook.two_asks).
Proof.
  split; [vm_compute; lia|]. split; [lia|]. split.
  - apply (C10_match_nonpositive_is_noop SmallBook.MaxPrice SmallBook.MaxOrders SmallBook.gas
             Sell (-5) SmallBook.two_asks); [vm_compute; lia|lia].
  - by vm_compute.
Defined.

(** * Further theorems on concrete states *)

(** More states of the small book, of its pool and of one of its levels. *)
Module SmallStates.
Import SmallBook.

Lemma reachable_two_asks_at_3 : reachable two_asks_at_3.
Proof.
  apply (reach_step MaxPrice MaxOrders gas (OpAdd 2 Sell 3 5 Limit 7) one_ask);
    [apply reachable_one_ask| |by vm_compute].
  unfold well_typed, is_u64, is_i64. lia.
Qed.

Lemma reachable_bid_and_ask : reachable bid_and_ask.
Proof.
  apply (reach_step MaxPrice MaxOrders gas (OpAdd 2 Buy 1 5 Limit 0) one_ask);
    [apply reachable_one_ask| |by vm_compute].
  unfold well_typed, is_u64, is_i64. lia.
Qed.

(** The two asks at prices 2 and 3 after a market buy of 12: the ask at 2
    is gone and 3 are left of the ask at 3. *)
Definition after_buy_12 : OrderBook.t :=
  Eval vm_compute in default empty (run [OpAdd 1 Sell 2 10 Limit 0; OpAdd 2 Sell 3 5 Limit 7;
                                         OpMatch Buy 12]).

(** The two asks at price 2 after a market buy of 15. *)
Definition after_buy_15 : OrderBook.t :=
  Eval vm_compute in default empty (run [OpAdd 1 Sell 2 10 Limit 0; OpAdd 2 Sell 2 10 Limit 0;
                                         OpMatch Buy 15]).

(** The ask of 10 at price 2 after a limit buy of 15 at 2: the ask is
    filled and the remaining 5 rest as a bid. *)
Definition crossed_and_rested : OrderBook.t :=
  Eval vm_compute in default empty (run [OpAdd 1 Sell 2 10 Limit 0; OpAdd 2 Buy 2 15 Limit 0]).

(** The ask of 10 at price 2 after a market buy of 3. *)
Definition after_buy_3 : OrderBook.t :=
  Eval vm_compute in default empty (run [OpAdd 1 Sell 2 10 Limit 0; OpMatch Buy 3]).

(** The book with one ask, with its best ask put back to 0. *)
Definition stale_ask : OrderBook.t := OrderBook.set_best_ask 0 one_ask.

(** A run of the stress driver. *)
Definition ops : list Workload.Op :=
  [Workload.mk Workload.Add 1 Sell 2 10 Limit;
   Workload.mk Workload.Add 2 Buy 1 5 Limit;
   Workload.mk Workload.Cancel 2 Buy 0 0 Limit;
   Workload.mk Workload.Match 0 Buy 0 4 Limit;
   Workload.mk Workload.Add 1 Sell 3 5 Limit].

(** Two asks whose ids, 1 and 3, have the same home cell in the index
    table of two cells. *)
Definition asks_1_3 : OrderBook.t :=
  Eval vm_compute in
    default empty (run [OpAdd 1 Sell 2 10 Limit 0; OpAdd 3 Sell 2 10 Limit 0]).

(** The order that rests in slot 0 of [one_ask]. *)
Definition ask_1 : Order.t := Order.mk 1 2 10 10 0 Sell Limit.

(** A pool of two slots with an order in slot 0. *)
Definition pool_1 : MemPool.t :=
  MemPool.construct 0 ask_1 (snd (MemPool.alloc (MemPool.init 2))).

(** The links of the level at price 2 over two unlinked orders, and the
    same level after slots 0 and 1 have been pushed. *)
Definition links_0 : Links.t :=
  Links.init 2 {[ Links.Slot 0 := Links.mkcell None None;
                  Links.Slot 1 := Links.mkcell None None ]}.
Definition links_1 : Links.t :=
  Eval vm_compute in
    default links_0 (Links.push_back 2 (OrderBook.storage two_asks) 0 links_0).
Definition links_2 : Links.t :=
  Eval vm_compute in
    default links_0
      (lv ← Links.push_back 2 (OrderBook.storage two_asks) 0 links_0;
       Links.push_back 2 (OrderBook.storage two_asks) 1 lv).

Lemma repr_links_1 : repr 2 links_1 [0%nat].
Proof.
  split.
  - apply (bool_decide_unpack (NoDup [0%nat])). by vm_compute.
  - by vm_compute.
  - simpl. split_and!; by vm_compute.
Qed.

Lemma repr_links_2 : repr 2 links_2 [0%nat; 1%nat].
Proof.
  split.
  - apply (bool_decide_unpack (NoDup [0%nat; 1%nat])). by vm_compute.
  - by vm_compute.
  - simpl. split_and!; by vm_compute.
Qed.
End SmallStates.

(** The pool never leaks, on the book with two asks. *)
Lemma pool_used_matches_order_count_witness :
  SmallBook.reachable SmallBook.two_asks ∧
  pool_used SmallBook.two_asks = order_count SmallBook.two_asks ∧
  order_count SmallBook.two_asks = Z.of_nat (size (OrderBook.storage SmallBook.two_asks)) ∧
  (MemPool.full SmallBook.MaxOrders (OrderBook.pool_ SmallBook.two_asks) = true ↔
   free_list SmallBook.two_asks = []).
Proof.
  split; [exact SmallBook.reachable_two_asks|].
  destruct (pool_used_matches_order_count SmallBook.MaxPrice SmallBook.MaxOrders SmallBook.gas
              ltac:(small_params) ltac:(small_params) ltac:(small_params) ltac:(small_params)
              SmallBook.two_asks SmallBook.reachable_two_asks)
    as (H1 & H2 & _ & _ & H5).
  split_and!; [exact H1|exact H2|exact H5].
Defined.

(** The best prices on the book with a bid at 1 and an ask at 2. *)
Lemma best_prices_exact_witness :
  SmallBook.reachable SmallBook.bid_and_ask ∧
  has_bid SmallBook.bid_and_ask = true ∧
  ∃ o ord, OrderBook.storage SmallBook.bid_and_ask !! o = Some ord ∧
           Order.side ord = Buy ∧ Order.price ord = bid SmallBook.bid_and_ask.
Proof.
  split; [exact SmallStates.reachable_bid_and_ask|].
  split; [by vm_compute|].
  apply (proj1 (proj2 (proj2
           (best_prices_exact SmallBook.MaxPrice SmallBook.MaxOrders SmallBook.gas
              ltac:(small_params) ltac:(small_params) ltac:(small_params) ltac:(small_params)
              SmallBook.bid_and_ask SmallStates.reachable_bid_and_ask)))).
  by vm_compute.
Defined.

(** The spread of the book with a bid at 1 and an ask at 2. *)
Lemma spread_exact_witness :
  SmallBook.reachable SmallBook.bid_and_ask ∧
  (has_bid SmallBook.bid_and_ask = true ∨
   has_ask SmallBook.MaxPrice SmallBook.bid_and_ask = true) ∧
  spread SmallBook.bid_and_ask = ask SmallBook.bid_and_ask - bid SmallBook.bid_and_ask ∧
  1 ≤ spread SmallBook.bid_and_ask ≤ SmallBook.MaxPrice + 1.
Proof.
  split; [exact SmallStates.reachable_bid_and_ask|].
  split; [left; by vm_compute|].
  apply (proj1 (spread_exact SmallBook.MaxPrice SmallBook.MaxOrders SmallBook.gas
                  ltac:(small_params) ltac:(small_params) ltac:(small_params)
                  ltac:(small_params)
                  SmallBook.bid_and_ask SmallStates.reachable_bid_and_ask)).
  left. by vm_compute.
Defined.

(** Cancelling the bid of the book with a bid and an ask. *)
Lemma cancel_removes_exactly_witness :
  SmallBook.reachable SmallBook.bid_and_ask ∧
  (∃ ord, OrderBook.storage SmallBook.bid_and_ask !! 1%nat = Some ord ∧ Order.id ord = 2) ∧
  ∃ b', SmallBook.cancel 2 SmallBook.bid_and_ask = Some (true, b') ∧
        OrderBook.storage b' = delete 1%nat (OrderBook.storage SmallBook.bid_and_ask) ∧
        free_list b' = 1%nat :: free_list SmallBook.bid_and_ask ∧
        order_count b' = order_count SmallBook.bid_and_ask - 1 ∧
        get_order SmallBook.MaxOrders SmallBook.gas 2 b' = Some None.
Proof.
  split; [exact SmallStates.reachable_bid_and_ask|].
  split; [eexists; split; by vm_compute|].
  destruct (proj2 (cancel_removes_exactly SmallBook.MaxPrice SmallBook.MaxOrders SmallBook.gas
                     ltac:(small_params) ltac:(small_params) ltac:(small_params)
                     ltac:(small_params)
                     SmallBook.bid_and_ask 2 SmallStates.reachable_bid_and_ask)
              1%nat (Order.mk 2 1 5 5 0 Buy Limit) ltac:(by vm_compute) ltac:(done))
    as (b' & Hc & Hst & Hfree & Hcnt & _ & _ & _ & _ & _ & Hget & _).
  exists b'. split_and!; [exact Hc|exact Hst|exact Hfree|exact Hcnt|exact Hget].
Defined.

(** The result code of a bid on the full book with two asks. *)
Lemma add_result_codes_witness :
  SmallBook.reachable SmallBook.two_asks ∧ is_i64 5 ∧
  ∃ r b', SmallBook.add 3 Buy 1 5 Limit 0 SmallBook.two_asks = Some (r, b') ∧
    (r = PoolExhausted →
       Limit = Limit ∧ pool_used SmallBook.two_asks = pool_capacity SmallBook.MaxOrders) ∧
    (r ≠ Ok → b' = SmallBook.two_asks).
Proof.
  split; [exact SmallBook.reachable_two_asks|].
  split; [unfold is_i64; lia|].
  destruct (add_result_codes SmallBook.MaxPrice SmallBook.MaxOrders SmallBook.gas
              ltac:(small_params) ltac:(small_params) ltac:(small_params) ltac:(small_params)
              3 Buy 1 5 Limit 0 SmallBook.two_asks SmallBook.reachable_two_asks
              ltac:(unfold is_i64; lia))
    as (r & b' & Hadd & _ & _ & _ & Hpool & Hne & _).
  exists r, b'. split_and!; [exact Hadd|exact Hpool|exact Hne].
Defined.

(** A market buy of 15 against two asks of 10. *)
Lemma match_conserves_quantity_witness :
  SmallBook.reachable SmallBook.two_asks ∧ is_i64 15 ∧
  ∃ q' b', SmallBook.match_ Buy 15 SmallBook.two_asks = Some (q', b') ∧
    (0 < 15 → 0 ≤ q' ≤ 15) ∧
    15 - q' = resting_qty (OrderBook.storage SmallBook.two_asks)
              - resting_qty (OrderBook.storage b') ∧
    order_count b' ≤ order_count SmallBook.two_asks.
Proof.
  split; [exact SmallBook.reachable_two_asks|].
  split; [unfold is_i64; lia|].
  destruct (match_conserves_quantity SmallBook.MaxPrice SmallBook.MaxOrders SmallBook.gas
              ltac:(small_params) ltac:(small_params) ltac:(small_params) ltac:(small_params)
              Buy 15 SmallBook.two_asks SmallBook.reachable_two_asks
              ltac:(unfold is_i64; lia))
    as (q' & b' & Hm & Hq & Hcons & Hcnt & _).
  exists q', b'. split_and!; [exact Hm|exact Hq|exact Hcons|exact Hcnt].
Defined.

(** A market buy of 12 against an ask of 10 at 2 and an ask of 5 at 3. *)
Lemma match_price_priority_witness :
  SmallBook.reachable SmallBook.two_asks_at_3 ∧ is_i64 12 ∧
  SmallBook.match_ Buy 12 SmallBook.two_asks_at_3 = Some (0, SmallStates.after_buy_12) ∧
  only_fills SmallBook.two_asks_at_3 SmallStates.after_buy_12 ∧
  bid SmallStates.after_buy_12 = bid SmallBook.two_asks_at_3 ∧
  ask SmallBook.two_asks_at_3 ≤ ask SmallStates.after_buy_12.
Proof.
  split; [exact SmallStates.reachable_two_asks_at_3|].
  split; [unfold is_i64; lia|].
  split; [by vm_compute|].
  destruct (match_price_priority SmallBook.MaxPrice SmallBook.MaxOrders SmallBook.gas
              ltac:(small_params) ltac:(small_params) ltac:(small_params) ltac:(small_params)
              Buy 12 SmallBook.two_asks_at_3 0 SmallStates.after_buy_12
              SmallStates.reachable_two_asks_at_3 ltac:(unfold is_i64; lia)
              ltac:(by vm_compute))
    as (Hfills & _ & _ & Hbid & Hask).
  split_and!; [exact Hfills|exact Hbid|exact Hask].
Defined.

(** A market buy of 15 against two asks of 10 at price 2. *)
Lemma match_time_priority_witness :
  SmallBook.reachable SmallBook.two_asks ∧ is_i64 15 ∧
  SmallBook.match_ Buy 15 SmallBook.two_asks = Some (0, SmallStates.after_buy_15) ∧
  ∃ n, PriceLevel.orders (lvl SmallStates.after_buy_15 2)
         = drop n (PriceLevel.orders (lvl SmallBook.two_asks 2)) ∧
       (∀ o, o ∈ take n (PriceLevel.orders (lvl SmallBook.two_asks 2)) →
             OrderBook.storage SmallStates.after_buy_15 !! o = None) ∧
       (∀ o, o ∈ tail (PriceLevel.orders (lvl SmallStates.after_buy_15 2)) →
             OrderBook.storage SmallStates.after_buy_15 !! o
               = OrderBook.storage SmallBook.two_asks !! o).
Proof.
  split; [exact SmallBook.reachable_two_asks|].
  split; [unfold is_i64; lia|].
  split; [by vm_compute|].
  apply (match_time_priority SmallBook.MaxPrice SmallBook.MaxOrders SmallBook.gas
           ltac:(small_params) ltac:(small_params) ltac:(small_params) ltac:(small_params)
           Buy 15 SmallBook.two_asks 0 SmallStates.after_buy_15
           SmallBook.reachable_two_asks ltac:(unfold is_i64; lia) ltac:(by vm_compute) 2).
Defined.

(** A limit buy of 15 at price 2 against an ask of 10 at 2. *)
Lemma add_trades_within_limit_witness :
  SmallBook.reachable SmallBook.one_ask ∧ is_i64 15 ∧
  SmallBook.add 2 Buy 2 15 Limit 0 SmallBook.one_ask
    = Some (Ok, SmallStates.crossed_and_rested) ∧
  ∃ rem b1,
    cross SmallBook.MaxPrice SmallBook.MaxOrders SmallBook.gas Buy 2 15 SmallBook.one_ask
      = Some (rem, b1) ∧
    0 ≤ rem ≤ 15 ∧
    15 - rem = resting_qty (OrderBook.storage SmallBook.one_ask)
               - resting_qty (OrderBook.storage b1) ∧
    resting_qty (OrderBook.storage SmallStates.crossed_and_rested)
      = resting_qty (OrderBook.storage b1) + (if decide (Limit = Limit) then rem else 0).
Proof.
  split; [exact SmallBook.reachable_one_ask|].
  split; [unfold is_i64; lia|].
  split; [by vm_compute|].
  destruct (add_trades_within_limit SmallBook.MaxPrice SmallBook.MaxOrders SmallBook.gas
              ltac:(small_params) ltac:(small_params) ltac:(small_params) ltac:(small_params)
              2 Buy 2 15 Limit 0 SmallBook.one_ask SmallStates.crossed_and_rested
              SmallBook.reachable_one_ask ltac:(unfold is_i64; lia) ltac:(by vm_compute))
    as (rem & b1 & Hcross & Hrem & Hcons & Hrest & _).
  exists rem, b1. exact (conj Hcross (conj Hrem (conj Hcons Hrest))).
Defined.

(** A market buy of 3 against an ask of 10. *)
Lemma resting_orders_only_shrink_witness :
  SmallBook.reachable SmallBook.one_ask ∧ well_typed (OpMatch Buy 3) ∧
  SmallBook.step (OpMatch Buy 3) SmallBook.one_ask = Some SmallStates.after_buy_3 ∧
  (OrderBook.storage SmallStates.after_buy_3 !! 0%nat
     = Some (Order.mk 1 2 7 10 0 Sell Limit)) ∧
  ((∃ ord, OrderBook.storage SmallBook.one_ask !! 0%nat = Some ord ∧
           Order.mk 1 2 7 10 0 Sell Limit = with_qty 7 ord ∧ 7 ≤ Order.qty ord) ∨
   (∃ side px qty ts,
      OpMatch Buy 3 = OpAdd 1 side px qty Limit ts ∧
      (∀ x xo, OrderBook.storage SmallBook.one_ask !! x = Some xo → Order.id xo ≠ 1) ∧
      Order.mk 1 2 7 10 0 Sell Limit = Order.create 1 px 7 side Limit ts ∧
      0 < 7 ≤ qty)).
Proof.
  split; [exact SmallBook.reachable_one_ask|].
  split; [unfold well_typed, is_u64, is_i64; lia|].
  split; [by vm_compute|].
  split; [by vm_compute|].
  apply (resting_orders_only_shrink SmallBook.MaxPrice SmallBook.MaxOrders SmallBook.gas
           ltac:(small_params) ltac:(small_params) ltac:(small_params) ltac:(small_params)
           (OpMatch Buy 3) SmallBook.one_ask SmallStates.after_buy_3
           SmallBook.reachable_one_ask ltac:(unfold well_typed, is_u64, is_i64; lia)
           ltac:(by vm_compute) 0%nat (Order.mk 1 2 7 10 0 Sell Limit) ltac:(by vm_compute)).
Defined.

(** The stress driver on a run of five operations. *)
Lemma stress_memory_check_passes_witness :
  Forall op_well_typed SmallStates.ops ∧ Z.of_nat (length SmallStates.ops) < 2 ^ 64 ∧
  ∃ c b,
    Stress.run SmallBook.MaxPrice SmallBook.MaxOrders SmallBook.gas SmallStates.ops
      Stress.zero SmallBook.empty = Some (c, b) ∧
    Stress.mem_ok b = true ∧
    Stress.main SmallBook.MaxPrice SmallBook.MaxOrders SmallBook.gas SmallStates.ops = Some 0 ∧
    Stress.add_cnt c + Stress.cancel_cnt c + Stress.match_cnt c
      = Z.of_nat (length SmallStates.ops) ∧
    Stress.cancel_ok c + order_count b ≤ Stress.add_ok c.
Proof.
  assert (Forall op_well_typed SmallStates.ops) as Hops.
  { repeat constructor; unfold is_u64, is_i64; simpl; lia. }
  split; [exact Hops|].
  split; [simpl; lia|].
  destruct (stress_memory_check_passes SmallBook.MaxPrice SmallBook.MaxOrders SmallBook.gas
              ltac:(small_params) ltac:(small_params) ltac:(small_params) ltac:(small_params)
              SmallStates.ops Hops ltac:(simpl; lia))
    as (c & b & Hrun & _ & Hmem & Hmain & Hsum & _ & _ & Hle).
  exists c, b. split_and!; [exact Hrun|exact Hmem|exact Hmain|exact Hsum|exact Hle].
Defined.

(** The scan for the best ask from price 0 on the book whose only ask is at
    price 2. *)
Lemma update_best_scans_witness :
  0 ≤ OrderBook.best_ask_ SmallStates.stale_ask ≤ SmallBook.MaxPrice + 1 ∧
  ∃ a, update_best_ask SmallBook.MaxPrice SmallBook.gas SmallStates.stale_ask
         = Some (OrderBook.set_best_ask a SmallStates.stale_ask) ∧
       OrderBook.best_ask_ SmallStates.stale_ask ≤ a ≤ SmallBook.MaxPrice + 1 ∧
       (∀ q, OrderBook.best_ask_ SmallStates.stale_ask ≤ q < a →
             PriceLevel.empty (lvl SmallStates.stale_ask q) = true) ∧
       (a ≤ SmallBook.MaxPrice → PriceLevel.empty (lvl SmallStates.stale_ask a) = false).
Proof.
  split; [vm_compute; split; discriminate|].
  apply (proj2 (update_best_scans SmallBook.MaxPrice SmallBook.MaxOrders SmallBook.gas
                  ltac:(small_params) ltac:(small_params) ltac:(small_params)
                  SmallStates.stale_ask)).
  vm_compute; split; discriminate.
Defined.

(** A bid of 5 at price 1 rests under the ask at 2. *)
Lemma add_rests_and_updates_best_witness :
  SmallBook.reachable SmallBook.one_ask ∧ is_i64 5 ∧
  SmallBook.add 2 Buy 1 5 Limit 0 SmallBook.one_ask = Some (Ok, SmallBook.bid_and_ask) ∧
  cross SmallBook.MaxPrice SmallBook.MaxOrders SmallBook.gas Buy 1 5 SmallBook.one_ask
    = Some (5, SmallBook.one_ask) ∧
  order_count SmallBook.bid_and_ask = order_count SmallBook.one_ask + 1 ∧
  pool_used SmallBook.bid_and_ask = pool_used SmallBook.one_ask + 1 ∧
  PriceLevel.count (lvl SmallBook.bid_and_ask 1)
    = PriceLevel.count (lvl SmallBook.one_ask 1) + 1 ∧
  PriceLevel.qty (lvl SmallBook.bid_and_ask 1)
    = wrap_i64 (PriceLevel.qty (lvl SmallBook.one_ask 1) + 5) ∧
  (∀ q, q ≠ 1 → lvl SmallBook.bid_and_ask q = lvl SmallBook.one_ask q) ∧
  (bid SmallBook.bid_and_ask = Z.max (bid SmallBook.one_ask) 1 ∧
   ask SmallBook.bid_and_ask = ask SmallBook.one_ask ∧
   has_bid SmallBook.bid_and_ask = true).
Proof.
  split; [exact SmallBook.reachable_one_ask|].
  split; [unfold is_i64; lia|].
  split; [by vm_compute|].
  split; [by vm_compute|].
  apply (add_rests_and_updates_best SmallBook.MaxPrice SmallBook.MaxOrders SmallBook.gas
           ltac:(small_params) ltac:(small_params) ltac:(small_params) ltac:(small_params)
           2 Buy 1 5 0 SmallBook.one_ask SmallBook.bid_and_ask 5 SmallBook.one_ask
           SmallBook.reachable_one_ask ltac:(unfold is_i64; lia)
           ltac:(by vm_compute) ltac:(by vm_compute) ltac:(lia)).
Defined.
(** Inserting an order with id 3 into the table that holds id 1: both ids
    have cell 1 as their home, so the order goes to cell 0, and both ids are
    found afterwards. *)
Lemma insert_map_behaviour_witness :
  (0 < 2)%nat ∧ (2 ≤ 2)%nat ∧
  tbl_ok 2 (OrderBook.storage SmallStates.asks_1_3)
    (OrderBook.order_map_ SmallBook.one_ask) ∧
  key (OrderBook.storage SmallStates.asks_1_3) 1 = Some 3 ∧
  key (OrderBook.storage SmallStates.asks_1_3) 0 = Some 1 ∧
  OrderBook.order_map_ SmallBook.one_ask !! 1%nat = Some 0%nat ∧
  slot 2 3 = 1%nat ∧
  ∃ om', insert_map 2 2 (OrderBook.storage SmallStates.asks_1_3) 1
           (OrderBook.order_map_ SmallBook.one_ask) = Some (true, om') ∧
    om' = <[0%nat := 1%nat]> (OrderBook.order_map_ SmallBook.one_ask) ∧
    tbl_ok 2 (OrderBook.storage SmallStates.asks_1_3) om' ∧
    lookup_map 2 2 (OrderBook.storage SmallStates.asks_1_3) om' 3 = Some (Some 1%nat) ∧
    lookup_map 2 2 (OrderBook.storage SmallStates.asks_1_3) om' 1 = Some (Some 0%nat).
Proof.
  assert (tbl_ok 2 (OrderBook.storage SmallStates.asks_1_3)
            (OrderBook.order_map_ SmallBook.one_ask)) as Hok.
  { apply (tbl_ok_ext 2 (OrderBook.storage SmallBook.one_ask)).
    - apply (bool_decide_unpack
               (map_Forall (λ _ o, key (OrderBook.storage SmallStates.asks_1_3) o
                                   = key (OrderBook.storage SmallBook.one_ask) o)
                  (OrderBook.order_map_ SmallBook.one_ask))).
      by vm_compute.
    - eapply inv_tbl, wf_inv.
      apply (reachable_wf SmallBook.MaxPrice SmallBook.MaxOrders SmallBook.gas);
        [small_params..|exact SmallBook.reachable_one_ask]. }
  assert (key (OrderBook.storage SmallStates.asks_1_3) 1 = Some 3) as Hk3 by (by vm_compute).
  assert (key (OrderBook.storage SmallStates.asks_1_3) 0 = Some 1) as Hk1 by (by vm_compute).
  assert (OrderBook.order_map_ SmallBook.one_ask !! 1%nat = Some 0%nat) as Hcell
    by (by vm_compute).
  split; [lia|]. split; [lia|]. split; [exact Hok|]. split; [exact Hk3|].
  split; [exact Hk1|]. split; [exact Hcell|]. split; [by vm_compute|].
  destruct (insert_map_behaviour 2 2 ltac:(lia) (OrderBook.storage SmallStates.asks_1_3)
              (OrderBook.order_map_ SmallBook.one_ask) 1%nat 3 ltac:(lia) Hok Hk3)
    as (r & om' & Hins & _ & _ & Hdone).
  assert (r = true) as Hr.
  { pose proof Hins as Hrun. vm_compute in Hrun. by injection Hrun as <- _. }
  destruct (Hdone Hr) as (v & Hv & Hvac & Hom & Hok' & Hl3 & Hold).
  assert (v = 0%nat) as Hv0.
  { destruct v as [|[|v]]; [done| |lia]. rewrite Hcell in Hvac. discriminate. }
  exists om'. rewrite Hr in Hins. rewrite Hv0 in Hom.
  exact (conj Hins (conj Hom (conj Hok' (conj Hl3 (Hold 1%nat 0%nat 1 Hcell Hk1))))).
Defined.

(** Removing an id that is not there from the full table of the book with
    two asks: the scan never ends. *)
Lemma remove_map_absent_witness :
  (0 < SmallBook.MaxOrders)%nat ∧
  tbl_ok SmallBook.MaxOrders (OrderBook.storage SmallBook.two_asks)
    (OrderBook.order_map_ SmallBook.two_asks) ∧
  (∀ i e, OrderBook.order_map_ SmallBook.two_asks !! i = Some e →
          key (OrderBook.storage SmallBook.two_asks) e ≠ Some 7) ∧
  tbl_full SmallBook.MaxOrders (OrderBook.order_map_ SmallBook.two_asks) ∧
  remove_map SmallBook.MaxOrders SmallBook.gas (OrderBook.storage SmallBook.two_asks) 7
    (OrderBook.order_map_ SmallBook.two_asks) = None ∧
  (∀ fuel, remove_loop SmallBook.MaxOrders SmallBook.gas fuel
             (OrderBook.storage SmallBook.two_asks) 7 (slot SmallBook.MaxOrders 7)
             (OrderBook.order_map_ SmallBook.two_asks) = None).
Proof.
  assert (tbl_ok SmallBook.MaxOrders (OrderBook.storage SmallBook.two_asks)
            (OrderBook.order_map_ SmallBook.two_asks)) as Hok.
  { eapply inv_tbl, wf_inv.
    apply (reachable_wf SmallBook.MaxPrice SmallBook.MaxOrders SmallBook.gas);
      [small_params..|exact SmallBook.reachable_two_asks]. }
  assert (∀ i e, OrderBook.order_map_ SmallBook.two_asks !! i = Some e →
                 key (OrderBook.storage SmallBook.two_asks) e ≠ Some 7) as Habs.
  { apply (bool_decide_unpack
             (map_Forall (λ _ e, key (OrderBook.storage SmallBook.two_asks) e ≠ Some 7)
                (OrderBook.order_map_ SmallBook.two_asks))).
    by vm_compute. }
  assert (tbl_full SmallBook.MaxOrders (OrderBook.order_map_ SmallBook.two_asks)) as Hfull.
  { intros z Hz. destruct z as [|[|z]]; [by vm_compute; eexists..|].
    unfold SmallBook.MaxOrders in Hz. lia. }
  split; [exact (proj1 (proj2 SmallBook.params_ok))|].
  split; [exact Hok|]. split; [exact Habs|]. split; [exact Hfull|].
  apply (proj2 (remove_map_absent SmallBook.MaxOrders SmallBook.gas
                  (proj1 (proj2 SmallBook.params_ok))
                  (OrderBook.storage SmallBook.two_asks)
                  (OrderBook.order_map_ SmallBook.two_asks) 7 Hok Habs)).
  exact Hfull.
Defined.

(** [alloc] and [create] on the pool of two slots that holds an order in
    slot 0: slot 1 is handed out and the pool is full afterwards. *)
Lemma pool_alloc_spec_witness :
  Z.of_nat 2 < 2 ^ 64 ∧ pool_reachable 2 SmallStates.pool_1 ∧
  MemPool.used SmallStates.pool_1 = 1 ∧
  MemPool.used SmallStates.pool_1 + MemPool.available 2 SmallStates.pool_1
    = MemPool.capacity 2 ∧
  MemPool.full 2 SmallStates.pool_1 = false ∧
  MemPool.owns 2 1 = true ∧
  (¬ allocated 2 SmallStates.pool_1 1) ∧
  allocated 2 (snd (MemPool.alloc SmallStates.pool_1)) 1 ∧
  (∀ x, x ≠ 1%nat →
     allocated 2 (snd (MemPool.alloc SmallStates.pool_1)) x ↔
     allocated 2 SmallStates.pool_1 x) ∧
  MemPool.storage_ (snd (MemPool.alloc SmallStates.pool_1))
    = MemPool.storage_ SmallStates.pool_1 ∧
  MemPool.used (snd (MemPool.alloc SmallStates.pool_1)) = 2 ∧
  MemPool.full 2 (snd (MemPool.alloc SmallStates.pool_1)) = true ∧
  MemPool.create SmallStates.ask_1 SmallStates.pool_1
    = (Some 1%nat,
       MemPool.construct 1 SmallStates.ask_1 (snd (MemPool.alloc SmallStates.pool_1))).
Proof.
  assert (allocated 2 SmallStates.pool_1 0) as Ha.
  { split; [lia|]. apply (bool_decide_unpack (0%nat ∉ [1%nat])). by vm_compute. }
  assert (pool_reachable 2 SmallStates.pool_1) as Hr.
  { apply pool_construct; [apply pool_alloc, pool_init|exact Ha]. }
  split; [lia|]. split; [exact Hr|]. split; [by vm_compute|].
  destruct (pool_alloc_spec 2 ltac:(lia) SmallStates.pool_1 SmallStates.ask_1 Hr)
    as (Hsum & _ & Halloc).
  change (MemPool.alloc SmallStates.pool_1)
    with (Some 1%nat, snd (MemPool.alloc SmallStates.pool_1)) in Halloc.
  cbv beta iota in Halloc.
  destruct Halloc as (Hfull & Howns & Hnot & Hnow & _ & Hframe & Hst & Hused & Hcreate & _).
  split; [exact Hsum|]. split; [exact Hfull|]. split; [exact Howns|]. split; [exact Hnot|].
  split; [exact Hnow|]. split; [exact Hframe|]. split; [exact Hst|].
  split; [by vm_compute|]. split; [by vm_compute|]. exact Hcreate.
Defined.

(** Freeing slot 0 of the pool that holds one order, and allocating
    again. *)
Lemma pool_dealloc_alloc_round_trip_witness :
  Z.of_nat 2 < 2 ^ 64 ∧ pool_reachable 2 SmallStates.pool_1 ∧
  allocated 2 SmallStates.pool_1 0 ∧
  MemPool.used (MemPool.dealloc 0 SmallStates.pool_1) = MemPool.used SmallStates.pool_1 - 1 ∧
  MemPool.storage_ (MemPool.dealloc 0 SmallStates.pool_1) !! 0%nat = None ∧
  fst (MemPool.alloc (MemPool.dealloc 0 SmallStates.pool_1)) = Some 0%nat.
Proof.
  assert (allocated 2 SmallStates.pool_1 0) as Ha.
  { split; [lia|]. apply (bool_decide_unpack (0%nat ∉ [1%nat])). by vm_compute. }
  assert (pool_reachable 2 SmallStates.pool_1) as Hr.
  { apply pool_construct; [apply pool_alloc, pool_init|exact Ha]. }
  split; [lia|]. split; [exact Hr|]. split; [exact Ha|].
  destruct (pool_dealloc_alloc_round_trip 2 ltac:(lia) SmallStates.pool_1 0%nat Hr Ha)
    as (Hused & Hst & _ & Halloc & _).
  split; [exact Hused|]. split; [exact Hst|]. by rewrite Halloc.
Defined.

(** A fresh pool of two slots hands out slot 0, then slot 1, then
    nothing. *)
Lemma pool_init_allocates_in_order_witness :
  Z.of_nat 2 < 2 ^ 64 ∧ (2 ≤ 2)%nat ∧
  MemPool.empty (MemPool.init 2) = true ∧
  fst (allocs 2 (MemPool.init 2)) = [Some 0%nat; Some 1%nat] ∧
  MemPool.used (snd (allocs 2 (MemPool.init 2))) = 2 ∧
  MemPool.full 2 (snd (allocs 2 (MemPool.init 2))) = true ∧
  fst (allocs 3 (snd (allocs 2 (MemPool.init 2)))) = [None; None; None].
Proof.
  split; [lia|]. split; [lia|].
  destruct (pool_init_allocates_in_order 2 ltac:(lia) 2%nat ltac:(lia))
    as (Hempty & Hseq & Hused & Hfull).
  destruct (Hfull eq_refl) as [Hf Hnone].
  exact (conj Hempty (conj Hseq (conj Hused (conj Hf (Hnone 3%nat))))).
Defined.

(** Pushing slot 1 behind slot 0 on the level at price 2: the old tail,
    slot 0, gets the new order as its successor. *)
Lemma links_push_back_appends_witness :
  repr 2 SmallStates.links_1 [0%nat] ∧ (1%nat ∉ [0%nat]) ∧
  Links.mem SmallStates.links_1 !! Links.Slot 1 = Some (Links.mkcell None None) ∧
  OrderBook.storage SmallBook.two_asks !! 1%nat = Some (Order.mk 2 2 10 10 0 Sell Limit) ∧
  Links.mem SmallStates.links_1 !! Links.Slot 0
    = Some (Links.mkcell (Some (Links.Sentinel 2)) (Some (Links.Sentinel 2))) ∧
  ∃ lv', Links.push_back 2 (OrderBook.storage SmallBook.two_asks) 1 SmallStates.links_1
           = Some lv' ∧
         lv' = SmallStates.links_2 ∧
         repr 2 lv' ([0%nat] ++ [1%nat]) ∧
         PriceLevel.push_back (OrderBook.storage SmallBook.two_asks) 1
           (abs SmallStates.links_1 [0%nat]) = Some (abs lv' ([0%nat] ++ [1%nat])) ∧
         Links.mem lv' !! Links.Slot 0
           = Some (Links.mkcell (Some (Links.Sentinel 2)) (Some (Links.Slot 1))) ∧
         Links.mem lv' !! Links.Slot 1
           = Some (Links.mkcell (Some (Links.Slot 0)) (Some (Links.Sentinel 2))).
Proof.
  assert (1%nat ∉ [0%nat]) as Hnotin.
  { apply (bool_decide_unpack (1%nat ∉ [0%nat])). by vm_compute. }
  split; [exact SmallStates.repr_links_1|]. split; [exact Hnotin|].
  split; [by vm_compute|]. split; [by vm_compute|]. split; [by vm_compute|].
  destruct (links_push_back_appends 2 (OrderBook.storage SmallBook.two_asks)
              SmallStates.links_1 [0%nat] 1%nat (Order.mk 2 2 10 10 0 Sell Limit)
              (Links.mkcell None None)
              SmallStates.repr_links_1 Hnotin ltac:(by vm_compute) ltac:(by vm_compute))
    as (lv' & Hpush & Hrepr & Habs & _).
  assert (lv' = SmallStates.links_2) as Heq.
  { pose proof Hpush as Hrun. vm_compute in Hrun. by injection Hrun as <-. }
  exists lv'. split; [exact Hpush|]. split; [exact Heq|]. split; [exact Hrepr|].
  split; [exact Habs|]. rewrite Heq. split; by vm_compute.
Defined.

(** Unlinking slot 0 from the level that queues slots 0 and 1. *)
Lemma links_remove_unlinks_witness :
  repr 2 SmallStates.links_2 [0%nat; 1%nat] ∧ 0%nat ∈ [0%nat; 1%nat] ∧
  OrderBook.storage SmallBook.two_asks !! 0%nat = Some SmallStates.ask_1 ∧
  ∃ lv', Links.remove (OrderBook.storage SmallBook.two_asks) 0 SmallStates.links_2
           = Some lv' ∧
         repr 2 lv' (filter (λ x, x ≠ 0%nat) [0%nat; 1%nat]) ∧
         Links.mem lv' !! Links.Slot 0 = Some (Links.mkcell None None).
Proof.
  assert (0%nat ∈ [0%nat; 1%nat]) as Hin by apply list_elem_of_here.
  split; [exact SmallStates.repr_links_2|]. split; [exact Hin|].
  split; [by vm_compute|].
  destruct (links_remove_unlinks 2 (OrderBook.storage SmallBook.two_asks)
              SmallStates.links_2 [0%nat; 1%nat] 0%nat SmallStates.ask_1
              SmallStates.repr_links_2 Hin ltac:(by vm_compute))
    as (lv' & Hrm & Hrepr & _ & Hcell & _).
  exists lv'. exact (conj Hrm (conj Hrepr Hcell)).
Defined.

(** Walking the level that queues slots 0 and 1, in both directions. *)
Lemma links_traversal_witness :
  repr 2 SmallStates.links_2 [0%nat; 1%nat] ∧
  Links.front 2 SmallStates.links_2 = Some (Links.Slot 0) ∧
  Links.back 2 SmallStates.links_2 = Some (Links.Slot 1) ∧
  walk 2 3 (Links.mem SmallStates.links_2) (Links.Slot 0) = Some [0%nat; 1%nat] ∧
  walk_back 2 3 (Links.mem SmallStates.links_2) (Links.Slot 1) = Some [1%nat; 0%nat].
Proof.
  split; [exact SmallStates.repr_links_2|].
  destruct (links_traversal 2 SmallStates.links_2 [0%nat; 1%nat] SmallStates.repr_links_2)
    as (Hfront & Hback & _ & _ & Hwalk & _).
  destruct (Hwalk 3%nat ltac:(simpl; lia)) as [Hw Hwb].
  exact (conj Hfront (conj Hback (conj Hw Hwb))).
Defined.

(** Pushing slot 1 behind slot 0 on the level of the book with one ask, and
    removing it again. *)
Lemma level_push_back_remove_round_trip_witness :
  OrderBook.storage SmallBook.two_asks !! 1%nat = Some (Order.mk 2 2 10 10 0 Sell Limit) ∧
  (1%nat ∉ PriceLevel.orders (lvl SmallBook.one_ask 2)) ∧
  is_u64 (PriceLevel.order_cnt (lvl SmallBook.one_ask 2)) ∧
  is_i64 (PriceLevel.total_qty (lvl SmallBook.one_ask 2)) ∧
  ∃ lv1, PriceLevel.push_back (OrderBook.storage SmallBook.two_asks) 1
           (lvl SmallBook.one_ask 2) = Some lv1 ∧
         PriceLevel.back lv1 = Some 1%nat ∧
         PriceLevel.front lv1 = Some (default 1%nat (PriceLevel.front (lvl SmallBook.one_ask 2))) ∧
         PriceLevel.remove (OrderBook.storage SmallBook.two_asks) 1 lv1
           = Some (lvl SmallBook.one_ask 2).
Proof.
  assert (1%nat ∉ PriceLevel.orders (lvl SmallBook.one_ask 2)) as Hnotin.
  { apply (bool_decide_unpack (1%nat ∉ [0%nat])). by vm_compute. }
  assert (is_u64 (PriceLevel.order_cnt (lvl SmallBook.one_ask 2))) as Hcnt
    by (vm_compute; split; [discriminate|done]).
  assert (is_i64 (PriceLevel.total_qty (lvl SmallBook.one_ask 2))) as Hqty
    by (vm_compute; split; [discriminate|done]).
  split; [by vm_compute|]. split; [exact Hnotin|]. split; [exact Hcnt|]. split; [exact Hqty|].
  apply (level_push_back_remove_round_trip (OrderBook.storage SmallBook.two_asks)
           (lvl SmallBook.one_ask 2) 1%nat (Order.mk 2 2 10 10 0 Sell Limit)
           ltac:(by vm_compute) Hnotin Hcnt Hqty).
Defined.
